(** * Merkledag traversal (ipld/merkledag/traverse/traverse.go)

    A shallow embedding of the traversal engine: the three drivers
    [dfsPreTraverse], [dfsPostTraverse] and [bfsTraverse], the shared
    helpers [shouldSkip], [callFunc], [getNode] and [dfsDescend], and the
    entry point [Traverse].

    The Go code threads one mutable [traversal] (options and the [seen]
    map) through every call and invokes three closures of the caller: the
    visitor [Func], the recovery function [ErrFunc] and, through
    [Link.GetNode], the node getter [DAG].  The embedding is a state monad:
    the store holds the [seen] set, the state of the outside world the
    closures act on, and a chronological trace of what the engine did. *)

From Stdlib Require Import ZArith Lia.
From stdpp Require Import base option list gmap strings sets.

Open Scope Z_scope.

(** ** Machine integers *)

(** Go's [int] on a 64-bit target: [State.Depth] is incremented with
    two's-complement wrap-around. *)
Definition wrap64 (z : Z) : Z := (z + 2 ^ 63) mod 2 ^ 64 - 2 ^ 63.

Definition int_add (a b : Z) : Z := wrap64 (a + b).

(** ** Order *)

Definition Order := Z.

Definition DFSPre : Order := 0.
Definition DFSPost : Order := 1.
Definition BFS : Order := 2.

Section Engine.

(** [Link] is [*ipld.Link] and [E] the error values made outside the engine
    (by the node getter and by the visitor); [W] is the state of the world
    the caller's closures read and write. *)
Context {Link W E : Type}.

(** ** Data *)

(** An [ipld.Node] as far as the engine looks at it: [Cid] is
    [n.Cid().KeyString()], [Links] is [n.Links()]. *)
Record Node := mkNode { Cid : string; Links : list Link }.

(** [State]: the field [Node] is an interface value, [None] is the nil node.
    It is named [SNode] here, [Node] being the type. *)
Record State := mkState { SNode : option Node; Depth : Z }.

(** Go's [error].  [errorString] is a value built by [errors.New] inside
    the engine; [Outside] wraps an error value built by the caller's
    closures.  The two never coincide: [errors.New] returns a fresh pointer
    and Go compares errors by identity. *)
Inductive error : Type :=
| errorString (msg : string)
| Outside (e : E).

Record Options := mkOptions {
  (** [l.GetNode(ctx, DAG)]: a node, an error, both or neither. *)
  DAG : Link → W → (option Node * option E) * W;
  (** The field [Order]. *)
  Order_ : Order;
  Func : State → W → option E * W;
  ErrFunc : option (error → W → option error * W);
  SkipDuplicates : bool
}.

(** ** The store and its trace *)

Inductive event : Type :=
| EvFetch (l : Link) (r : option Node * option E)
| EvMark (k : string)
| EvRecover (e : error) (r : option error)
| EvDequeue (s : State)
| EvVisit (s : State) (r : option E).

Record store := mkStore {
  seen : gset string;
  world : W;
  trace : list event
}.

Definition emit (ev : event) (σ : store) : store :=
  mkStore (seen σ) (world σ) (trace σ ++ [ev]).

Definition set_world (w : W) (σ : store) : store :=
  mkStore (seen σ) w (trace σ).

Definition set_seen (s : gset string) (σ : store) : store :=
  mkStore s (world σ) (trace σ).

(** ** The monad

    [Val] is a normal return, [Crash] a run-time panic (a method call on
    the nil node), [Fuel] marks a run cut short by the fuel of the model. *)
Inductive outcome (A : Type) : Type :=
| Val (a : A) (σ : store)
| Crash (σ : store)
| Fuel (σ : store).
Arguments Val {A}.
Arguments Crash {A}.
Arguments Fuel {A}.

Definition M (A : Type) : Type := store → outcome A.

Definition ret {A} (a : A) : M A := λ σ, Val a σ.

Definition bind {A B} (m : M A) (f : A → M B) : M B :=
  λ σ, match m σ with
       | Val a σ' => f a σ'
       | Crash σ' => Crash σ'
       | Fuel σ' => Fuel σ'
       end.

Definition panic {A} : M A := λ σ, Crash σ.
Definition timeout {A} : M A := λ σ, Fuel σ.

Definition final {A} (r : outcome A) : store :=
  match r with Val _ σ | Crash σ | Fuel σ => σ end.

Notation "x <- m ;; f" := (bind m (λ x, f))
  (at level 20, m at level 99, f at level 200, only parsing).
Notation "' p <- m ;; f" := (bind m (λ p, f))
  (at level 20, p pattern, m at level 99, f at level 200, only parsing).

(** ** The engine *)

Section WithOptions.
Variable o : Options.

(** The call [l.GetNode(context.TODO(), t.opts.DAG)]. *)
Definition fetch (l : Link) : M (option Node * option E) :=
  λ σ, let '(r, w) := DAG o l (world σ) in
       Val r (emit (EvFetch l r) (set_world w σ)).

(** The call [t.opts.ErrFunc(err)] for a non-nil [ErrFunc]. *)
Definition recover (f : error → W → option error * W) (e : error)
  : M (option error) :=
  λ σ, let '(r, w) := f e (world σ) in
       Val r (emit (EvRecover e r) (set_world w σ)).

Definition shouldSkip (n : option Node) : M (bool * option error) :=
  if SkipDuplicates o then
    match n with
    | None => panic
    | Some n =>
        λ σ, if decide (Cid n ∈ seen σ) then Val (true, None) σ
             else Val (false, None)
                      (emit (EvMark (Cid n)) (set_seen ({[Cid n]} ∪ seen σ) σ))
    end
  else ret (false, None).

Definition callFunc (next : State) : M (option error) :=
  λ σ, let '(r, w) := Func o next (world σ) in
       Val (Outside <$> r) (emit (EvVisit next r) (set_world w σ)).

(** The closure [getNode] inside the method [getNode]. *)
Definition getNode_inner (l : Link) : M (option Node * option error) :=
  '(next, err) <- fetch l ;;
  match err with
  | Some e => ret (None, Some (Outside e))
  | None =>
      '(skip, err) <- shouldSkip next ;;
      ret ((if (skip : bool) then None else next), err)
  end.

Definition getNode (link : Link) : M (option Node * option error) :=
  '(next, err) <- getNode_inner link ;;
  match err, ErrFunc o with
  | Some e, Some f =>
      err' <- recover f e ;;
      ret (None, err')
  | _, _ => ret (next, err)
  end.

(** The [for _, l := range curr.Node.Links()] loop of [dfsDescend]. *)
Fixpoint dfsDescend_links (df : State → M (option error)) (depth : Z)
    (ls : list Link) : M (option error) :=
  match ls with
  | [] => ret None
  | l :: ls' =>
      '(node, err) <- getNode l ;;
      match err with
      | Some e => ret (Some e)
      | None =>
          match node with
          | None => dfsDescend_links df depth ls'
          | Some n =>
              err <- df (mkState (Some n) (int_add depth 1)) ;;
              match err with
              | Some e => ret (Some e)
              | None => dfsDescend_links df depth ls'
              end
          end
      end
  end.

Definition dfsDescend (df : State → M (option error)) (curr : State)
  : M (option error) :=
  match SNode curr with
  | None => panic
  | Some n => dfsDescend_links df (Depth curr) (Links n)
  end.

(** [fuel] bounds the depth of the recursion. *)
Fixpoint dfsPreTraverse (fuel : nat) (state : State) : M (option error) :=
  match fuel with
  | O => timeout
  | S fuel' =>
      err <- callFunc state ;;
      match err with
      | Some e => ret (Some e)
      | None => dfsDescend (dfsPreTraverse fuel') state
      end
  end.

Fixpoint dfsPostTraverse (fuel : nat) (state : State) : M (option error) :=
  match fuel with
  | O => timeout
  | S fuel' =>
      err <- dfsDescend (dfsPostTraverse fuel') state ;;
      match err with
      | Some e => ret (Some e)
      | None => callFunc state
      end
  end.

(** The inner loop of [bfsTraverse]: the queue [q] is returned with the
    resolved children pushed at its back. *)
Fixpoint bfs_links (depth : Z) (ls : list Link) (q : list State)
  : M (list State * option error) :=
  match ls with
  | [] => ret (q, None)
  | l :: ls' =>
      '(node, err) <- getNode l ;;
      match err with
      | Some e => ret (q, Some e)
      | None =>
          match node with
          | None => bfs_links depth ls' q
          | Some n => bfs_links depth ls' (q ++ [mkState (Some n) (int_add depth 1)])
          end
      end
  end.

Definition errDequeue : error :=
  errorString "failed to dequeue though queue not empty".

(** The [for q.Len() > 0] loop; [fuel] bounds its iterations. *)
Fixpoint bfs_loop (fuel : nat) (q : list State) : M (option error) :=
  match q with
  | [] => ret None
  | curr :: q' =>
      match fuel with
      | O => timeout
      | S fuel' =>
          _ <- (λ σ, Val tt (emit (EvDequeue curr) σ)) ;;
          match SNode curr with
          | None => ret (Some errDequeue)
          | Some n =>
              err <- callFunc curr ;;
              match err with
              | Some e => ret (Some e)
              | None =>
                  '(q'', err) <- bfs_links (Depth curr) (Links n) q' ;;
                  match err with
                  | Some e => ret (Some e)
                  | None => bfs_loop fuel' q''
                  end
              end
          end
      end
  end.

Definition bfsTraverse (fuel : nat) (root : State) : M (option error) :=
  '(skip, err) <- shouldSkip (SNode root) ;;
  if (skip : bool) || bool_decide (err ≠ None) then ret err
  else bfs_loop fuel [root].

End WithOptions.

Definition init (w : W) : store := mkStore ∅ w [].

Definition Traverse (fuel : nat) (root : option Node) (o : Options) (w : W)
  : outcome (option error) :=
  let state := mkState root 0 in
  if decide (Order_ o = DFSPre) then dfsPreTraverse o fuel state (init w)
  else if decide (Order_ o = DFSPost) then dfsPostTraverse o fuel state (init w)
  else if decide (Order_ o = BFS) then bfsTraverse o fuel state (init w)
  else dfsPreTraverse o fuel state (init w).

End Engine.

Arguments Node : clear implicits.
Arguments State : clear implicits.
Arguments error : clear implicits.
Arguments event : clear implicits.
Arguments Options : clear implicits.
Arguments store : clear implicits.
Arguments outcome : clear implicits.
Arguments M : clear implicits.
Arguments Val {Link W E A}.
Arguments Crash {Link W E A}.
Arguments Fuel {Link W E A}.
Arguments mkNode {Link}.
Arguments mkState {Link}.
Arguments mkStore {Link W E}.
Arguments mkOptions {Link W E}.

(** ** Reading a trace *)

Section Traces.
Context {Link W E : Type}.
Abbreviation event := (event Link E).

(** The states handed to the visitor, oldest first. *)
Definition visits (tr : list event) : list (State Link) :=
  omap (λ ev, match ev with EvVisit s _ => Some s | _ => None end) tr.

(** The identifiers of the nodes handed to the visitor. *)
Definition visited (tr : list event) : list string :=
  omap (λ ev, match ev with
              | EvVisit s _ => Cid <$> SNode s
              | _ => None
              end) tr.

(** The identifiers inserted into [seen], in insertion order. *)
Definition marks (tr : list event) : list string :=
  omap (λ ev, match ev with EvMark k => Some k | _ => None end) tr.

(** The links resolved through the node getter. *)
Definition fetches (tr : list event) : list Link :=
  omap (λ ev, match ev with EvFetch l _ => Some l | _ => None end) tr.

(** The visitor's calls with what each returned. *)
Definition calls (tr : list event) : list (State Link * option E) :=
  omap (λ ev, match ev with EvVisit s r => Some (s, r) | _ => None end) tr.


(** The identifier of each node handed to the visitor ([None] for the nil
    node). *)
Definition visit_keys (tr : list event) : list (option string) :=
  (λ s, Cid <$> SNode s) <$> visits tr.


(** How many times the visitor was handed a node with identifier [k]. *)
Definition times (k : string) (tr : list event) : nat :=
  length (filter (λ x, x = Some k) (visit_keys tr)).


(** The states popped from the front of the BFS queue. *)
Definition dequeues (tr : list event) : list (State Link) :=
  omap (λ ev, match ev with EvDequeue s => Some s | _ => None end) tr.


(** The nodes handed to the visitor, oldest first. *)
Definition visit_nodes (tr : list event) : list (Node Link) :=
  omap SNode (visits tr).


End Traces.

(** * Specifications *)

Section Specs.
Context {Link W E : Type}.

Abbreviation Node' := (Node Link).
Abbreviation State' := (State Link).
Abbreviation error' := (error E).
Abbreviation event' := (event Link E).
Abbreviation store' := (store Link W E).
Abbreviation Options' := (Options Link W E).
Abbreviation outcome' := (outcome Link W E).
Implicit Types (o : Options') (σ : store') (l : Link) (n : Node')
  (s : State') (tr : list event').

(** ** What one call of [getNode] can do *)

Inductive getNode_view o l σ : outcome' (option Node' * option error') → Prop :=
| gn_fatal r e w :
    DAG o l (world σ) = ((r, Some e), w) → ErrFunc o = None →
    getNode_view o l σ
      (Val (None, Some (Outside e))
           (mkStore (seen σ) w (trace σ ++ [EvFetch l (r, Some e)])))
| gn_recover r e w f r' w' :
    DAG o l (world σ) = ((r, Some e), w) → ErrFunc o = Some f →
    f (Outside e) w = (r', w') →
    getNode_view o l σ
      (Val (None, r')
           (mkStore (seen σ) w'
              ((trace σ ++ [EvFetch l (r, Some e)])
                 ++ [EvRecover (Outside e) r'])))
| gn_plain r w :
    DAG o l (world σ) = ((r, None), w) → SkipDuplicates o = false →
    getNode_view o l σ
      (Val (r, None) (mkStore (seen σ) w (trace σ ++ [EvFetch l (r, None)])))
| gn_nil w :
    DAG o l (world σ) = ((None, None), w) → SkipDuplicates o = true →
    getNode_view o l σ
      (Crash (mkStore (seen σ) w (trace σ ++ [EvFetch l (None, None)])))
| gn_dup n w :
    DAG o l (world σ) = ((Some n, None), w) → SkipDuplicates o = true →
    Cid n ∈ seen σ →
    getNode_view o l σ
      (Val (None, None)
           (mkStore (seen σ) w (trace σ ++ [EvFetch l (Some n, None)])))
| gn_new n w :
    DAG o l (world σ) = ((Some n, None), w) → SkipDuplicates o = true →
    Cid n ∉ seen σ →
    getNode_view o l σ
      (Val (Some n, None)
           (mkStore ({[Cid n]} ∪ seen σ) w
              ((trace σ ++ [EvFetch l (Some n, None)]) ++ [EvMark (Cid n)]))).

Inductive shouldSkip_view o (on : option Node') σ
  : outcome' (bool * option error') → Prop :=
| ss_off :
    SkipDuplicates o = false → shouldSkip_view o on σ (Val (false, None) σ)
| ss_nil :
    SkipDuplicates o = true → on = None → shouldSkip_view o on σ (Crash σ)
| ss_dup n :
    SkipDuplicates o = true → on = Some n → Cid n ∈ seen σ →
    shouldSkip_view o on σ (Val (true, None) σ)
| ss_new n :
    SkipDuplicates o = true → on = Some n → Cid n ∉ seen σ →
    shouldSkip_view o on σ
      (Val (false, None)
           (mkStore ({[Cid n]} ∪ seen σ) (world σ) (trace σ ++ [EvMark (Cid n)]))).

(** ** The first fatal event ends the run

    An event is fatal when the engine must stop on it: the visitor
    returned an error, the recovery function returned an error, a link
    failed to resolve with no recovery function installed, or the queue
    handed out the nil node. *)
Definition fatal o (ev : event') : option error' :=
  match ev with
  | EvVisit _ (Some e) => Some (Outside e)
  | EvRecover _ (Some e) => Some e
  | EvFetch _ (_, Some e) =>
      match ErrFunc o with None => Some (Outside e) | Some _ => None end
  | EvDequeue s =>
      match SNode s with None => Some errDequeue | Some _ => None end
  | _ => None
  end.

Definition clean o tr : Prop := Forall (λ ev, fatal o ev = None) tr.

(** [halts o err σ out]: the events [out] adds to the trace of [σ] hold at
    most one fatal event; when there is one it is the last event and [out]
    returns its error. *)
Definition halts {A} o (err : A → option error') σ (out : outcome' A) : Prop :=
  ∃ ext, trace (final out) = trace σ ++ ext ∧
    (clean o ext ∨
     ∃ ext' ev e, ext = ext' ++ [ev] ∧ clean o ext' ∧ fatal o ev = Some e ∧
       ∃ a σ', out = Val a σ' ∧ err a = Some e).

(** ** Comparing runs up to the calls of the recovery function *)

(** The recovery function [func(err error) error { return err }]. *)
Definition keep_error : error' → W → option error' * W := λ e w, (Some e, w).

Definition with_ErrFunc (f : option (error' → W → option error' * W)) o
  : Options' :=
  mkOptions (DAG o) (Order_ o) (Func o) f (SkipDuplicates o).

Definition is_recover (ev : event') : bool :=
  match ev with EvRecover _ _ => true | _ => false end.

(** The trace without the calls of the recovery function. *)
Definition observable tr : list event' :=
  filter (λ ev, is_recover ev = false) tr.

Definition same_store σ1 σ2 : Prop :=
  seen σ1 = seen σ2 ∧ world σ1 = world σ2 ∧
  observable (trace σ1) = observable (trace σ2).

(** Same kind of outcome, same returned value, same store. *)
Definition same_run {A} (out1 out2 : outcome' A) : Prop :=
  match out1, out2 with
  | Val a σ1, Val b σ2 => a = b ∧ same_store σ1 σ2
  | Crash σ1, Crash σ2 => same_store σ1 σ2
  | Fuel σ1, Fuel σ2 => same_store σ1 σ2
  | _, _ => False
  end.


(** ** Every visit is paid for by an insertion into [seen] *)

(** The [seen] set holds exactly the identifiers marked so far, each marked
    once. *)
Definition coherent σ : Prop :=
  seen σ = list_to_set (marks (trace σ)) ∧ NoDup (marks (trace σ)).

(** [licensed pend credit σ σ']: between [σ] and [σ'] the visits made, plus
    the nodes in [credit] still waiting for theirs, are covered one for one
    by the nodes in [pend] that were waiting at [σ] and the identifiers
    marked in between. *)
Definition licensed (pend credit : list (option string)) σ σ' : Prop :=
  (coherent σ → coherent σ') ∧
  ∃ ms vs,
    marks (trace σ') = marks (trace σ) ++ ms ∧
    visit_keys (trace σ') = visit_keys (trace σ) ++ vs ∧
    vs ++ credit ⊆+ pend ++ (Some <$> ms).

Definition key_of s : option string := Cid <$> SNode s.

(** An event that is neither a mark nor a visit changes nothing. *)
Definition quiet (ev : event') : Prop :=
  match ev with EvMark _ | EvVisit _ _ => False | _ => True end.


(** ** Options with another order *)

Definition with_Order (ord : Order) o : Options' :=
  mkOptions (DAG o) ord (Func o) (ErrFunc o) (SkipDuplicates o).

(** ** Finite graphs *)

(** Every node the getter hands out has its identifier in [U]. *)
Definition closed_in (U : gset string) o : Prop :=
  ∀ l (w w' : W) n e, DAG o l w = ((Some n, e), w') → Cid n ∈ U.

(** The getter returns a node or an error, never neither. *)
Definition answers o : Prop :=
  ∀ l (w w' : W), DAG o l w ≠ ((None, None), w').


(** [fewer U σ σ']: from [σ] to [σ'] the seen set took identifiers of [U]
    only, so no more identifiers of [U] are left unseen. *)
Definition fewer (U : gset string) σ σ' : Prop :=
  seen σ' ⊆ U ∪ seen σ ∧ (size (U ∖ seen σ') ≤ size (U ∖ seen σ))%nat.

(** ** The three orders, as the specification words them

    A graph without cycles in which every link resolves unfolds, below a
    node, into a finite tree: one subtree per link, in link order.  A node
    reachable along several paths occurs once per path. *)
Inductive tree : Type := T (n : Node') (kids : list tree).

Definition root_node (t : tree) : Node' := match t with T n _ => n end.
Definition subtrees (t : tree) : list tree := match t with T _ kids => kids end.

(** [resolves o t]: [t] is the unfolding of the graph the getter of [o]
    serves, below the root of [t]. *)
Inductive resolves o : tree → Prop :=
| resolves_T n kids :
    Forall2 (λ l k, (∀ w : W, (DAG o l w).1 = (Some (root_node k), None)) ∧
                    resolves o k) (Links n) kids →
    resolves o (T n kids).

(** Pre-order: a node, then the subtree of each child in link order. *)
Fixpoint preorder (t : tree) : list Node' :=
  match t with T n kids => n :: flat_map preorder kids end.

(** Post-order: the subtree of each child in link order, then the node. *)
Fixpoint postorder (t : tree) : list Node' :=
  match t with T n kids => flat_map postorder kids ++ [n] end.

(** The nodes at depth [d], left to right. *)
Fixpoint level (d : nat) (t : tree) : list Node' :=
  match d with
  | O => [root_node t]
  | S d' => flat_map (level d') (subtrees t)
  end.

Fixpoint height (t : tree) : nat :=
  match t with T _ kids => S (max_list (map height kids)) end.

Fixpoint nodes (t : tree) : nat :=
  match t with T _ kids => S (sum_list (map nodes kids)) end.

(** Breadth-first: all of depth 0, then all of depth 1, and so on. *)
Definition levelorder (t : tree) : list Node' :=
  flat_map (λ d, level d t) (seq 0 (height t)).

(** The queue entries for the roots of [ts], all at depth [d]. *)
Definition states (d : Z) (ts : list tree) : list State' :=
  (λ t, mkState (Some (root_node t)) d) <$> ts.


(** ** Where marks come from *)

(** Every mark in [tr] directly follows the fetch of a node with the marked
    identifier. *)
Definition marks_follow_fetch tr : Prop :=
  ∀ tr1 k tr2, tr = tr1 ++ EvMark k :: tr2 →
    ∃ tr0 l n, tr1 = tr0 ++ [EvFetch l (Some n, None)] ∧ Cid n = k.

(** ** The invariant as the specification states it *)

(** Once [k] has been inserted into the seen set, no later step fetches a
    node with identifier [k] through a link or hands one to the visitor. *)
Definition never_again tr : Prop :=
  ∀ tr1 k tr2, tr = tr1 ++ EvMark k :: tr2 →
    (∀ l n e, EvFetch l (Some n, e) ∈ tr2 → Cid n ≠ k) ∧
    (∀ s r n, EvVisit s r ∈ tr2 → SNode s = Some n → Cid n ≠ k).


(** ** Where visits and recovery calls come from *)

(** [s] may be handed to the visitor after [tr]: it is the root at depth 0,
    or its node was returned by the node getter, with a nil error, within
    [tr]. *)
Definition authorised (root : option Node') s tr : Prop :=
  s = mkState root 0 ∨
  ∃ l n, SNode s = Some n ∧ EvFetch l (Some n, None) ∈ tr.

(** Every visit in [tr] is authorised by what came before it. *)
Definition visits_authorised (root : option Node') tr : Prop :=
  ∀ tr1 s r tr2, tr = tr1 ++ EvVisit s r :: tr2 → authorised root s tr1.

(** The recovery function is called right after a failed fetch, on the
    error of that fetch, and at no other time; when one is installed no
    failed fetch goes without its call. *)
Definition recovery_follows_failure o tr : Prop :=
  (∀ tr1 e r tr2, tr = tr1 ++ EvRecover e r :: tr2 →
     ErrFunc o ≠ None ∧
     ∃ tr0 l rn e0, tr1 = tr0 ++ [EvFetch l (rn, Some e0)] ∧ e = Outside e0) ∧
  (ErrFunc o ≠ None →
   ∀ tr1 l rn e0 tr2, tr = tr1 ++ EvFetch l (rn, Some e0) :: tr2 →
     ∃ r tr2', tr2 = EvRecover (Outside e0) r :: tr2').

(** [σ'] continues [σ]: its trace is the trace of [σ] with more events. *)
Definition continues σ σ' : Prop := ∃ ext, trace σ' = trace σ ++ ext.

(** ** The BFS queue holds at most two adjacent depths *)

Definition two_level (d : Z) (q : list State') : Prop :=
  ∃ q1 q2, q = q1 ++ q2 ∧
    Forall (λ s, Depth s = d) q1 ∧ Forall (λ s, Depth s = d + 1) q2.

(** ** Marks and visits on success *)

(** [settled pend credit σ σ']: as [licensed], with nothing left over: the
    visits made plus the nodes still waiting are exactly the nodes that
    were waiting plus the identifiers marked. *)
Definition settled (pend credit : list (option string)) σ σ' : Prop :=
  ∃ ms vs,
    marks (trace σ') = marks (trace σ) ++ ms ∧
    visit_keys (trace σ') = visit_keys (trace σ) ++ vs ∧
    vs ++ credit ≡ₚ pend ++ (Some <$> ms).


(** ** Outcomes *)

(** The run did not end in a run-time panic. *)
Definition no_panic {A} (out : outcome' A) : Prop :=
  match out with Crash _ => False | _ => True end.

(** [P] holds of the final store when the run returned a nil error. *)
Definition on_success (P : store' → Prop) (out : outcome' (option error'))
  : Prop :=
  match out with Val None σ' => P σ' | _ => True end.


(** ** Sequences of depths *)

Definition nondecreasing (ds : list Z) : Prop :=
  ∀ (i j : nat) x y, (i ≤ j)%nat → ds !! i = Some x → ds !! j = Some y → x ≤ y.


(** ** Where a returned error comes from *)

(** [caused o err out]: when [out] returns an error, the last event of its
    trace is a fatal event, and the error returned is the error of that
    event. *)
Definition caused {A} o (err : A → option error') (out : outcome' A) : Prop :=
  ∀ a σ' e, out = Val a σ' → err a = Some e →
    ∃ tr ev, trace σ' = tr ++ [ev] ∧ fatal o ev = Some e.


(** ** Which links are resolved *)

(** [resolved pend credit σ σ']: between [σ] and [σ'] the links resolved,
    plus the links in [credit] still to resolve, are the links in [pend]
    that were to resolve plus the links of the nodes visited. *)
Definition resolved (pend credit : list Link) σ σ' : Prop :=
  ∃ fs vs,
    fetches (trace σ') = fetches (trace σ) ++ fs ∧
    visit_nodes (trace σ') = visit_nodes (trace σ) ++ vs ∧
    fs ++ credit ≡ₚ pend ++ flat_map Links vs.

Definition links_of s : list Link :=
  match SNode s with Some n => Links n | None => [] end.


End Specs.

Arguments tree : clear implicits.

(** ** A concrete world

    Links are the identifier of their target, the node getter is a table,
    errors are strings and the world counts the visitor's calls. *)
Module Concrete.

Definition graph := list (string * list string).

Fixpoint lookup_node (g : graph) (k : string) : option (Node string) :=
  match g with
  | [] => None
  | (k', ls) :: g' =>
      if decide (k = k') then Some (mkNode k ls) else lookup_node g' k
  end.

Definition table (g : graph) (l : string) (w : nat)
  : (option (Node string) * option string) * nat :=
  match lookup_node g l with
  | Some n => ((Some n, None), w)
  | None => ((None, Some ("not found: " +:+ l)), w)
  end.

(** A visitor that counts its calls and never fails. *)
Definition count_visitor (s : State string) (w : nat) : option string * nat :=
  (None, S w).

(** A visitor that fails on its [k]-th call. *)
Definition failing_visitor (k : nat) (s : State string) (w : nat)
  : option string * nat :=
  (if decide (S w = k) then Some "stop" else None, S w).

Definition opts (g : graph) (ord : Order) (skip : bool)
  : Options string nat string :=
  mkOptions (table g) ord count_visitor None skip.

Definition root_of (g : graph) (k : string) : option (Node string) :=
  lookup_node g k.

(** The graph of the specification's example: R links to A then B, A
    links to C. *)
Definition diamondless : graph :=
  [("R", ["A"; "B"]); ("A", ["C"]); ("B", []); ("C", [])].

(** R links to X twice. *)
Definition twice : graph := [("R", ["X"; "X"]); ("X", [])].

(** A cycle through the root: R links to A, A links back to R. *)
Definition cycle : graph := [("R", ["A"]); ("A", ["R"])].

(** R links to A; A links back to R twice. *)
Definition back_to_root : graph := [("R", ["A"]); ("A", ["R"; "R"])].

(** R links to A, to X and to B; no node has identifier X. *)
Definition broken : graph := [("R", ["A"; "X"; "B"]); ("A", []); ("B", [])].

(** A recovery function that skips every failure. *)
Definition skip_errors (e : error string) (w : nat)
  : option (error string) * nat := (None, w).

(** A recovery function that turns every failure into its own error. *)
Definition escalate (e : error string) (w : nat)
  : option (error string) * nat := (Some (Outside "escalated"), w).

Definition nR : Node string := mkNode "R" ["A"; "B"].
Definition nA : Node string := mkNode "A" ["C"].
Definition nB : Node string := mkNode "B" [].
Definition nC : Node string := mkNode "C" [].

(** The unfolding of [diamondless] below R. *)
Definition diamondless_tree : tree string :=
  T nR [T nA [T nC []]; T nB []].


(** The options of [opts] with a visitor that fails on its [k]-th call. *)
Definition opts_failing (g : graph) (ord : Order) (k : nat)
  : Options string nat string :=
  mkOptions (table g) ord (failing_visitor k) None false.

(** The options of [opts] with the recovery function [f] installed. *)
Definition opts_recovering (g : graph) (ord : Order)
    (f : error string → nat → option (error string) * nat)
  : Options string nat string :=
  mkOptions (table g) ord count_visitor (Some f) false.


End Concrete.

(** * Gateway errors (gateway/errors.go)

    The error values of the gateway and the part of [webError] that decides
    the response: the [Retry-After] header, the status code and the text.

    Go's [error] is an open interface.  Here an error value is one of the
    two types of this package or a value of a type from elsewhere, of which
    the model keeps what this file looks at: the dynamic type as far as
    [webError] and [isErrNotFound] tell types apart, the text of [Error()]
    and what [Unwrap() error] returns.  Types from elsewhere with an [As]
    method or with [Unwrap() []error] are left out.  [errors.As],
    [errors.Is] and [errors.Unwrap] are those of the Go standard library:
    a walk down the [Unwrap] chain. *)
Module Gateway.

(** The types from elsewhere that the file tells apart: [cid.ErrInvalidCid],
    [ipld.ErrNotFound], [resolver.ErrNoLink], [datamodel.ErrWrongKind],
    [datamodel.ErrNotExists], the value [context.DeadlineExceeded], and any
    other type. *)
Inductive foreign : Type :=
| InvalidCid | IpldNotFound | NoLink | WrongKind | NotExists
| DeadlineExceeded | Plain.

Global Instance foreign_eq_dec : EqDecision foreign.
Proof. solve_decision. Defined.

(** [RetryAfterE err d] is [&ErrorRetryAfter{Err: err, RetryAfter: d}], [d]
    a [time.Duration] (nanoseconds, int64); [ResponseE code err] is
    [&ErrorResponse{StatusCode: code, Err: err}]; [None] is the nil
    error. *)
Inductive error : Type :=
| RetryAfterE (Err : option error) (RetryAfter : Z)
| ResponseE (StatusCode : Z) (Err : option error)
| Other (k : foreign) (text : string) (inner : option error).

(** Status codes of [net/http]. *)
Definition StatusBadRequest : Z := 400.
Definition StatusNotFound : Z := 404.
Definition StatusTooManyRequests : Z := 429.
Definition StatusInternalServerError : Z := 500.
Definition StatusBadGateway : Z := 502.
Definition StatusServiceUnavailable : Z := 503.
Definition StatusGatewayTimeout : Z := 504.

(** [time.Second]. *)
Definition Second : Z := 1000000000.

(** [errors.Unwrap]; the methods [Unwrap] of the two types return [Err]. *)
Definition Unwrap (e : error) : option error :=
  match e with
  | RetryAfterE err _ => err
  | ResponseE _ err => err
  | Other _ _ inner => inner
  end.

(** The errors from [e] down the [Unwrap] chain, [e] first. *)
Fixpoint chain (e : error) : list error :=
  e :: match e with
       | RetryAfterE (Some e') _ | ResponseE _ (Some e')
       | Other _ _ (Some e') => chain e'
       | _ => []
       end.

Definition chain_of (err : option error) : list error :=
  match err with Some e => chain e | None => [] end.

(** The methods [Is]: a type switch on the target. *)
Definition ErrorRetryAfter_Is (target : error) : bool :=
  match target with RetryAfterE _ _ => true | _ => false end.

Definition ErrorResponse_Is (target : error) : bool :=
  match target with ResponseE _ _ => true | _ => false end.

(** [errors.As(err, &era)] for [era *ErrorRetryAfter]: the first
    [*ErrorRetryAfter] down the chain, as its two fields. *)
Fixpoint As_ErrorRetryAfter (e : error) : option (option error * Z) :=
  match e with
  | RetryAfterE err d => Some (err, d)
  | ResponseE _ (Some e') | Other _ _ (Some e') => As_ErrorRetryAfter e'
  | _ => None
  end.

(** [errors.As(err, &gwErr)] for [gwErr *ErrorResponse]: the status code
    of the first [*ErrorResponse] down the chain. *)
Fixpoint As_ErrorResponse (e : error) : option Z :=
  match e with
  | ResponseE code _ => Some code
  | RetryAfterE (Some e') _ | Other _ _ (Some e') => As_ErrorResponse e'
  | _ => None
  end.

(** [errors.Is(err, target)] for a target of the foreign type [k] that no
    error is identical to or that every error of type [k] answers to:
    [&cid.ErrInvalidCid{}], [ipld.ErrNotFound{}] (this is
    [ipld.IsNotFound]) and [context.DeadlineExceeded]. *)
Fixpoint Is_foreign (k : foreign) (e : error) : bool :=
  match e with
  | Other k' _ inner =>
      bool_decide (k' = k)
      || match inner with Some e' => Is_foreign k e' | None => false end
  | RetryAfterE (Some e') _ | ResponseE _ (Some e') => Is_foreign k e'
  | _ => false
  end.

(** [errors.Is(err, target)] for a non-nil target, [same] telling whether
    two error values are identical: an error of the chain is the target or
    its method [Is] answers to it.  Of the foreign types, [cid.ErrInvalidCid]
    and [ipld.ErrNotFound] have a method [Is], which answers to targets of
    their own type. *)
Definition answers_to (same : error → error → bool) (e target : error)
  : bool :=
  same e target
  || match e with
     | RetryAfterE _ _ => ErrorRetryAfter_Is target
     | ResponseE _ _ => ErrorResponse_Is target
     | Other k _ _ =>
         match target with
         | Other k' _ _ =>
             bool_decide (k = k')
             && (bool_decide (k = InvalidCid) || bool_decide (k = IpldNotFound))
         | _ => false
         end
     end.

Definition errors_Is (same : error → error → bool) (err : option error)
    (target : error) : bool :=
  existsb (λ e, answers_to same e target) (chain_of err).

(** The loop of [isErrNotFound]: a type assertion on each error down the
    chain. *)
Fixpoint isErrNotFound_loop (e : error) : bool :=
  match e with
  | Other k _ inner =>
      if bool_decide (k = NoLink) then true
      else if bool_decide (k = WrongKind) then true
      else if bool_decide (k = NotExists) then true
      else match inner with Some e' => isErrNotFound_loop e' | None => false end
  | RetryAfterE (Some e') _ | ResponseE _ (Some e') => isErrNotFound_loop e'
  | _ => false
  end.

Definition isErrNotFound (err : option error) : bool :=
  match err with
  | None => false
  | Some e => if Is_foreign IpldNotFound e then true else isErrNotFound_loop e
  end.

(** What [webError] writes: the [Retry-After] header if it sets one,
    whether the body is the HTML page, the status code, and the text of the
    error shown. *)
Record response : Type := mkResponse {
  RetryAfterHeader : option string;
  HTML : bool;
  Code : Z;
  ErrorText : string
}.

Section WithLibraries.

(** [http.StatusText], [time.Duration.Round], [time.Duration.String],
    [int(d.Seconds())] and [strconv.Itoa]. *)
Variable StatusText : Z → string.
Variable Round : Z → Z → Z.
Variable String : Z → string.
Variable Seconds : Z → Z.
Variable Itoa : Z → string.

Definition NewErrorResponse (err : option error) (statusCode : Z) : error :=
  ResponseE statusCode err.

Definition NewErrorResponseForCode (statusCode : Z) : error :=
  NewErrorResponse (Some (Other Plain (StatusText statusCode) None)) statusCode.

Definition ErrInternalServerError : error :=
  NewErrorResponseForCode StatusInternalServerError.
Definition ErrGatewayTimeout : error :=
  NewErrorResponseForCode StatusGatewayTimeout.
Definition ErrBadGateway : error :=
  NewErrorResponseForCode StatusBadGateway.
Definition ErrServiceUnavailable : error :=
  NewErrorResponseForCode StatusServiceUnavailable.
Definition ErrTooManyRequests : error :=
  NewErrorResponseForCode StatusTooManyRequests.

Definition NewErrorRetryAfter (err : option error) (retryAfter : Z) : error :=
  let err := match err with None => Some ErrServiceUnavailable | _ => err end in
  let retryAfter := if retryAfter <? 0 then 0 else retryAfter in
  RetryAfterE err retryAfter.

Definition RoundSeconds (retryAfter : Z) : Z := Round retryAfter Second.

Definition Humanized (retryAfter : Z) : string := String (RoundSeconds retryAfter).

Definition HTTPHeaderValue (retryAfter : Z) : string :=
  Itoa (Seconds (RoundSeconds retryAfter)).

(** The methods [Error] of the two types, and the text of a foreign
    error. *)
Fixpoint Error (e : error) : string :=
  match e with
  | RetryAfterE err d =>
      let text := match err with Some e' => Error e' | None => "" end in
      if bool_decide (d ≠ 0) then text +:+ ", retry after " +:+ Humanized d
      else text
  | ResponseE _ err => match err with Some e' => Error e' | None => "" end
  | Other _ text _ => text
  end.

(** [webError]: [acceptsHTML] is whether the request's [Accept] header
    contains [text/html]; [None] is the run-time panic of [err.Error()] on
    the nil error. *)
Definition webError (acceptsHTML : bool) (err : option error)
    (defaultCode : Z) : option response :=
  let code := defaultCode in
  let '(header, code, err) :=
    match err ≫= As_ErrorRetryAfter with
    | Some (eerr, d) =>
        if 0 <? d then
          (Some (HTTPHeaderValue d),
           if bool_decide (code ≠ StatusTooManyRequests)
              && bool_decide (code ≠ StatusServiceUnavailable)
           then StatusTooManyRequests else code,
           eerr)
        else (None, code, eerr)
    | None => (None, code, err)
    end in
  let code :=
    if default false (Is_foreign InvalidCid <$> err) then StatusBadRequest
    else if isErrNotFound err then StatusNotFound
    else if default false (Is_foreign DeadlineExceeded <$> err)
         then StatusGatewayTimeout
    else code in
  let code :=
    match err ≫= As_ErrorResponse with
    | Some c => c
    | None => code
    end in
  match err with
  | None => None
  | Some e => Some (mkResponse header acceptsHTML code (Error e))
  end.

End WithLibraries.

End Gateway.

(** * Properties *)

Section Facts.
Context {Link W E : Type}.
Abbreviation Node' := (Node Link).
Abbreviation State' := (State Link).
Abbreviation error' := (error E).
Abbreviation event' := (event Link E).
Abbreviation store' := (store Link W E).
Abbreviation Options' := (Options Link W E).
Abbreviation outcome' := (outcome Link W E).
Abbreviation tree' := (tree Link).
Implicit Types (o : Options') (σ : store') (l : Link) (n : Node')
  (s : State') (tr : list event').


Lemma getNode_cases o l σ : getNode_view o l σ (getNode o l σ).
Proof.
  unfold getNode, getNode_inner, bind, fetch, shouldSkip, recover, ret, panic,
    emit, set_world, set_seen.
  destruct (DAG o l (world σ)) as [[r [e|]] w] eqn:Hdag; simpl.
  - destruct (ErrFunc o) as [f|] eqn:Hf; simpl.
    + destruct (f (Outside e) w) as [r' w'] eqn:Hr. by eapply gn_recover.
    + by eapply gn_fatal.
  - destruct (SkipDuplicates o) eqn:Hs; simpl.
    + destruct r as [n|]; simpl.
      * destruct (decide (Cid n ∈ seen σ)) as [Hin|Hin]; simpl.
        -- destruct (ErrFunc o); by eapply gn_dup.
        -- destruct (ErrFunc o); by eapply gn_new.
      * by eapply gn_nil.
    + destruct (ErrFunc o); by eapply gn_plain.
Qed.

Lemma callFunc_eq o s σ :
  ∃ r w, Func o s (world σ) = (r, w) ∧
    callFunc o s σ
    = Val (Outside <$> r) (mkStore (seen σ) w (trace σ ++ [EvVisit s r])).
Proof.
  unfold callFunc, emit, set_world.
  destruct (Func o s (world σ)) as [r w]. by exists r, w.
Qed.


Lemma halts_silent {A} o (err : A → option error') σ out :
  trace (final out) = trace σ → halts o err σ out.
Proof.
  intros Htr. exists []. rewrite app_nil_r. split; [done|]. left. constructor.
Qed.

Lemma halts_bind {A B} o (ea : A → option error') (eb : B → option error')
    (m : M Link W E A) (f : A → M Link W E B) σ :
  halts o ea σ (m σ) →
  (∀ a σ', m σ = Val a σ' →
     match ea a with
     | Some e => ∃ b, f a σ' = Val b σ' ∧ eb b = Some e
     | None => halts o eb σ' (f a σ')
     end) →
  halts o eb σ (bind m f σ).
Proof.
  intros (ext & Htr & Hm) Hf. unfold bind.
  destruct (m σ) as [a σ1|σ1|σ1] eqn:Hmσ; simpl in *.
  - specialize (Hf a σ1 eq_refl).
    destruct Hm as [Hclean|(ext' & ev & e & -> & Hclean & Hev & a' & σ' & Heq & Hea)].
    + destruct (ea a) as [e|].
      * destruct Hf as (b & -> & Hb). exists ext. split; [done|]. by left.
      * destruct Hf as (ext2 & Htr2 & Hf). exists (ext ++ ext2).
        split; [by rewrite Htr2, Htr, app_assoc|].
        destruct Hf as [Hc2|(ext2' & ev & e & -> & Hc2 & Hev & Hout)].
        -- left. by apply Forall_app.
        -- right. exists (ext ++ ext2'), ev, e.
           split; [by rewrite app_assoc|]. split; [by apply Forall_app|]. done.
    + injection Heq as -> ->. rewrite Hea in Hf. destruct Hf as (b & -> & Hb).
      exists (ext' ++ [ev]). split; [done|]. right.
      exists ext', ev, e. repeat split; try done. eauto.
  - exists ext. split; [done|].
    destruct Hm as [?|(? & ? & ? & ? & ? & ? & ? & ? & ? & ?)]; [by left|done].
  - exists ext. split; [done|].
    destruct Hm as [?|(? & ? & ? & ? & ? & ? & ? & ? & ? & ?)]; [by left|done].
Qed.

Lemma halts_one {A} o (err : A → option error') σ ev a w sn :
  fatal o ev = err a →
  halts o err σ (Val a (mkStore sn w (trace σ ++ [ev]))).
Proof.
  intros Hev. exists [ev]. split; [done|].
  destruct (fatal o ev) as [e|] eqn:Hf.
  - right. exists [], ev, e. split; [done|]. split; [constructor|].
    split; [done|]. eexists _, _. split; [done|]. congruence.
  - left. by constructor.
Qed.

Lemma getNode_halts o l σ : halts o snd σ (getNode o l σ).
Proof.
  destruct (getNode_cases o l σ) as
    [r e w Hd Hf|r e w f r' w' Hd Hf Hr|r w Hd Hs|w Hd Hs|n w Hd Hs Hin
    |n w Hd Hs Hin].
  - apply halts_one. simpl. by rewrite Hf.
  - exists [EvFetch l (r, Some e); EvRecover (Outside e) r'].
    split; [by rewrite <- app_assoc|]. destruct r' as [e'|].
    + right. exists [EvFetch l (r, Some e)], (EvRecover (Outside e) (Some e')), e'.
      repeat split; try done; [|eauto].
      constructor; [|done]. simpl. by rewrite Hf.
    + left. repeat constructor. simpl. by rewrite Hf.
  - by apply halts_one.
  - exists [EvFetch l (None, None)]. split; [done|]. left. by repeat constructor.
  - by apply halts_one.
  - exists [EvFetch l (Some n, None); EvMark (Cid n)].
    split; [by rewrite <- app_assoc|]. left. by repeat constructor.
Qed.

Lemma callFunc_halts o s σ : halts o id σ (callFunc o s σ).
Proof.
  destruct (callFunc_eq o s σ) as (r & w & _ & ->).
  apply halts_one. by destruct r.
Qed.


Lemma shouldSkip_cases o on σ : shouldSkip_view o on σ (shouldSkip o on σ).
Proof.
  unfold shouldSkip, ret, panic, emit, set_seen.
  destruct (SkipDuplicates o) eqn:Hs; [|by constructor].
  destruct on as [n|]; [|by constructor].
  destruct (decide (Cid n ∈ seen σ)); simpl; [by eapply ss_dup|by eapply ss_new].
Qed.

Lemma shouldSkip_halts o on σ : halts o snd σ (shouldSkip o on σ).
Proof.
  destruct (shouldSkip_cases o on σ); try by apply halts_silent.
  by apply halts_one.
Qed.

Lemma ret_halts {A} o (err : A → option error') (a : A) σ :
  halts o err σ (ret a σ).
Proof. by apply halts_silent. Qed.

Lemma dfsDescend_links_halts o df d ls :
  (∀ s σ, halts o id σ (df s σ)) →
  ∀ σ, halts o id σ (dfsDescend_links o df d ls σ).
Proof.
  intros Hdf. induction ls as [|l ls IH]; intros σ; simpl.
  - apply ret_halts.
  - apply (halts_bind o snd); [apply getNode_halts|].
    intros [node [e|]] σ1 _; simpl; [by eexists|].
    destruct node as [n|]; [|apply IH].
    apply (halts_bind o id); [apply Hdf|].
    intros [e|] σ2 _; simpl; [by eexists|apply IH].
Qed.

Lemma dfsDescend_halts o df s :
  (∀ s σ, halts o id σ (df s σ)) → ∀ σ, halts o id σ (dfsDescend o df s σ).
Proof.
  intros Hdf σ. unfold dfsDescend. destruct (SNode s).
  - by apply dfsDescend_links_halts.
  - by apply halts_silent.
Qed.

Lemma dfsPreTraverse_halts o fuel :
  ∀ s σ, halts o id σ (dfsPreTraverse o fuel s σ).
Proof.
  induction fuel as [|fuel IH]; intros s σ; simpl.
  - by apply halts_silent.
  - apply (halts_bind o id); [apply callFunc_halts|].
    intros [e|] σ1 _; simpl; [by eexists|]. by apply dfsDescend_halts.
Qed.

Lemma dfsPostTraverse_halts o fuel :
  ∀ s σ, halts o id σ (dfsPostTraverse o fuel s σ).
Proof.
  induction fuel as [|fuel IH]; intros s σ; simpl.
  - by apply halts_silent.
  - apply (halts_bind o id); [by apply dfsDescend_halts|].
    intros [e|] σ1 _; simpl; [by eexists|]. apply callFunc_halts.
Qed.

Lemma bfs_links_halts o d ls :
  ∀ q σ, halts o snd σ (bfs_links o d ls q σ).
Proof.
  induction ls as [|l ls IH]; intros q σ; simpl.
  - apply ret_halts.
  - apply (halts_bind o snd); [apply getNode_halts|].
    intros [node [e|]] σ1 _; simpl; [by eexists|].
    destruct node; apply IH.
Qed.

Lemma bfs_loop_halts o fuel :
  ∀ q σ, halts o id σ (bfs_loop o fuel q σ).
Proof.
  induction fuel as [|fuel IH]; intros [|curr q] σ; simpl;
    try by apply halts_silent.
  apply (halts_bind o
           (λ _, match SNode curr with None => Some errDequeue | _ => None end)).
  { unfold emit. by apply halts_one. }
  intros [] σ1 _. destruct (SNode curr) as [n|]; [|by eexists].
  apply (halts_bind o id); [apply callFunc_halts|].
  intros [e|] σ2 _; simpl; [by eexists|].
  apply (halts_bind o snd); [apply bfs_links_halts|].
  intros [q' [e|]] σ3 _; simpl; [by eexists|]. apply IH.
Qed.

Lemma bfsTraverse_halts o fuel s σ : halts o id σ (bfsTraverse o fuel s σ).
Proof.
  apply (halts_bind o snd); [apply shouldSkip_halts|].
  intros [skip [e|]] σ1 _; simpl.
  - rewrite orb_true_r. by eexists.
  - rewrite orb_false_r. destruct skip; [apply ret_halts|apply bfs_loop_halts].
Qed.

Lemma Traverse_halts fuel (root : option Node') o (w : W) :
  halts o id (init w) (Traverse fuel root o w).
Proof.
  unfold Traverse. repeat case_decide;
    auto using dfsPreTraverse_halts, dfsPostTraverse_halts, bfsTraverse_halts.
Qed.

Lemma clean_calls o tr : clean o tr → Forall (λ c, c.2 = None) (calls tr).
Proof.
  induction 1 as [|ev tr Hev _ IH]; [constructor|].
  destruct ev as [| | | |s [e|]]; simpl in *; try done. by constructor.
Qed.

(** A fatal event anywhere in the trace of a traversal is its last event,
    and the traversal returns the error of that event. *)
Lemma Traverse_fatal_last fuel (root : option Node') o (w : W) ev e :
  ev ∈ trace (final (Traverse fuel root o w)) → fatal o ev = Some e →
  ∃ tr' σ, trace (final (Traverse fuel root o w)) = tr' ++ [ev] ∧
    clean o tr' ∧ Traverse fuel root o w = Val (Some e) σ.
Proof.
  intros Hin Hev.
  destruct (Traverse_halts fuel root o w) as (ext & Htr & Hcases).
  simpl in Htr. rewrite Htr in *.
  destruct Hcases as [Hc|(ext' & ev0 & e0 & -> & Hc & Hev0 & a & σ' & Hout & Ha)].
  - unfold clean in Hc. rewrite Forall_forall in Hc.
    specialize (Hc _ Hin). congruence.
  - apply elem_of_app in Hin as [Hin|Hin].
    + unfold clean in Hc. rewrite Forall_forall in Hc.
      specialize (Hc _ Hin). congruence.
    + apply list_elem_of_singleton in Hin as ->. simpl in Ha.
      exists ext', σ'. repeat split; try done. congruence.
Qed.

(** C4. If the visitor returns a non-nil error on the (i+1)-th node it is
    given, [Traverse] has called the visitor exactly i+1 times and returns
    that very error. *)
Theorem visitor_error_stops_traversal fuel (root : option Node') o (w : W)
    i s e :
  calls (trace (final (Traverse fuel root o w))) !! i = Some (s, Some e) →
  length (calls (trace (final (Traverse fuel root o w)))) = S i ∧
  ∃ σ, Traverse fuel root o w = Val (Some (Outside e)) σ.
Proof.
  intros Hi.
  assert (Hin : EvVisit s (Some e) ∈ trace (final (Traverse fuel root o w))).
  { apply list_elem_of_lookup_2 in Hi. unfold calls in Hi.
    apply list_elem_of_omap in Hi as (ev & Hev & Hf).
    destruct ev; simplify_eq. done. }
  destruct (Traverse_fatal_last fuel root o w _ (Outside e) Hin eq_refl)
    as (tr' & σ & Htr & Hc & Hout).
  split; [|by exists σ].
  rewrite Htr in Hi |- *. unfold calls in *. rewrite omap_app in *. simpl in *.
  rewrite length_app. simpl.
  apply lookup_app_Some in Hi as [Hi|[Hle Hi]].
  - apply clean_calls in Hc. unfold calls in Hc.
    rewrite Forall_lookup in Hc. specialize (Hc _ _ Hi). done.
  - apply list_lookup_singleton_Some in Hi as [Hi _]. lia.
Qed.


(** ** A nil recovery function is the identity recovery function *)

Lemma same_store_emit σ1 σ2 ev (w : W) (sn : gset string) :
  same_store σ1 σ2 →
  same_store (mkStore sn w (trace σ1 ++ [ev])) (mkStore sn w (trace σ2 ++ [ev])).
Proof.
  intros (_ & _ & Htr). repeat split. simpl. unfold observable in *.
  by rewrite !filter_app, Htr.
Qed.

Lemma same_store_recover σ1 σ2 e r :
  same_store σ1 σ2 →
  same_store σ1 (mkStore (seen σ2) (world σ2) (trace σ2 ++ [EvRecover e r])).
Proof.
  intros (Hs & Hw & Htr). repeat split; try done. simpl. unfold observable in *.
  rewrite filter_app, Htr. simpl. by rewrite app_nil_r.
Qed.

Lemma same_run_bind {A B} (m1 m2 : M Link W E A) (f1 f2 : A → M Link W E B)
    σ1 σ2 :
  same_run (m1 σ1) (m2 σ2) →
  (∀ a σ1' σ2', same_store σ1' σ2' → same_run (f1 a σ1') (f2 a σ2')) →
  same_run (bind m1 f1 σ1) (bind m2 f2 σ2).
Proof.
  intros Hm Hf. unfold bind.
  destruct (m1 σ1), (m2 σ2); simpl in *; try done.
  destruct Hm as [-> Hσ]. by apply Hf.
Qed.

Section Identity.
Variable o : Options'.
Hypothesis no_ErrFunc : ErrFunc o = None.
Let o' := with_ErrFunc (Some keep_error) o.

Lemma getNode_identity l σ1 σ2 :
  same_store σ1 σ2 → same_run (getNode o l σ1) (getNode o' l σ2).
Proof.
  intros Hσ. pose proof Hσ as (Hs & Hw & Htr).
  unfold getNode, getNode_inner, bind, fetch, shouldSkip, recover, ret, panic,
    emit, set_world, set_seen. simpl. rewrite no_ErrFunc, <- Hw.
  destruct (DAG o l (world σ1)) as [[r [e|]] w]; simpl.
  - split; [done|].
    apply (same_store_recover
             (mkStore (seen σ1) w (trace σ1 ++ [EvFetch l (r, Some e)]))
             (mkStore (seen σ2) w (trace σ2 ++ [EvFetch l (r, Some e)]))).
    rewrite <- Hs. by apply same_store_emit.
  - destruct (SkipDuplicates o); simpl.
    + destruct r as [n|]; simpl.
      * rewrite <- Hs. destruct (decide (Cid n ∈ seen σ1)); simpl.
        -- split; [done|]. by apply same_store_emit.
        -- split; [done|].
           apply (same_store_emit
             (mkStore (seen σ1) w (trace σ1 ++ [EvFetch l (Some n, None)]))
             (mkStore (seen σ1) w (trace σ2 ++ [EvFetch l (Some n, None)]))).
           by apply same_store_emit.
      * rewrite <- Hs. by apply same_store_emit.
    + split; [done|]. rewrite <- Hs. by apply same_store_emit.
Qed.

Lemma callFunc_identity s σ1 σ2 :
  same_store σ1 σ2 → same_run (callFunc o s σ1) (callFunc o' s σ2).
Proof.
  intros Hσ. pose proof Hσ as (Hs & Hw & Htr).
  unfold callFunc, emit, set_world. simpl. rewrite <- Hw.
  destruct (Func o s (world σ1)) as [r w]. simpl.
  split; [done|]. rewrite <- Hs. by apply same_store_emit.
Qed.

Lemma shouldSkip_identity on σ1 σ2 :
  same_store σ1 σ2 → same_run (shouldSkip o on σ1) (shouldSkip o' on σ2).
Proof.
  intros Hσ. pose proof Hσ as (Hs & Hw & Htr).
  unfold shouldSkip, ret, panic, emit, set_seen. simpl.
  destruct (SkipDuplicates o); [|done].
  destruct on as [n|]; [|done]. rewrite <- Hs, <- Hw.
  destruct (decide (Cid n ∈ seen σ1)); simpl; [done|].
  split; [done|]. by apply same_store_emit.
Qed.

Lemma dfsDescend_links_identity df1 df2 d ls :
  (∀ s σ1 σ2, same_store σ1 σ2 → same_run (df1 s σ1) (df2 s σ2)) →
  ∀ σ1 σ2, same_store σ1 σ2 →
    same_run (dfsDescend_links o df1 d ls σ1) (dfsDescend_links o' df2 d ls σ2).
Proof.
  intros Hdf. induction ls as [|l ls IH]; intros σ1 σ2 Hσ; simpl; [done|].
  apply same_run_bind; [by apply getNode_identity|].
  intros [node [e|]] σ1' σ2' Hσ'; [done|].
  destruct node as [n|]; [|by apply IH].
  apply same_run_bind; [by apply Hdf|].
  intros [e|] σ1'' σ2'' Hσ''; [done|by apply IH].
Qed.

Lemma dfsDescend_identity df1 df2 s :
  (∀ s σ1 σ2, same_store σ1 σ2 → same_run (df1 s σ1) (df2 s σ2)) →
  ∀ σ1 σ2, same_store σ1 σ2 →
    same_run (dfsDescend o df1 s σ1) (dfsDescend o' df2 s σ2).
Proof.
  intros Hdf σ1 σ2 Hσ. unfold dfsDescend.
  destruct (SNode s); [by apply dfsDescend_links_identity|done].
Qed.

Lemma dfsPreTraverse_identity fuel :
  ∀ s σ1 σ2, same_store σ1 σ2 →
    same_run (dfsPreTraverse o fuel s σ1) (dfsPreTraverse o' fuel s σ2).
Proof.
  induction fuel as [|fuel IH]; intros s σ1 σ2 Hσ; simpl; [done|].
  apply same_run_bind; [by apply callFunc_identity|].
  intros [e|] σ1' σ2' Hσ'; [done|]. by apply dfsDescend_identity.
Qed.

Lemma dfsPostTraverse_identity fuel :
  ∀ s σ1 σ2, same_store σ1 σ2 →
    same_run (dfsPostTraverse o fuel s σ1) (dfsPostTraverse o' fuel s σ2).
Proof.
  induction fuel as [|fuel IH]; intros s σ1 σ2 Hσ; simpl; [done|].
  apply same_run_bind; [by apply dfsDescend_identity|].
  intros [e|] σ1' σ2' Hσ'; [done|]. by apply callFunc_identity.
Qed.

Lemma bfs_links_identity d ls :
  ∀ q σ1 σ2, same_store σ1 σ2 →
    same_run (bfs_links o d ls q σ1) (bfs_links o' d ls q σ2).
Proof.
  induction ls as [|l ls IH]; intros q σ1 σ2 Hσ; simpl; [done|].
  apply same_run_bind; [by apply getNode_identity|].
  intros [node [e|]] σ1' σ2' Hσ'; [done|].
  destruct node; by apply IH.
Qed.

Lemma bfs_loop_identity fuel :
  ∀ q σ1 σ2, same_store σ1 σ2 →
    same_run (bfs_loop o fuel q σ1) (bfs_loop o' fuel q σ2).
Proof.
  induction fuel as [|fuel IH]; intros [|curr q] σ1 σ2 Hσ; simpl; try done.
  apply same_run_bind.
  { split; [done|]. unfold emit. pose proof Hσ as (Hs & Hw & _).
    rewrite Hs, Hw. by apply same_store_emit. }
  intros [] σ1' σ2' Hσ'. destruct (SNode curr) as [n|]; [|done].
  apply same_run_bind; [by apply callFunc_identity|].
  intros [e|] σ1'' σ2'' Hσ''; [done|].
  apply same_run_bind; [by apply bfs_links_identity|].
  intros [q' [e|]] τ1 τ2 Hτ; [done|]. by apply IH.
Qed.

Lemma bfsTraverse_identity fuel s σ1 σ2 :
  same_store σ1 σ2 →
  same_run (bfsTraverse o fuel s σ1) (bfsTraverse o' fuel s σ2).
Proof.
  intros Hσ. apply same_run_bind; [by apply shouldSkip_identity|].
  intros [skip err] σ1' σ2' Hσ'.
  destruct (skip || bool_decide (err ≠ None)); [done|].
  by apply bfs_loop_identity.
Qed.

Lemma Traverse_identity fuel (root : option Node') (w : W) :
  same_run (Traverse fuel root o w) (Traverse fuel root o' w).
Proof.
  assert (same_store (init w : store') (init w)) by done.
  unfold Traverse. simpl. repeat case_decide;
    auto using dfsPreTraverse_identity, dfsPostTraverse_identity,
      bfsTraverse_identity.
Qed.

End Identity.


(** C5. With no recovery function [Traverse] runs exactly as with the
    recovery function that returns its argument (same outcome, same seen
    set, same world, same fetches, marks and visits), and any failure to
    resolve a link is the last thing that happens: the visits are those made
    before it and the retrieval error is returned as it is. *)
Theorem nil_ErrFunc_is_identity_recovery fuel (root : option Node') o (w : W) :
  ErrFunc o = None →
  same_run (Traverse fuel root o w)
           (Traverse fuel root (with_ErrFunc (Some keep_error) o) w) ∧
  ∀ l r e,
    EvFetch l (r, Some e) ∈ trace (final (Traverse fuel root o w)) →
    ∃ tr' σ,
      trace (final (Traverse fuel root o w)) = tr' ++ [EvFetch l (r, Some e)] ∧
      visits (trace (final (Traverse fuel root o w))) = visits tr' ∧
      Traverse fuel root o w = Val (Some (Outside e)) σ.
Proof.
  intros Hnil. split; [by apply Traverse_identity|].
  intros l r e Hin.
  destruct (Traverse_fatal_last fuel root o w _ (Outside e) Hin)
    as (tr' & σ & Htr & _ & Hout); [simpl; by rewrite Hnil|].
  exists tr', σ. repeat split; try done.
  rewrite Htr. unfold visits. rewrite omap_app. simpl. by rewrite app_nil_r.
Qed.

Lemma getNode_failure o l σ f (r : option Node') e (w1 w2 : W) r' :
  ErrFunc o = Some f →
  DAG o l (world σ) = ((r, Some e), w1) →
  f (Outside e) w1 = (r', w2) →
  getNode o l σ
  = Val (None, r')
        (mkStore (seen σ) w2
           ((trace σ ++ [EvFetch l (r, Some e)]) ++ [EvRecover (Outside e) r'])).
Proof.
  intros Hf Hd Hr.
  unfold getNode, getNode_inner, bind, fetch, recover, ret, emit, set_world.
  rewrite Hd. simpl. rewrite Hf. simpl. by rewrite Hr.
Qed.

(** C6. With a recovery function [f] installed and a link [l] that fails to
    resolve: when [f] returns nil both loops over the links go on with the
    links after [l], from the same seen set and (in BFS) the same queue, so
    nothing below [l] is marked, visited or enqueued; when [f] returns an
    error the loops stop with that error, and a traversal in which [f] ever
    returns an error ends there and returns the error of [f]. *)
Theorem recovery_function_decides fuel (root : option Node') o (w : W) f :
  ErrFunc o = Some f →
  (∀ df d l ls q σ r e w1 w2,
     DAG o l (world σ) = ((r, Some e), w1) →
     f (Outside e) w1 = (None, w2) →
     let σ' := mkStore (seen σ) w2
                 ((trace σ ++ [EvFetch l (r, Some e)])
                    ++ [EvRecover (Outside e) None]) in
     dfsDescend_links o df d (l :: ls) σ = dfsDescend_links o df d ls σ' ∧
     bfs_links o d (l :: ls) q σ = bfs_links o d ls q σ') ∧
  (∀ df d l ls q σ r e w1 w2 e',
     DAG o l (world σ) = ((r, Some e), w1) →
     f (Outside e) w1 = (Some e', w2) →
     let σ' := mkStore (seen σ) w2
                 ((trace σ ++ [EvFetch l (r, Some e)])
                    ++ [EvRecover (Outside e) (Some e')]) in
     dfsDescend_links o df d (l :: ls) σ = Val (Some e') σ' ∧
     bfs_links o d (l :: ls) q σ = Val (q, Some e') σ') ∧
  (∀ e0 e',
     EvRecover e0 (Some e') ∈ trace (final (Traverse fuel root o w)) →
     ∃ tr' σ,
       trace (final (Traverse fuel root o w)) = tr' ++ [EvRecover e0 (Some e')] ∧
       Traverse fuel root o w = Val (Some e') σ).
Proof.
  intros Hf. split; [|split].
  - intros df d l ls q σ r e w1 w2 Hd Hr σ'. subst σ'. simpl. unfold bind.
    by rewrite (getNode_failure o l σ f r e w1 w2 _ Hf Hd Hr).
  - intros df d l ls q σ r e w1 w2 e' Hd Hr σ'. subst σ'. simpl. unfold bind.
    by rewrite (getNode_failure o l σ f r e w1 w2 _ Hf Hd Hr).
  - intros e0 e' Hin.
    destruct (Traverse_fatal_last fuel root o w _ e' Hin eq_refl)
      as (tr' & σ & Htr & _ & Hout).
    by exists tr', σ.
Qed.


(** ** Duplicate suppression: visits are licensed by marks *)

Lemma licensed_refl σ : licensed [] [] σ σ.
Proof. split; [done|]. exists [], []. by rewrite !app_nil_r. Qed.

Lemma licensed_trans p c c' σ1 σ2 σ3 :
  licensed p c σ1 σ2 → licensed c c' σ2 σ3 → licensed p c' σ1 σ3.
Proof.
  intros (Hc1 & ms1 & vs1 & Hm1 & Hv1 & H1) (Hc2 & ms2 & vs2 & Hm2 & Hv2 & H2).
  split; [auto|]. exists (ms1 ++ ms2), (vs1 ++ vs2).
  rewrite Hm2, Hm1, Hv2, Hv1, !app_assoc. repeat split.
  rewrite fmap_app, <- !app_assoc.
  transitivity (vs1 ++ c ++ (Some <$> ms2)).
  - by apply submseteq_skips_l.
  - rewrite !app_assoc. by apply submseteq_skips_r.
Qed.

Lemma licensed_frame p c r σ σ' :
  licensed p c σ σ' → licensed (p ++ r) (c ++ r) σ σ'.
Proof.
  intros (Hc & ms & vs & Hm & Hv & H). split; [done|].
  exists ms, vs. repeat split; try done.
  rewrite app_assoc. rewrite <- (app_assoc p r).
  rewrite (Permutation_app_comm r). rewrite app_assoc.
  by apply submseteq_skips_r.
Qed.

Lemma licensed_drop p c σ σ' : licensed p c σ σ' → licensed p [] σ σ'.
Proof.
  intros (Hc & ms & vs & Hm & Hv & H). split; [done|].
  exists ms, vs. repeat split; try done.
  etransitivity; [|exact H]. rewrite app_nil_r. by apply submseteq_inserts_r.
Qed.

Lemma licensed_quiet σ ev (w : W) :
  quiet ev → licensed [] [] σ (mkStore (seen σ) w (trace σ ++ [ev])).
Proof.
  intros Hq. split.
  - unfold coherent, marks. simpl. rewrite omap_app.
    destruct ev; simpl in *; try done; by rewrite app_nil_r.
  - exists [], []. unfold visit_keys, visits, marks. simpl.
    rewrite !omap_app, fmap_app.
    destruct ev; simpl in *; try done; by rewrite !app_nil_r.
Qed.

Lemma licensed_mark σ k (w : W) :
  k ∉ seen σ →
  licensed [] [Some k] σ (mkStore ({[k]} ∪ seen σ) w (trace σ ++ [EvMark k])).
Proof.
  intros Hk. split.
  - unfold coherent, marks. simpl. rewrite omap_app. simpl.
    intros [Hs Hnd]. split.
    + rewrite list_to_set_app_L, <- Hs. simpl.
      by rewrite (right_id_L ∅ (∪)), (comm_L (∪)).
    + apply NoDup_app. repeat split; [done| |apply NoDup_singleton].
      intros x Hx ->%list_elem_of_singleton. apply Hk. rewrite Hs.
      by apply elem_of_list_to_set.
  - exists [k], []. unfold visit_keys, visits, marks. simpl.
    rewrite !omap_app, fmap_app. simpl. by rewrite !app_nil_r.
Qed.

Lemma licensed_visit σ s r (w : W) :
  licensed [key_of s] [] σ (mkStore (seen σ) w (trace σ ++ [EvVisit s r])).
Proof.
  split.
  - unfold coherent, marks. simpl. rewrite omap_app. simpl.
    by rewrite app_nil_r.
  - exists [], [key_of s]. unfold visit_keys, visits, marks. simpl.
    rewrite !omap_app, fmap_app. simpl. by rewrite !app_nil_r.
Qed.

Lemma getNode_licensed o l σ :
  SkipDuplicates o = true →
  match getNode o l σ with
  | Val (Some n, _) σ' => licensed [] [Some (Cid n)] σ σ'
  | out => licensed [] [] σ (final out)
  end.
Proof.
  intros Hskip.
  destruct (getNode_cases o l σ) as
    [r e w Hd Hf|r e w f r' w' Hd Hf Hr|r w Hd Hs|w Hd Hs|n w Hd Hs Hin
    |n w Hd Hs Hin]; simpl; try congruence.
  - by apply licensed_quiet.
  - eapply licensed_trans; [by apply (licensed_quiet σ (EvFetch l (r, Some e)) w)|].
    by apply (licensed_quiet
                (mkStore (seen σ) w (trace σ ++ [EvFetch l (r, Some e)]))
                (EvRecover (Outside e) r') w').
  - by apply licensed_quiet.
  - by apply licensed_quiet.
  - eapply licensed_trans;
      [by apply (licensed_quiet σ (EvFetch l (Some n, None)) w)|].
    by apply (licensed_mark
                (mkStore (seen σ) w (trace σ ++ [EvFetch l (Some n, None)]))).
Qed.

Lemma callFunc_licensed o s σ :
  licensed [key_of s] [] σ (final (callFunc o s σ)).
Proof.
  destruct (callFunc_eq o s σ) as (r & w & _ & ->). apply licensed_visit.
Qed.


Lemma licensed_mono p p' c c' σ σ' :
  p ⊆+ p' → c' ⊆+ c → licensed p c σ σ' → licensed p' c' σ σ'.
Proof.
  intros Hp Hcc (Hc & ms & vs & Hm & Hv & H). split; [done|].
  exists ms, vs. repeat split; try done.
  transitivity (vs ++ c); [by apply submseteq_skips_l|].
  transitivity (p ++ (Some <$> ms)); [done|]. by apply submseteq_skips_r.
Qed.

Lemma licensed_idle p σ : licensed p [] σ σ.
Proof.
  apply (licensed_mono [] p [] []); [apply submseteq_nil_l|done|].
  apply licensed_refl.
Qed.

Lemma licensed_frame_nil r c σ σ' :
  licensed [] c σ σ' → licensed r (c ++ r) σ σ'.
Proof. apply (licensed_frame [] c r). Qed.

Section Suppression.
Variable o : Options'.
Hypothesis skipping : SkipDuplicates o = true.

Lemma dfsDescend_links_licensed df d ls :
  (∀ s σ, licensed [key_of s] [] σ (final (df s σ))) →
  ∀ σ, licensed [] [] σ (final (dfsDescend_links o df d ls σ)).
Proof.
  intros Hdf. induction ls as [|l ls IH]; intros σ; simpl.
  - apply licensed_refl.
  - unfold bind. pose proof (getNode_licensed o l σ skipping) as Hg.
    destruct (getNode o l σ) as [[node err] σ1|σ1|σ1]; simpl in *; try done.
    destruct node as [n|].
    + destruct err as [e|]; simpl; [by eapply licensed_drop|].
      pose proof (Hdf (mkState (Some n) (int_add d 1)) σ1) as Hn.
      pose proof (licensed_trans _ _ _ _ _ _ Hg Hn) as Hgn.
      destruct (df (mkState (Some n) (int_add d 1)) σ1) as [[e|] σ2|σ2|σ2];
        simpl in *; try done.
      eapply licensed_trans; [exact Hgn|apply IH].
    + destruct err as [e|]; simpl; [done|].
      eapply licensed_trans; [exact Hg|apply IH].
Qed.

Lemma dfsDescend_licensed df s :
  (∀ s σ, licensed [key_of s] [] σ (final (df s σ))) →
  ∀ σ, licensed [] [] σ (final (dfsDescend o df s σ)).
Proof.
  intros Hdf σ. unfold dfsDescend. destruct (SNode s).
  - by apply dfsDescend_links_licensed.
  - apply licensed_refl.
Qed.

Lemma dfsPreTraverse_licensed fuel :
  ∀ s σ, licensed [key_of s] [] σ (final (dfsPreTraverse o fuel s σ)).
Proof.
  induction fuel as [|fuel IH]; intros s σ; simpl; [apply licensed_idle|].
  unfold bind. pose proof (callFunc_licensed o s σ) as Hc.
  destruct (callFunc o s σ) as [[e|] σ1|σ1|σ1]; simpl in *; try done.
  eapply licensed_trans; [exact Hc|]. by apply dfsDescend_licensed.
Qed.

Lemma dfsPostTraverse_licensed fuel :
  ∀ s σ, licensed [key_of s] [] σ (final (dfsPostTraverse o fuel s σ)).
Proof.
  induction fuel as [|fuel IH]; intros s σ; simpl; [apply licensed_idle|].
  unfold bind. pose proof (dfsDescend_licensed _ s IH σ) as Hd.
  destruct (dfsDescend o (dfsPostTraverse o fuel) s σ) as [[e|] σ1|σ1|σ1];
    simpl in *;
    try (eapply licensed_mono; [apply submseteq_nil_l|done|exact Hd]).
  eapply licensed_trans; [|apply callFunc_licensed].
  by apply (licensed_frame_nil _ []).
Qed.

Lemma bfs_links_licensed d ls :
  ∀ q σ,
    match bfs_links o d ls q σ with
    | Val (q', _) σ' => licensed (key_of <$> q) (key_of <$> q') σ σ'
    | out => licensed (key_of <$> q) [] σ (final out)
    end.
Proof.
  induction ls as [|l ls IH]; intros q σ; simpl.
  - apply (licensed_frame_nil _ []), licensed_refl.
  - unfold bind. pose proof (getNode_licensed o l σ skipping) as Hg.
    destruct (getNode o l σ) as [[node err] σ1|σ1|σ1]; simpl in *;
      try (eapply licensed_mono; [apply submseteq_nil_l|done|exact Hg]).
    destruct node as [n|].
    + destruct err as [e|]; simpl.
      { apply (licensed_frame_nil _ []). by eapply licensed_drop. }
      specialize (IH (q ++ [mkState (Some n) (int_add d 1)]) σ1).
      apply (licensed_frame _ _ (key_of <$> q)) in Hg. simpl in Hg.
      destruct (bfs_links o d ls (q ++ [mkState (Some n) (int_add d 1)]) σ1)
        as [[q' err'] σ2|σ2|σ2]; simpl in *;
        (eapply licensed_trans; [exact Hg|]);
        (eapply licensed_mono; [|done|exact IH]);
        rewrite fmap_app; simpl;
        by rewrite (Permutation_app_comm (key_of <$> q)).
    + destruct err as [e|]; simpl.
      { by apply (licensed_frame_nil _ []). }
      specialize (IH q σ1).
      apply (licensed_frame _ _ (key_of <$> q)) in Hg. simpl in Hg.
      destruct (bfs_links o d ls q σ1) as [[q' err'] σ2|σ2|σ2]; simpl in *;
        by (eapply licensed_trans; [exact Hg|]).
Qed.

Lemma bfs_loop_licensed fuel :
  ∀ q σ, licensed (key_of <$> q) [] σ (final (bfs_loop o fuel q σ)).
Proof.
  induction fuel as [|fuel IH]; intros [|curr q] σ; simpl;
    try apply licensed_idle.
  unfold bind at 1. simpl.
  assert (Hq : licensed [] [] σ (emit (EvDequeue curr) σ))
    by (by apply licensed_quiet).
  apply (licensed_frame _ _ (key_of curr :: (key_of <$> q))) in Hq.
  simpl in Hq. eapply licensed_trans; [exact Hq|]. clear Hq.
  generalize (emit (EvDequeue curr) σ). clear σ. intros σ.
  destruct (SNode curr) as [n|] eqn:Hcurr; [|apply licensed_idle].
  unfold bind at 1. pose proof (callFunc_licensed o curr σ) as Hc.
  apply (licensed_frame _ _ (key_of <$> q)) in Hc. simpl in Hc.
  destruct (callFunc o curr σ) as [[e|] σ1|σ1|σ1]; simpl in *;
    try (eapply licensed_mono; [done|apply submseteq_nil_l|exact Hc]).
  eapply licensed_trans; [exact Hc|]. clear Hc.
  unfold bind. pose proof (bfs_links_licensed (Depth curr) (Links n) q σ1) as Hl.
  destruct (bfs_links o (Depth curr) (Links n) q σ1) as [[q' err] σ2|σ2|σ2];
    simpl in *; try done.
  destruct err as [e|]; simpl.
  - eapply licensed_mono; [done|apply submseteq_nil_l|exact Hl].
  - eapply licensed_trans; [exact Hl|apply IH].
Qed.

Lemma bfsTraverse_licensed fuel s σ :
  licensed [] [] σ (final (bfsTraverse o fuel s σ)).
Proof.
  unfold bfsTraverse, bind.
  destruct (shouldSkip_cases o (SNode s) σ) as [Hs|Hs Hn|n Hs Hn Hin|n Hs Hn Hin];
    simpl; try apply licensed_refl; try congruence.
  eapply licensed_trans.
  - by apply (licensed_mark σ (Cid n) (world σ)).
  - pose proof (bfs_loop_licensed fuel [s]
      (mkStore ({[Cid n]} ∪ seen σ) (world σ) (trace σ ++ [EvMark (Cid n)])))
      as Hl.
    simpl in Hl. unfold key_of in Hl. by rewrite Hn in Hl.
Qed.

End Suppression.


Lemma filter_length_submseteq {A} (P : A → Prop) `{!∀ x, Decision (P x)}
    (l1 l2 : list A) :
  l1 ⊆+ l2 → (length (filter P l1) ≤ length (filter P l2))%nat.
Proof.
  induction 1 as [|x l1 l2 _ IH|x y l|x l1 l2 _ IH|l1 l2 l3 _ IH1 _ IH2].
  - done.
  - rewrite !filter_cons. destruct (decide (P x)); simpl; lia.
  - rewrite !filter_cons.
    destruct (decide (P x)), (decide (P y)); simpl; lia.
  - rewrite filter_cons. destruct (decide (P x)); simpl; lia.
  - lia.
Qed.

Lemma filter_eq_absent {A} `{!EqDecision A} (x : A) (l : list A) :
  x ∉ l → filter (λ y, y = x) l = [].
Proof.
  induction l as [|y l IH]; [done|]. intros Hx.
  apply not_elem_of_cons in Hx as [Hne Hx].
  rewrite filter_cons. rewrite decide_False by congruence. by apply IH.
Qed.

Lemma NoDup_filter_eq_length {A} `{!EqDecision A} (x : A) (l : list A) :
  NoDup l → (length (filter (λ y, y = x) l) ≤ 1)%nat.
Proof.
  induction 1 as [|y l Hy _ IH]; [simpl; lia|].
  rewrite filter_cons. destruct (decide (y = x)) as [->|]; [|done].
  simpl. rewrite filter_eq_absent by done. simpl. lia.
Qed.

(** With duplicate suppression on, at the end of a traversal the seen set
    is the set of marked identifiers, no identifier was marked twice, and
    the visits are covered one for one by the marks, plus the root in the
    depth-first orders. *)
Lemma Traverse_licensed fuel (root : option Node') o (w : W) :
  SkipDuplicates o = true →
  coherent (final (Traverse fuel root o w)) ∧
  visit_keys (trace (final (Traverse fuel root o w)))
    ⊆+ (if decide (Order_ o = BFS) then [] else [Cid <$> root])
         ++ (Some <$> marks (trace (final (Traverse fuel root o w)))).
Proof.
  intros Hskip.
  assert (Hinit : coherent (init w : store')) by (split; [done|constructor]).
  assert (Hgen : ∀ p (out : outcome' (option error')),
    licensed p [] (init w : store') (final out) →
    coherent (final out) ∧
    visit_keys (trace (final out)) ⊆+ p ++ (Some <$> marks (trace (final out)))).
  { intros p out (Hc & ms & vs & Hm & Hv & Hsub). split; [auto|].
    simpl in Hm, Hv. rewrite Hm, Hv. by rewrite app_nil_r in Hsub. }
  unfold Traverse. unfold DFSPre, DFSPost, BFS.
  repeat case_decide; try congruence; apply Hgen;
    first [ by apply (dfsPreTraverse_licensed o Hskip fuel (mkState root 0))
          | by apply (dfsPostTraverse_licensed o Hskip fuel (mkState root 0))
          | by apply bfsTraverse_licensed ].
Qed.

(** With duplicate suppression on, the visitor is handed a node of a given
    identifier at most once, except that in the depth-first orders the
    root's identifier may come a second time. *)
Lemma suppression_bounds fuel (root : option Node') o (w : W) k :
  SkipDuplicates o = true →
  (times k (trace (final (Traverse fuel root o w))) ≤ 2)%nat ∧
  (Order_ o = BFS ∨ Cid <$> root ≠ Some k →
   (times k (trace (final (Traverse fuel root o w))) ≤ 1)%nat).
Proof.
  intros Hskip.
  destruct (Traverse_licensed fuel root o w Hskip) as [[_ Hnd] Hsub].
  apply (filter_length_submseteq (λ x, x = Some k)) in Hsub.
  rewrite filter_app, length_app in Hsub.
  pose proof (NoDup_filter_eq_length (Some k) _
    (NoDup_fmap_2 Some _ Hnd)) as Hm.
  unfold times. split.
  - destruct (decide (Order_ o = BFS)); simpl in Hsub; [lia|].
    rewrite filter_cons in Hsub. case_decide; simpl in Hsub; lia.
  - intros [Hb|Hr].
    + rewrite decide_True in Hsub by done. simpl in Hsub. lia.
    + destruct (decide (Order_ o = BFS)); simpl in Hsub; [lia|].
      rewrite filter_cons in Hsub. rewrite decide_False in Hsub by done.
      simpl in Hsub. lia.
Qed.


(** ** The BFS queue never holds the nil node *)

Lemma getNode_dequeues o l σ :
  dequeues (trace (final (getNode o l σ))) = dequeues (trace σ).
Proof.
  destruct (getNode_cases o l σ); simpl; unfold dequeues;
    rewrite ?omap_app; simpl; by rewrite ?app_nil_r.
Qed.

Lemma bfs_links_dequeues o d ls :
  ∀ q σ, Forall (λ s, SNode s ≠ None) q →
    dequeues (trace (final (bfs_links o d ls q σ))) = dequeues (trace σ) ∧
    ∀ q' e σ', bfs_links o d ls q σ = Val (q', e) σ' →
      Forall (λ s, SNode s ≠ None) q'.
Proof.
  induction ls as [|l ls IH]; intros q σ Hq; simpl.
  - split; [done|]. unfold ret. by intros q' e σ' [= <- _ _].
  - unfold bind. pose proof (getNode_dequeues o l σ) as Hg.
    destruct (getNode o l σ) as [[node err] σ1|σ1|σ1]; simpl in *;
      try (split; [done|by intros]).
    destruct err as [e|]; simpl.
    { split; [done|]. unfold ret. by intros q' e' σ' [= <- _ _]. }
    rewrite <- Hg. destruct node as [n|]; apply IH; [|done].
    apply Forall_app. split; [done|]. by repeat constructor.
Qed.

Lemma bfs_loop_dequeues o fuel :
  ∀ q σ, Forall (λ s, SNode s ≠ None) q →
    Forall (λ s, SNode s ≠ None) (dequeues (trace σ)) →
    Forall (λ s, SNode s ≠ None) (dequeues (trace (final (bfs_loop o fuel q σ)))).
Proof.
  induction fuel as [|fuel IH]; intros [|curr q] σ Hq Hσ; simpl; try done.
  apply Forall_cons in Hq as [Hcurr Hq].
  unfold bind at 1. simpl.
  assert (Hσ0 : Forall (λ s, SNode s ≠ None) (dequeues (trace σ ++ [EvDequeue curr]))).
  { unfold dequeues. rewrite omap_app. apply Forall_app. split; [done|].
    by repeat constructor. }
  destruct (SNode curr) as [n|] eqn:Hn; [|done].
  unfold bind at 1.
  destruct (callFunc_eq o curr (emit (EvDequeue curr) σ)) as (r & w & _ & ->).
  assert (Hσ1 : Forall (λ s, SNode s ≠ None)
                  (dequeues ((trace σ ++ [EvDequeue curr]) ++ [EvVisit curr r]))).
  { unfold dequeues in *. rewrite (omap_app _ (_ ++ _)). simpl.
    by rewrite app_nil_r. }
  destruct r as [e|]; simpl; [done|].
  unfold bind.
  match goal with |- context [bfs_links o ?d ?ls q ?σ1] =>
    destruct (bfs_links_dequeues o d ls q σ1 Hq) as [Hd Hq'];
    destruct (bfs_links o d ls q σ1) as [[q' err] σ2|σ2|σ2]; simpl in *;
      try (by rewrite Hd)
  end.
  destruct err as [e|]; simpl; [by rewrite Hd|].
  apply IH; [by eapply Hq'|by rewrite Hd].
Qed.

(** C7. In the BFS loop a dequeued state that carries the nil node makes the
    loop return the error built there by [errors.New], whatever the rest of
    the queue and the store; that error is none of the errors the visitor
    or the node getter produce.  With a non-nil root the branch is never
    taken: every state dequeued during [bfsTraverse] carries a node (this
    needs no assumption on the node getter). *)
Theorem dequeue_failure_is_internal o fuel :
  (∀ d q σ,
     bfs_loop o (S fuel) (mkState None d :: q) σ
     = Val (Some errDequeue) (emit (EvDequeue (mkState None d)) σ)) ∧
  (∀ e : E, errDequeue ≠ Outside e) ∧
  (∀ n d (w : W),
     Forall (λ s, SNode s ≠ None)
       (dequeues (trace (final (bfsTraverse o fuel (mkState (Some n) d) (init w)))))).
Proof.
  split; [done|]. split; [done|].
  intros n d w. unfold bfsTraverse, bind. cbn [SNode].
  destruct (shouldSkip_cases o (Some n) (init w)) as [Hs|Hs Hn|n' Hs Hn Hin|n' Hs Hn Hin];
    simpl; try by constructor.
  - apply bfs_loop_dequeues; [|by constructor]. by repeat constructor.
  - apply bfs_loop_dequeues; [|by constructor]. by repeat constructor.
Qed.


(** C8. An order that is none of [DFSPre], [DFSPost] and [BFS] runs the
    traversal exactly as [DFSPre] does: the two outcomes are equal, trace
    and returned error included. *)
Theorem unknown_order_is_DFSPre fuel (root : option Node') o (w : W) :
  Order_ o ≠ DFSPre → Order_ o ≠ DFSPost → Order_ o ≠ BFS →
  Traverse fuel root o w = Traverse fuel root (with_Order DFSPre o) w.
Proof.
  intros H1 H2 H3. unfold Traverse. simpl.
  rewrite !decide_False by done. by destruct o.
Qed.

(** ** Termination under duplicate suppression *)

Section Termination.
Variable o : Options'.
Variable U : gset string.
Hypothesis skipping : SkipDuplicates o = true.
Hypothesis closed : closed_in U o.
Hypothesis total : answers o.

Lemma unseen_shrinks (k : string) (S : gset string) :
  k ∈ U → k ∉ S → (size (U ∖ ({[k]} ∪ S)) < size (U ∖ S))%nat.
Proof.
  intros HU HS. apply subset_size. split; [set_solver|].
  intros Hsub. assert (k ∈ U ∖ ({[k]} ∪ S)) by (apply Hsub; set_solver).
  set_solver.
Qed.

Lemma fewer_refl σ : fewer U σ σ.
Proof. split; [set_solver|done]. Qed.

Lemma fewer_trans σ1 σ2 σ3 : fewer U σ1 σ2 → fewer U σ2 σ3 → fewer U σ1 σ3.
Proof. intros [H1 L1] [H2 L2]. split; [set_solver|lia]. Qed.

Lemma fewer_same σ σ' : seen σ' = seen σ → fewer U σ σ'.
Proof. intros Hs. unfold fewer. rewrite Hs. split; [set_solver|done]. Qed.

(** [getNode] returns, and a node it hands out has used up one of the
    identifiers of [U] not seen yet. *)
Lemma getNode_returns l σ :
  ∃ on e σ', getNode o l σ = Val (on, e) σ' ∧ fewer U σ σ' ∧
    (size (U ∖ seen σ') + match on with Some _ => 1 | None => 0 end
     ≤ size (U ∖ seen σ))%nat.
Proof.
  destruct (getNode_cases o l σ) as
    [r e w Hd Hf|r e w f r' w' Hd Hf Hr|r w Hd Hs|w Hd Hs|n w Hd Hs Hin
    |n w Hd Hs Hin]; try congruence.
  - eexists _, _, _. split; [done|]. split; [by apply fewer_same|]. simpl. lia.
  - eexists _, _, _. split; [done|]. split; [by apply fewer_same|]. simpl. lia.
  - by apply total in Hd.
  - eexists _, _, _. split; [done|]. split; [by apply fewer_same|]. simpl. lia.
  - eexists _, _, _. split; [done|]. apply closed in Hd.
    pose proof (unseen_shrinks _ _ Hd Hin). simpl.
    split; [|lia]. split; simpl; [set_solver|lia].
Qed.

Lemma callFunc_returns s σ :
  ∃ r σ', callFunc o s σ = Val r σ' ∧ seen σ' = seen σ.
Proof. destruct (callFunc_eq o s σ) as (r & w & _ & ->). by eexists _, _. Qed.

Lemma dfsDescend_links_returns df d ls (f : nat) :
  (∀ s σ, SNode s ≠ None → (size (U ∖ seen σ) < f)%nat →
     ∃ r σ', df s σ = Val r σ' ∧ fewer U σ σ') →
  ∀ σ, (size (U ∖ seen σ) ≤ f)%nat →
    ∃ r σ', dfsDescend_links o df d ls σ = Val r σ' ∧ fewer U σ σ'.
Proof.
  intros Hdf. induction ls as [|l ls IH]; intros σ Hσ; simpl.
  - eexists _, _. split; [done|apply fewer_refl].
  - unfold bind.
    destruct (getNode_returns l σ) as (on & e & σ1 & -> & Hf1 & Hμ).
    destruct e as [e|]; simpl.
    { by eexists _, _. }
    destruct on as [n|].
    + destruct (Hdf (mkState (Some n) (int_add d 1)) σ1) as (r & σ2 & -> & Hf2);
        [done|lia|].
      pose proof (fewer_trans _ _ _ Hf1 Hf2) as Hf12.
      destruct r as [e|]; simpl.
      { by eexists _, _. }
      destruct (IH σ2) as (r & σ3 & -> & Hf3); [destruct Hf12; lia|].
      eexists _, _. split; [done|]. by eapply fewer_trans.
    + destruct (IH σ1) as (r & σ3 & -> & Hf3); [lia|].
      eexists _, _. split; [done|]. by eapply fewer_trans.
Qed.

Lemma dfsPreTraverse_returns fuel :
  ∀ s σ, SNode s ≠ None → (size (U ∖ seen σ) < fuel)%nat →
    ∃ r σ', dfsPreTraverse o fuel s σ = Val r σ' ∧ fewer U σ σ'.
Proof.
  induction fuel as [|fuel IH]; intros s σ Hs Hσ; [lia|]. simpl.
  unfold bind. destruct (callFunc_returns s σ) as (r & σ1 & -> & Hseen).
  pose proof (fewer_same _ _ Hseen) as Hf1.
  destruct r as [e|]; simpl.
  { by eexists _, _. }
  unfold dfsDescend. destruct (SNode s) as [n|]; [|done].
  destruct (dfsDescend_links_returns _ (Depth s) (Links n) fuel IH σ1)
    as (r & σ2 & -> & Hf2); [rewrite Hseen; lia|].
  eexists _, _. split; [done|]. by eapply fewer_trans.
Qed.

Lemma dfsPostTraverse_returns fuel :
  ∀ s σ, SNode s ≠ None → (size (U ∖ seen σ) < fuel)%nat →
    ∃ r σ', dfsPostTraverse o fuel s σ = Val r σ' ∧ fewer U σ σ'.
Proof.
  induction fuel as [|fuel IH]; intros s σ Hs Hσ; [lia|]. simpl.
  unfold bind, dfsDescend. destruct (SNode s) as [n|] eqn:Hn; [|done].
  destruct (dfsDescend_links_returns _ (Depth s) (Links n) fuel IH σ)
    as (r & σ1 & -> & Hf1); [lia|].
  destruct r as [e|]; simpl.
  { by eexists _, _. }
  destruct (callFunc_returns s σ1) as (r & σ2 & -> & Hseen).
  eexists _, _. split; [done|].
  eapply fewer_trans; [exact Hf1|by apply fewer_same].
Qed.

Lemma bfs_links_returns d ls :
  ∀ q σ, Forall (λ s, SNode s ≠ None) q →
    ∃ q' e σ', bfs_links o d ls q σ = Val (q', e) σ' ∧
      Forall (λ s, SNode s ≠ None) q' ∧ fewer U σ σ' ∧
      (size (U ∖ seen σ') + length q' ≤ size (U ∖ seen σ) + length q)%nat.
Proof.
  induction ls as [|l ls IH]; intros q σ Hq; simpl.
  - eexists _, _, _. split; [done|]. split; [done|]. split; [apply fewer_refl|lia].
  - unfold bind.
    destruct (getNode_returns l σ) as (on & e & σ1 & -> & Hf1 & Hμ).
    destruct e as [e|]; simpl.
    { eexists _, _, _. split; [done|]. split; [done|]. split; [done|lia]. }
    destruct on as [n|].
    + destruct (IH (q ++ [mkState (Some n) (int_add d 1)]) σ1)
        as (q' & e & σ2 & -> & Hq' & Hf2 & Hμ2).
      { apply Forall_app. split; [done|]. by repeat constructor. }
      eexists _, _, _. split; [done|]. split; [done|].
      split; [by eapply fewer_trans|].
      rewrite length_app in Hμ2. simpl in Hμ2. lia.
    + destruct (IH q σ1 Hq) as (q' & e & σ2 & -> & Hq' & Hf2 & Hμ2).
      eexists _, _, _. split; [done|]. split; [done|].
      split; [by eapply fewer_trans|lia].
Qed.

Lemma bfs_loop_returns fuel :
  ∀ q σ, Forall (λ s, SNode s ≠ None) q →
    (size (U ∖ seen σ) + length q ≤ fuel)%nat →
    ∃ r σ', bfs_loop o fuel q σ = Val r σ' ∧ fewer U σ σ'.
Proof.
  induction fuel as [|fuel IH]; intros [|curr q] σ Hq Hσ; simpl in *;
    try (eexists _, _; split; [done|apply fewer_refl]); try lia.
  apply Forall_cons in Hq as [Hcurr Hq].
  unfold bind at 1. simpl.
  destruct (SNode curr) as [n|] eqn:Hn; [|done].
  unfold bind at 1.
  destruct (callFunc_returns curr (emit (EvDequeue curr) σ))
    as (r & σ1 & -> & Hseen).
  assert (Hf1 : fewer U σ σ1) by (by apply fewer_same).
  destruct r as [e|]; simpl; [by eexists _, _|].
  unfold bind.
  destruct (bfs_links_returns (Depth curr) (Links n) q σ1 Hq)
    as (q' & e & σ2 & -> & Hq' & Hf2 & Hμ).
  pose proof (fewer_trans _ _ _ Hf1 Hf2) as Hf12.
  destruct e as [e|]; simpl; [by eexists _, _|].
  destruct (IH q' σ2) as (r & σ3 & -> & Hf3); [done| |].
  { rewrite Hseen in Hμ. simpl in Hμ. lia. }
  eexists _, _. split; [done|]. by eapply fewer_trans.
Qed.

Lemma bfsTraverse_returns fuel n d σ :
  Cid n ∈ U → (size (U ∖ seen σ) < fuel)%nat →
  ∃ r σ', bfsTraverse o fuel (mkState (Some n) d) σ = Val r σ' ∧ fewer U σ σ'.
Proof.
  intros Hn Hσ. unfold bfsTraverse, bind. cbn [SNode].
  destruct (shouldSkip_cases o (Some n) σ) as [Hs|Hs Hn'|n' Hs Hn' Hin|n' Hs Hn' Hin];
    simpl; try congruence;
    try (eexists _, _; split; [done|apply fewer_refl]).
  injection Hn' as <-.
  match goal with |- context [bfs_loop o fuel ?q ?σ1] =>
    assert (Hf1 : fewer U σ σ1);
    [|destruct (bfs_loop_returns fuel q σ1) as (r & σ2 & -> & Hf2)]
  end.
  - split; simpl; [set_solver|]. apply subseteq_size. set_solver.
  - by repeat constructor.
  - simpl. destruct Hf1 as [_ Hf1]. simpl in Hf1. lia.
  - eexists _, _. split; [done|]. by eapply fewer_trans.
Qed.

Lemma Traverse_returns fuel n (w : W) :
  Cid n ∈ U → (size U < fuel)%nat →
  ∃ r σ, Traverse fuel (Some n) o w = Val r σ ∧ seen σ ⊆ U.
Proof.
  intros Hn Hfuel.
  assert (Hμ : (size (U ∖ seen (init w : store')) < fuel)%nat).
  { simpl. assert (size (U ∖ ∅) ≤ size U)%nat
      by (apply subseteq_size; set_solver). lia. }
  assert (Hend : ∀ σ, fewer U (init w) σ → seen σ ⊆ U).
  { intros σ [Hsub _]. simpl in Hsub. set_solver. }
  unfold Traverse. repeat case_decide.
  - destruct (dfsPreTraverse_returns fuel (mkState (Some n) 0) (init w))
      as (r & σ & -> & ?); by eauto.
  - destruct (dfsPostTraverse_returns fuel (mkState (Some n) 0) (init w))
      as (r & σ & -> & ?); by eauto.
  - destruct (bfsTraverse_returns fuel n 0 (init w)) as (r & σ & -> & ?);
      by eauto.
  - destruct (dfsPreTraverse_returns fuel (mkState (Some n) 0) (init w))
      as (r & σ & -> & ?); by eauto.
Qed.

End Termination.


(** C9. With duplicate suppression on, over a finite graph (the root and
    every node the getter returns have their identifier in the finite set
    [U], and the getter returns a node or an error), [Traverse] returns
    once the fuel exceeds the size of [U], cycles or not.  No identifier is
    marked twice, every visit is covered by its own mark or is the visit of
    the root, so there are at most [size U] marks and [size U + 1] visits. *)
Theorem suppressed_traversal_terminates (U : gset string) o n (w : W) fuel :
  SkipDuplicates o = true → closed_in U o → answers o → Cid n ∈ U →
  (size U < fuel)%nat →
  ∃ r σ, Traverse fuel (Some n) o w = Val r σ ∧
    NoDup (marks (trace σ)) ∧
    visit_keys (trace σ) ⊆+ Some (Cid n) :: (Some <$> marks (trace σ)) ∧
    (length (marks (trace σ)) ≤ size U)%nat ∧
    (length (visits (trace σ)) ≤ size U + 1)%nat.
Proof.
  intros Hskip Hclosed Htotal Hn Hfuel.
  destruct (Traverse_returns o U Hskip Hclosed Htotal fuel n w Hn Hfuel)
    as (r & σ & Hrun & Hseen).
  destruct (Traverse_licensed fuel (Some n) o w Hskip) as [[Hcoh Hnd] Hsub].
  rewrite Hrun in Hcoh, Hnd, Hsub. simpl in Hcoh, Hnd, Hsub.
  assert (Hsub' : visit_keys (trace σ) ⊆+ Some (Cid n) :: (Some <$> marks (trace σ))).
  { etransitivity; [exact Hsub|].
    destruct (decide (Order_ o = BFS)); simpl; [by apply submseteq_cons|done]. }
  assert (Hlen : (length (marks (trace σ)) ≤ size U)%nat).
  { rewrite <- (size_list_to_set (C:=gset string)) by done.
    rewrite <- Hcoh. by apply subseteq_size. }
  exists r, σ. repeat split; try done.
  apply submseteq_length in Hsub'. simpl in Hsub'.
  unfold visit_keys in Hsub'. rewrite !length_fmap in Hsub'. lia.
Qed.


(** ** Visit order without duplicate suppression *)

Section Orders.
Variable o : Options'.
Hypothesis no_skipping : SkipDuplicates o = false.
Hypothesis visitor_ok : ∀ s (w : W), (Func o s w).1 = None.

Lemma visit_nodes_snoc tr s r :
  visit_nodes (tr ++ [EvVisit s r] : list event')
  = visit_nodes tr ++ match SNode s with Some n => [n] | None => [] end.
Proof.
  unfold visit_nodes, visits. rewrite !omap_app. simpl.
  by destruct (SNode s).
Qed.

Lemma callFunc_ok s σ :
  ∃ w, callFunc o s σ
       = Val None (mkStore (seen σ) w (trace σ ++ [EvVisit s None])).
Proof.
  destruct (callFunc_eq o s σ) as (r & w & Hf & ->).
  pose proof (visitor_ok s (world σ)) as Hr. rewrite Hf in Hr. simpl in Hr.
  subst r. by exists w.
Qed.

Lemma getNode_resolved l σ n :
  (∀ w : W, (DAG o l w).1 = (Some n, None)) →
  ∃ w, getNode o l σ
       = Val (Some n, None)
             (mkStore (seen σ) w (trace σ ++ [EvFetch l (Some n, None)])).
Proof.
  intros Hl. specialize (Hl (world σ)).
  destruct (getNode_cases o l σ) as
    [r e w Hd Hf|r e w f r' w' Hd Hf Hr|r w Hd Hs|w Hd Hs|n' w Hd Hs Hin
    |n' w Hd Hs Hin]; rewrite Hd in Hl; simpl in Hl; try congruence.
  injection Hl as ->. by exists w.
Qed.

Lemma dfsDescend_links_tree df (order : tree' → list Node') d :
  ∀ ls ks σ,
    Forall2 (λ l k, (∀ w : W, (DAG o l w).1 = (Some (root_node k), None)) ∧
       ∀ σ, ∃ σ', df (mkState (Some (root_node k)) (int_add d 1)) σ = Val None σ' ∧
         visit_nodes (trace σ') = visit_nodes (trace σ) ++ order k) ls ks →
    ∃ σ', dfsDescend_links o df d ls σ = Val None σ' ∧
      visit_nodes (trace σ') = visit_nodes (trace σ) ++ flat_map order ks.
Proof.
  intros ls ks σ Hall. revert σ.
  induction Hall as [|l k ls ks [Hl Hk] _ IH]; intros σ; simpl.
  - exists σ. by rewrite app_nil_r.
  - unfold bind. destruct (getNode_resolved l σ _ Hl) as (w & ->). simpl.
    match goal with |- context [df ?s ?σ1] =>
      destruct (Hk σ1) as (σ2 & -> & Hv2) end.
    simpl. destruct (IH σ2) as (σ3 & -> & Hv3).
    exists σ3. split; [done|]. rewrite Hv3, Hv2. simpl.
    unfold visit_nodes, visits. rewrite !omap_app. simpl.
    by rewrite !app_nil_r, app_assoc.
Qed.

Lemma height_kids n kids fuel k :
  (height (T n kids) ≤ S fuel)%nat → k ∈ kids → (height k ≤ fuel)%nat.
Proof.
  simpl. intros Hh Hk.
  assert (height k ≤ max_list (map height kids))%nat; [|lia].
  apply max_list_elem_of_le, list_elem_of_In, in_map. by apply list_elem_of_In.
Qed.

Lemma Forall2_resolves_kids (P : Link → tree' → Prop) ls kids :
  Forall2 (λ l k, (∀ w : W, (DAG o l w).1 = (Some (root_node k), None)) ∧
                  resolves o k) ls kids →
  (∀ l k, k ∈ kids → resolves o k →
     (∀ w : W, (DAG o l w).1 = (Some (root_node k), None)) → P l k) →
  Forall2 P ls kids.
Proof.
  induction 1 as [|l k ls ks [Hl Hk] _ IH]; intros HP; constructor.
  - apply HP; [left|done|done].
  - apply IH. intros l' k' Hin. apply HP. by right.
Qed.

Lemma dfsPreTraverse_tree fuel :
  ∀ t d σ, resolves o t → (height t ≤ fuel)%nat →
    ∃ σ', dfsPreTraverse o fuel (mkState (Some (root_node t)) d) σ = Val None σ' ∧
      visit_nodes (trace σ') = visit_nodes (trace σ) ++ preorder t.
Proof.
  induction fuel as [|fuel IH]; intros [n kids] d σ Ht Hh; [simpl in Hh; lia|].
  inversion Ht as [n' kids' Hkids]; subst. simpl.
  unfold bind. destruct (callFunc_ok (mkState (Some n) d) σ) as (w & ->).
  simpl. unfold dfsDescend. simpl.
  destruct (dfsDescend_links_tree (dfsPreTraverse o fuel) preorder d
              (Links n) kids
              (mkStore (seen σ) w (trace σ ++ [EvVisit (mkState (Some n) d) None])))
    as (σ' & -> & Hv).
  { eapply Forall2_resolves_kids; [exact Hkids|].
    intros l k Hin Hk Hl. split; [done|]. intros σ1. apply IH; [done|].
    by eapply height_kids. }
  exists σ'. split; [done|]. rewrite Hv. simpl.
  rewrite visit_nodes_snoc. simpl. by rewrite <- app_assoc.
Qed.

Lemma dfsPostTraverse_tree fuel :
  ∀ t d σ, resolves o t → (height t ≤ fuel)%nat →
    ∃ σ', dfsPostTraverse o fuel (mkState (Some (root_node t)) d) σ = Val None σ' ∧
      visit_nodes (trace σ') = visit_nodes (trace σ) ++ postorder t.
Proof.
  induction fuel as [|fuel IH]; intros [n kids] d σ Ht Hh; [simpl in Hh; lia|].
  inversion Ht as [n' kids' Hkids]; subst. simpl.
  unfold bind, dfsDescend. simpl.
  destruct (dfsDescend_links_tree (dfsPostTraverse o fuel) postorder d
              (Links n) kids σ) as (σ1 & -> & Hv).
  { eapply Forall2_resolves_kids; [exact Hkids|].
    intros l k Hin Hk Hl. split; [done|]. intros σ1. apply IH; [done|].
    by eapply height_kids. }
  simpl. destruct (callFunc_ok (mkState (Some n) d) σ1) as (w & ->).
  eexists. split; [done|]. simpl.
  rewrite visit_nodes_snoc. simpl. by rewrite Hv, <- app_assoc.
Qed.

Lemma bfs_links_tree d :
  ∀ ls ks q σ,
    Forall2 (λ l k, (∀ w : W, (DAG o l w).1 = (Some (root_node k), None)) ∧
                    resolves o k) ls ks →
    ∃ σ', bfs_links o d ls q σ = Val (q ++ states (int_add d 1) ks, None) σ' ∧
      visit_nodes (trace σ') = visit_nodes (trace σ).
Proof.
  intros ls ks q σ Hall. revert q σ.
  induction Hall as [|l k ls ks [Hl Hk] _ IH]; intros q σ; simpl.
  - exists σ. by rewrite app_nil_r.
  - unfold bind. destruct (getNode_resolved l σ _ Hl) as (w & ->). simpl.
    match goal with |- context [bfs_links o d ls ?q1 ?σ1] =>
      destruct (IH q1 σ1) as (σ2 & -> & Hv2) end.
    exists σ2. split.
    + unfold states. simpl. by rewrite <- app_assoc.
    + rewrite Hv2. simpl. unfold visit_nodes, visits. rewrite !omap_app. simpl.
      by rewrite !app_nil_r.
Qed.

(** One sweep of the loop over the front part [ts] of the queue, all at one
    depth: their roots are visited in order and their children join the
    back of the queue, one level down. *)
Lemma bfs_loop_sweep d :
  ∀ ts us fuel σ, Forall (resolves o) ts →
    ∃ σ', bfs_loop o (length ts + fuel) (states d ts ++ states (int_add d 1) us) σ
          = bfs_loop o fuel (states (int_add d 1) (us ++ flat_map subtrees ts)) σ' ∧
      visit_nodes (trace σ') = visit_nodes (trace σ) ++ map root_node ts.
Proof.
  induction ts as [|[n kids] ts IH]; intros us fuel σ Hts; simpl.
  - exists σ. by rewrite !app_nil_r.
  - apply Forall_cons in Hts as [Ht Hts].
    inversion Ht as [n' kids' Hkids]; subst.
    unfold bind at 1. simpl. unfold bind at 1.
    match goal with |- context [callFunc o ?s ?σ0] =>
      destruct (callFunc_ok s σ0) as (w & ->) end.
    simpl. unfold bind at 1.
    match goal with |- context [bfs_links o d (Links n) ?q ?σ1] =>
      destruct (bfs_links_tree d (Links n) kids q σ1 Hkids) as (σ2 & -> & Hv2)
    end.
    simpl. rewrite <- app_assoc.
    assert (Hq : states (int_add d 1) us ++ states (int_add d 1) kids
                 = states (int_add d 1) (us ++ kids))
      by (unfold states; by rewrite fmap_app).
    rewrite Hq. destruct (IH (us ++ kids) fuel σ2 Hts) as (σ3 & -> & Hv3).
    exists σ3. split; [by rewrite <- app_assoc|].
    rewrite Hv3, Hv2. simpl. unfold visit_nodes, visits. rewrite !omap_app.
    simpl. by rewrite !app_nil_r, <- app_assoc.
Qed.

Lemma level_flat_map (k : nat) (ts : list tree') :
  flat_map (level (S k)) ts = flat_map (level k) (flat_map subtrees ts).
Proof.
  induction ts as [|t ts IH]; [done|].
  change (flat_map (level (S k)) (t :: ts))
    with (level (S k) t ++ flat_map (level (S k)) ts).
  change (flat_map subtrees (t :: ts)) with (subtrees t ++ flat_map subtrees ts).
  by rewrite flat_map_app, IH.
Qed.

Lemma level_0 (ts : list tree') : flat_map (level 0) ts = map root_node ts.
Proof. induction ts as [|t ts IH]; [done|]. simpl. by rewrite <- IH. Qed.

Lemma levels_unfold (h : nat) (ts : list tree') :
  flat_map (λ k, flat_map (level k) ts) (seq 0 (S h))
  = map root_node ts
      ++ flat_map (λ k, flat_map (level k) (flat_map subtrees ts)) (seq 0 h).
Proof.
  change (seq 0 (S h)) with (0%nat :: seq 1 h).
  change (flat_map (λ k, flat_map (level k) ts) (0%nat :: seq 1 h))
    with (flat_map (level 0) ts ++ flat_map (λ k, flat_map (level k) ts) (seq 1 h)).
  rewrite level_0. f_equal.
  rewrite <- seq_shift, !flat_map_concat_map, map_map. f_equal.
  apply map_ext. intros k. rewrite <- !flat_map_concat_map.
  apply level_flat_map.
Qed.

Lemma sum_list_append (l1 l2 : list nat) :
  sum_list (l1 ++ l2) = (sum_list l1 + sum_list l2)%nat.
Proof. induction l1 as [|x l1 IH]; simpl; [done|]. rewrite IH. lia. Qed.

Lemma nodes_subtrees (ts : list tree') :
  sum_list (map nodes ts)
  = (length ts + sum_list (map nodes (flat_map subtrees ts)))%nat.
Proof.
  induction ts as [|[n kids] ts IH]; [done|]. simpl.
  rewrite map_app, sum_list_append, IH. lia.
Qed.

Lemma height_subtrees (h : nat) (ts : list tree') :
  Forall (λ t, height t ≤ S h)%nat ts →
  Forall (λ t, height t ≤ h)%nat (flat_map subtrees ts).
Proof.
  induction 1 as [|[n kids] ts Ht _ IH]; [constructor|]. simpl.
  apply Forall_app. split; [|done]. apply Forall_forall. intros k Hk.
  by eapply height_kids.
Qed.

Lemma resolves_subtrees (ts : list tree') :
  Forall (resolves o) ts → Forall (resolves o) (flat_map subtrees ts).
Proof.
  induction 1 as [|t ts Ht _ IH]; [constructor|]. simpl.
  apply Forall_app. split; [|done].
  inversion Ht as [n kids Hkids]; subst. simpl. clear Ht.
  induction Hkids as [|l k ls ks [_ Hk] _ IHk]; by constructor.
Qed.

Lemma bfs_loop_levels (h : nat) :
  ∀ ts d fuel σ, Forall (resolves o) ts →
    Forall (λ t, height t ≤ h)%nat ts →
    (sum_list (map nodes ts) ≤ fuel)%nat →
    ∃ σ', bfs_loop o fuel (states d ts) σ = Val None σ' ∧
      visit_nodes (trace σ')
      = visit_nodes (trace σ)
          ++ flat_map (λ k, flat_map (level k) ts) (seq 0 h).
Proof.
  induction h as [|h IH]; intros ts d fuel σ Hres Hh Hfuel.
  - destruct ts as [|[n kids] ts].
    + exists σ. simpl. split; [by destruct fuel|by rewrite app_nil_r].
    + apply Forall_cons in Hh as [Hh _]. simpl in Hh. lia.
  - rewrite nodes_subtrees in Hfuel.
    destruct (bfs_loop_sweep d ts [] (fuel - length ts) σ Hres)
      as (σ1 & Hrun & Hv1).
    replace (length ts + (fuel - length ts))%nat with fuel in Hrun by lia.
    simpl in Hrun. rewrite app_nil_r in Hrun. rewrite Hrun.
    destruct (IH (flat_map subtrees ts) (int_add d 1) (fuel - length ts)%nat σ1)
      as (σ2 & -> & Hv2);
      [by apply resolves_subtrees|by apply height_subtrees|lia|].
    exists σ2. split; [done|].
    by rewrite Hv2, Hv1, levels_unfold, <- app_assoc.
Qed.

Lemma height_le_nodes (t : tree') : (height t ≤ nodes t)%nat.
Proof.
  assert (H : ∀ h (t : tree'), (height t ≤ h)%nat → (height t ≤ nodes t)%nat);
    [|by apply (H (height t))].
  clear t. induction h as [|h IH]; intros [n kids] Hh; simpl in *; [lia|].
  apply le_n_S.
  assert (Hk : Forall (λ k, height k ≤ h)%nat kids).
  { apply Forall_forall. intros k Hk. by eapply (height_kids n kids). }
  clear Hh. induction Hk as [|k ks Hk _ IHk]; simpl; [lia|].
  specialize (IH k Hk). lia.
Qed.

End Orders.


(** C3. Without duplicate suppression, with a visitor that does not fail,
    over a graph without cycles all of whose links resolve (it unfolds
    below the root into the finite tree [t]), [Traverse] returns nil and the
    visitor has been handed: in pre-order each node and then the subtree of
    each of its children in link order; in post-order the subtree of each
    child in link order and then the node; breadth-first all nodes of depth
    0, then all of depth 1, and so on, left to right. *)
Theorem visit_order_without_suppression fuel (t : tree') o (w : W) :
  SkipDuplicates o = false →
  (∀ s (w : W), (Func o s w).1 = None) →
  resolves o t →
  (nodes t ≤ fuel)%nat →
  (Order_ o = DFSPre →
   ∃ σ, Traverse fuel (Some (root_node t)) o w = Val None σ ∧
     visit_nodes (trace σ) = preorder t) ∧
  (Order_ o = DFSPost →
   ∃ σ, Traverse fuel (Some (root_node t)) o w = Val None σ ∧
     visit_nodes (trace σ) = postorder t) ∧
  (Order_ o = BFS →
   ∃ σ, Traverse fuel (Some (root_node t)) o w = Val None σ ∧
     visit_nodes (trace σ) = levelorder t).
Proof.
  intros Hskip Hvis Hres Hfuel.
  pose proof (height_le_nodes t) as Hh.
  unfold Traverse, DFSPre, DFSPost, BFS. repeat split; intros Hord;
    rewrite Hord; simpl.
  - destruct (dfsPreTraverse_tree o Hskip Hvis fuel t 0 (init w) Hres)
      as (σ & -> & Hv); [lia|]. by exists σ.
  - destruct (dfsPostTraverse_tree o Hskip Hvis fuel t 0 (init w) Hres)
      as (σ & -> & Hv); [lia|]. by exists σ.
  - unfold bfsTraverse, bind, shouldSkip. rewrite Hskip. simpl.
    destruct (bfs_loop_levels o Hskip Hvis (height t) [t] 0 fuel (init w))
      as (σ & Hrun & Hv).
    + by repeat constructor.
    + by repeat constructor.
    + simpl. lia.
    + simpl in Hrun. rewrite Hrun. exists σ. split; [done|].
      rewrite Hv. simpl. unfold levelorder.
      apply flat_map_ext. intros k. by rewrite app_nil_r.
Qed.


(** ** Invariants of the store along the depth-first drivers *)

Section Invariant.
Variable o : Options'.
Variable I : store' → Prop.
Hypothesis I_getNode : ∀ l σ, I σ → I (final (getNode o l σ)).
Hypothesis I_callFunc : ∀ s σ, I σ → I (final (callFunc o s σ)).

Lemma dfsDescend_links_inv df d ls :
  (∀ s σ, I σ → I (final (df s σ))) →
  ∀ σ, I σ → I (final (dfsDescend_links o df d ls σ)).
Proof.
  intros Hdf. induction ls as [|l ls IH]; intros σ Hσ; simpl; [done|].
  unfold bind. pose proof (I_getNode l σ Hσ) as Hg.
  destruct (getNode o l σ) as [[node [e|]] σ1|σ1|σ1]; simpl in *; try done.
  destruct node as [n|]; [|by apply IH].
  pose proof (Hdf (mkState (Some n) (int_add d 1)) σ1 Hg) as Hn.
  destruct (df (mkState (Some n) (int_add d 1)) σ1) as [[e|] σ2|σ2|σ2];
    simpl in *; try done.
  by apply IH.
Qed.

Lemma dfsPreTraverse_inv fuel :
  ∀ s σ, I σ → I (final (dfsPreTraverse o fuel s σ)).
Proof.
  induction fuel as [|fuel IH]; intros s σ Hσ; simpl; [done|].
  unfold bind. pose proof (I_callFunc s σ Hσ) as Hc.
  destruct (callFunc o s σ) as [[e|] σ1|σ1|σ1]; simpl in *; try done.
  unfold dfsDescend. destruct (SNode s); [|done].
  by apply dfsDescend_links_inv.
Qed.

Lemma dfsPostTraverse_inv fuel :
  ∀ s σ, I σ → I (final (dfsPostTraverse o fuel s σ)).
Proof.
  induction fuel as [|fuel IH]; intros s σ Hσ; simpl; [done|].
  unfold bind, dfsDescend. destruct (SNode s) as [n|]; [|done].
  pose proof (dfsDescend_links_inv _ (Depth s) (Links n) IH σ Hσ) as Hd.
  destruct (dfsDescend_links o (dfsPostTraverse o fuel) (Depth s) (Links n) σ)
    as [[e|] σ1|σ1|σ1]; simpl in *; try done.
  by apply I_callFunc.
Qed.

End Invariant.

Lemma marks_follow_fetch_snoc tr ev :
  marks_follow_fetch tr → (∀ k, ev ≠ EvMark k) →
  marks_follow_fetch (tr ++ [ev]).
Proof.
  intros Htr Hev tr1 k tr2 Heq.
  destruct tr2 as [|x tr2 _] using rev_ind.
  - apply app_inj_tail in Heq as [_ ->]. by destruct (Hev k).
  - rewrite app_comm_cons, app_assoc in Heq.
    apply app_inj_tail in Heq as [Heq _]. by eapply Htr.
Qed.

Lemma marks_follow_fetch_mark tr l n :
  marks_follow_fetch tr →
  marks_follow_fetch ((tr ++ [EvFetch l (Some n, None)]) ++ [EvMark (Cid n)]).
Proof.
  intros Htr tr1 k tr2 Heq.
  destruct tr2 as [|x tr2 _] using rev_ind.
  - apply app_inj_tail in Heq as [<- [= <-]]. by exists tr, l, n.
  - rewrite app_comm_cons, app_assoc in Heq.
    apply app_inj_tail in Heq as [Heq _].
    by eapply (marks_follow_fetch_snoc tr (EvFetch l (Some n, None))).
Qed.

Lemma getNode_marks_follow_fetch o l σ :
  marks_follow_fetch (trace σ) →
  marks_follow_fetch (trace (final (getNode o l σ))).
Proof.
  intros Hσ.
  destruct (getNode_cases o l σ); simpl;
    try (by apply marks_follow_fetch_mark);
    repeat (apply marks_follow_fetch_snoc; [|done]); done.
Qed.

Lemma callFunc_marks_follow_fetch o s σ :
  marks_follow_fetch (trace σ) →
  marks_follow_fetch (trace (final (callFunc o s σ))).
Proof.
  intros Hσ. destruct (callFunc_eq o s σ) as (r & w & _ & ->). simpl.
  by apply marks_follow_fetch_snoc.
Qed.

(** In the depth-first orders the root is handed to the visitor without
    being marked: a mark only ever follows the fetch of a link. *)
Lemma dfs_marks_follow_fetch fuel (root : option Node') o (w : W) :
  Order_ o ≠ BFS →
  marks_follow_fetch (trace (final (Traverse fuel root o w))).
Proof.
  intros Hord.
  assert (Hinit : marks_follow_fetch (trace (init w : store'))).
  { intros tr1 k tr2 Heq. by destruct tr1. }
  unfold Traverse. repeat case_decide; try done.
  - apply (dfsPreTraverse_inv o (λ σ, marks_follow_fetch (trace σ)));
      auto using getNode_marks_follow_fetch, callFunc_marks_follow_fetch.
  - apply (dfsPostTraverse_inv o (λ σ, marks_follow_fetch (trace σ)));
      auto using getNode_marks_follow_fetch, callFunc_marks_follow_fetch.
  - apply (dfsPreTraverse_inv o (λ σ, marks_follow_fetch (trace σ)));
      auto using getNode_marks_follow_fetch, callFunc_marks_follow_fetch.
Qed.

(** Breadth-first with duplicate suppression, the first thing that happens
    is the mark of the root. *)
Lemma bfs_marks_root_first fuel n o (w : W) :
  SkipDuplicates o = true → Order_ o = BFS →
  ∃ tr, trace (final (Traverse fuel (Some n) o w)) = EvMark (Cid n) :: tr.
Proof.
  intros Hskip Hord. unfold Traverse, DFSPre, DFSPost, BFS. rewrite Hord. simpl.
  unfold bfsTraverse, bind. cbn [SNode].
  destruct (shouldSkip_cases o (Some n) (init w)) as [Hs|Hs Hn|n' Hs Hn Hin|n' Hs Hn Hin];
    try congruence.
  - simpl in Hin. set_solver.
  - injection Hn as <-. simpl.
    match goal with |- context [bfs_loop o fuel ?q ?σ1] =>
      destruct (bfs_loop_halts o fuel q σ1) as (ext & -> & _) end.
    simpl. by exists ext.
Qed.


Lemma times_app k tr1 tr2 :
  times k (tr1 ++ tr2 : list event') = (times k tr1 + times k tr2)%nat.
Proof.
  unfold times, visit_keys, visits.
  by rewrite omap_app, fmap_app, filter_app, length_app.
Qed.

(** C2, as amended.  With duplicate suppression on, an identifier inserted
    into the seen set is inserted only that once, and the visitor is handed
    a node with that identifier at most once in the whole traversal: this
    for every identifier when the order is breadth-first, and for every
    identifier other than the root's in the depth-first orders.  (A later
    link to such a node is still resolved through the node getter; the
    resolved node is then dropped.) *)
Theorem marked_identifier_visited_at_most_once fuel (root : option Node') o
    (w : W) tr1 k tr2 :
  SkipDuplicates o = true →
  trace (final (Traverse fuel root o w)) = tr1 ++ EvMark k :: tr2 →
  (k ∉ marks tr1) ∧ (k ∉ marks tr2) ∧
  (Order_ o = BFS ∨ Cid <$> root ≠ Some k →
   (times k tr1 + times k tr2 ≤ 1)%nat).
Proof.
  intros Hskip Htr.
  destruct (Traverse_licensed fuel root o w Hskip) as [[_ Hnd] _].
  destruct (suppression_bounds fuel root o w k Hskip) as [_ Hone].
  rewrite Htr in Hnd, Hone.
  unfold marks in Hnd. rewrite omap_app in Hnd. simpl in Hnd.
  apply NoDup_app in Hnd as (_ & Hdisj & Hnd2).
  apply NoDup_cons in Hnd2 as [Hk2 _].
  repeat split.
  - intros Hk1. apply (Hdisj k Hk1). by left.
  - done.
  - intros Hk. specialize (Hone Hk).
    rewrite times_app in Hone.
    change (EvMark k :: tr2) with ([EvMark k] ++ tr2) in Hone.
    rewrite times_app in Hone. by simpl in Hone.
Qed.


End Facts.

(** * The engine on concrete graphs *)

Import Concrete.

(** C1. The claim fails on the code in the depth-first orders.  On the
    two-node cycle (R links to A, A links back to R), with duplicate
    suppression on, [Traverse] hands the node with identifier R to the
    visitor twice, in pre-order and in post-order alike: the root is
    visited without being marked, so the link back to it is followed.
    Breadth-first, where [bfsTraverse] marks the root first, R is visited
    once. *)
Theorem root_visited_twice_depth_first :
  SkipDuplicates (opts cycle DFSPre true) = true ∧
  visit_keys (trace (final (Traverse 3 (root_of cycle "R")
                              (opts cycle DFSPre true) 0%nat)))
  = [Some "R"; Some "A"; Some "R"] ∧
  times "R" (trace (final (Traverse 3 (root_of cycle "R")
                             (opts cycle DFSPre true) 0%nat))) = 2%nat ∧
  times "R" (trace (final (Traverse 3 (root_of cycle "R")
                             (opts cycle DFSPost true) 0%nat))) = 2%nat ∧
  times "R" (trace (final (Traverse 3 (root_of cycle "R")
                             (opts cycle BFS true) 0%nat))) = 1%nat ∧
  (∃ σ, Traverse 3 (root_of cycle "R") (opts cycle DFSPre true) 0%nat
        = Val None σ).
Proof.
  repeat split; try (vm_compute; reflexivity). eexists. vm_compute. reflexivity.
Qed.

(** C2, as stated.  The invariant fails where R links to X twice: after X has
    been marked, X is handed to the visitor (the visit that the mark pays
    for) and the second link to X is resolved through the node getter. *)
Lemma never_again_fails :
  ¬ never_again (trace (final (Traverse 3 (root_of twice "R")
                                 (opts twice DFSPre true) 0%nat))).
Proof.
  intros H.
  destruct (H [EvVisit (mkState (Some (mkNode "R" ["X"; "X"])) 0) None;
               EvFetch "X" (Some (mkNode "X" []), None)]
              "X"
              [EvVisit (mkState (Some (mkNode "X" [])) 1) None;
               EvFetch "X" (Some (mkNode "X" []), None)])
    as [Hfetch _]; [vm_compute; reflexivity|].
  apply (Hfetch "X" (mkNode "X" []) None); [|reflexivity].
  apply list_elem_of_further, list_elem_of_here.
Qed.

(** C10. With duplicate suppression on: breadth-first, the root's
    identifier is marked before anything else happens and no identifier,
    the root's included, is visited twice, so links back to the root are
    skipped; in the depth-first orders a mark only ever follows the fetch
    of a link, so the visit of the root records nothing and the root's
    identifier may be visited a second time, but no more, any other
    identifier at most once.  Where R links to A and A links back to R
    twice, both depth-first orders fetch and visit R a second time through
    the first link back and skip the second; breadth-first skips both. *)
Theorem root_is_marked_only_breadth_first {Link W E : Type} fuel
    (n : Node Link) (o : Options Link W E) (w : W) :
  SkipDuplicates o = true →
  (Order_ o = BFS →
   (∃ tr, trace (final (Traverse fuel (Some n) o w)) = EvMark (Cid n) :: tr) ∧
   ∀ k, (times k (trace (final (Traverse fuel (Some n) o w))) ≤ 1)%nat) ∧
  (Order_ o ≠ BFS →
   marks_follow_fetch (trace (final (Traverse fuel (Some n) o w))) ∧
   (times (Cid n) (trace (final (Traverse fuel (Some n) o w))) ≤ 2)%nat ∧
   ∀ k, k ≠ Cid n →
     (times k (trace (final (Traverse fuel (Some n) o w))) ≤ 1)%nat) ∧
  (∀ ord, ord = DFSPre ∨ ord = DFSPost →
     let tr := trace (final (Traverse 5 (root_of back_to_root "R")
                               (opts back_to_root ord true) 0%nat)) in
     visit_keys tr = [Some "R"; Some "A"; Some "R"] ∧
     marks tr = ["A"; "R"] ∧ fetches tr = ["A"; "R"; "A"; "R"]) ∧
  (let tr := trace (final (Traverse 5 (root_of back_to_root "R")
                             (opts back_to_root BFS true) 0%nat)) in
   visit_keys tr = [Some "R"; Some "A"] ∧
   marks tr = ["R"; "A"] ∧ fetches tr = ["A"; "R"; "R"]).
Proof.
  intros Hskip. split; [|split; [|split]].
  - intros Hord. split; [by apply bfs_marks_root_first|].
    intros k. apply suppression_bounds; auto.
  - intros Hord. split; [by apply dfs_marks_follow_fetch|]. split.
    + by apply suppression_bounds.
    + intros k Hk. apply suppression_bounds; [done|]. right. simpl. congruence.
  - intros ord [-> | ->]; vm_compute; done.
  - vm_compute. done.
Qed.

(** * The theorems at work *)

(** C3 on the specification's example: R links to A then B, A links to C. *)
Lemma visit_order_without_suppression_witness :
  (∃ σ, Traverse 4 (Some nR) (opts diamondless DFSPre false) 0%nat = Val None σ ∧
     visit_nodes (trace σ) = [nR; nA; nC; nB]) ∧
  (∃ σ, Traverse 4 (Some nR) (opts diamondless DFSPost false) 0%nat = Val None σ ∧
     visit_nodes (trace σ) = [nC; nA; nB; nR]) ∧
  (∃ σ, Traverse 4 (Some nR) (opts diamondless BFS false) 0%nat = Val None σ ∧
     visit_nodes (trace σ) = [nR; nA; nB; nC]).
Proof.
  assert (Hres : ∀ ord, resolves (opts diamondless ord false) diamondless_tree).
  { intros ord. repeat (constructor || (intros; reflexivity)). }
  assert (Hfuel : (nodes diamondless_tree ≤ 4)%nat) by (simpl; lia).
  split; [|split].
  - destruct (visit_order_without_suppression 4 diamondless_tree
                (opts diamondless DFSPre false) 0%nat eq_refl
                (λ _ _, eq_refl) (Hres _) Hfuel) as (H & _ & _).
    exact (H eq_refl).
  - destruct (visit_order_without_suppression 4 diamondless_tree
                (opts diamondless DFSPost false) 0%nat eq_refl
                (λ _ _, eq_refl) (Hres _) Hfuel) as (_ & H & _).
    exact (H eq_refl).
  - destruct (visit_order_without_suppression 4 diamondless_tree
                (opts diamondless BFS false) 0%nat eq_refl
                (λ _ _, eq_refl) (Hres _) Hfuel) as (_ & _ & H).
    exact (H eq_refl).
Defined.

(** C4 with a visitor that fails on its second call. *)
Lemma visitor_error_stops_traversal_witness :
  length (calls (trace (final (Traverse 4 (root_of diamondless "R")
                                 (opts_failing diamondless DFSPre 2) 0%nat))))
  = 2%nat ∧
  ∃ σ, Traverse 4 (root_of diamondless "R")
         (opts_failing diamondless DFSPre 2) 0%nat
       = Val (Some (Outside "stop")) σ.
Proof.
  apply (visitor_error_stops_traversal 4 (root_of diamondless "R")
           (opts_failing diamondless DFSPre 2) 0%nat 1
           (mkState (Some nA) 1) "stop").
  vm_compute. reflexivity.
Defined.

(** C5 where the second link of the root does not resolve. *)
Lemma nil_ErrFunc_is_identity_recovery_witness :
  same_run (Traverse 4 (root_of broken "R") (opts broken DFSPre false) 0%nat)
           (Traverse 4 (root_of broken "R")
              (with_ErrFunc (Some keep_error) (opts broken DFSPre false)) 0%nat) ∧
  ∃ tr' σ,
    trace (final (Traverse 4 (root_of broken "R") (opts broken DFSPre false) 0%nat))
    = tr' ++ [EvFetch "X" (None, Some "not found: X")] ∧
    visits (trace (final (Traverse 4 (root_of broken "R")
                            (opts broken DFSPre false) 0%nat)))
    = visits tr' ∧
    Traverse 4 (root_of broken "R") (opts broken DFSPre false) 0%nat
    = Val (Some (Outside "not found: X")) σ.
Proof.
  destruct (nil_ErrFunc_is_identity_recovery 4 (root_of broken "R")
              (opts broken DFSPre false) 0%nat eq_refl) as [Hsame Hlast].
  split; [exact Hsame|]. apply Hlast. vm_compute. repeat constructor.
Defined.

(** C6 on the same graph, with a recovery function that skips and with one
    that escalates. *)
Lemma recovery_function_decides_witness :
  (∀ df σ,
     world σ = 0%nat →
     dfsDescend_links (opts_recovering broken DFSPre skip_errors) df 0
       ["X"; "B"] σ
     = dfsDescend_links (opts_recovering broken DFSPre skip_errors) df 0
         ["B"]
         (mkStore (seen σ) 0%nat
            ((trace σ ++ [EvFetch "X" (None, Some "not found: X")])
               ++ [EvRecover (Outside "not found: X") None]))) ∧
  ∃ tr' σ,
    trace (final (Traverse 4 (root_of broken "R")
                    (opts_recovering broken DFSPre escalate) 0%nat))
    = tr' ++ [EvRecover (Outside "not found: X") (Some (Outside "escalated"))] ∧
    Traverse 4 (root_of broken "R")
      (opts_recovering broken DFSPre escalate) 0%nat
    = Val (Some (Outside "escalated")) σ.
Proof.
  split.
  - intros df σ Hw.
    destruct (recovery_function_decides 4 (root_of broken "R")
                (opts_recovering broken DFSPre skip_errors) 0%nat skip_errors
                eq_refl) as (Hskip & _ & _).
    apply (Hskip df 0 "X" ["B"] [] σ None "not found: X" 0%nat 0%nat).
    + simpl. by rewrite Hw.
    + reflexivity.
  - destruct (recovery_function_decides 4 (root_of broken "R")
                (opts_recovering broken DFSPre escalate) 0%nat escalate
                eq_refl) as (_ & _ & Hlast).
    apply Hlast. vm_compute. repeat constructor.
Defined.

(** C8 with [Order = 7]. *)
Lemma unknown_order_is_DFSPre_witness :
  Traverse 4 (root_of diamondless "R") (opts diamondless 7 false) 0%nat
  = Traverse 4 (root_of diamondless "R")
      (with_Order DFSPre (opts diamondless 7 false)) 0%nat.
Proof.
  apply (unknown_order_is_DFSPre 4 (root_of diamondless "R")
           (opts diamondless 7 false) 0%nat); vm_compute; discriminate.
Defined.

(** C9 on the two-node cycle, post-order. *)
Lemma suppressed_traversal_terminates_witness :
  ∃ r σ, Traverse 3 (Some (mkNode "R" ["A"])) (opts cycle DFSPost true) 0%nat
         = Val r σ ∧
    NoDup (marks (trace σ)) ∧
    visit_keys (trace σ) ⊆+ Some "R" :: (Some <$> marks (trace σ)) ∧
    (length (marks (trace σ)) ≤ size ({["R"; "A"]} : gset string))%nat ∧
    (length (visits (trace σ)) ≤ size ({["R"; "A"]} : gset string) + 1)%nat.
Proof.
  apply (suppressed_traversal_terminates {["R"; "A"]} (opts cycle DFSPost true)
           (mkNode "R" ["A"]) 0%nat 3).
  - reflexivity.
  - intros l w w' n e. unfold opts, table. simpl.
    repeat case_decide; intros [= <- _ _]; simpl; set_solver.
  - intros l w w'. unfold opts, table. simpl. repeat case_decide; discriminate.
  - simpl. set_solver.
  - vm_compute. lia.
Defined.

(** C2, as amended, where R links to X twice. *)
Lemma marked_identifier_visited_at_most_once_witness :
  ("X" ∉ marks [EvVisit (mkState (Some (mkNode "R" ["X"; "X"])) 0) None;
                EvFetch "X" (Some (mkNode "X" []), None) : event string string]) ∧
  ("X" ∉ marks [EvVisit (mkState (Some (mkNode "X" [])) 1) None;
                EvFetch "X" (Some (mkNode "X" []), None) : event string string]) ∧
  (Order_ (opts twice DFSPre true) = BFS
   ∨ Cid <$> root_of twice "R" ≠ Some "X" →
   (times "X" [EvVisit (mkState (Some (mkNode "R" ["X"; "X"])) 0) None;
               EvFetch "X" (Some (mkNode "X" []), None) : event string string]
    + times "X" [EvVisit (mkState (Some (mkNode "X" [])) 1) None;
                 EvFetch "X" (Some (mkNode "X" []), None) : event string string]
    ≤ 1)%nat).
Proof.
  apply (marked_identifier_visited_at_most_once 3 (root_of twice "R")
           (opts twice DFSPre true) 0%nat).
  - reflexivity.
  - vm_compute. reflexivity.
Defined.

(** C10 where A links back to the root twice. *)
Lemma root_is_marked_only_breadth_first_witness :
  (times "R" (trace (final (Traverse 5 (Some (mkNode "R" ["A"]))
                              (opts back_to_root DFSPre true) 0%nat))) ≤ 2)%nat ∧
  ∃ tr, trace (final (Traverse 5 (Some (mkNode "R" ["A"]))
                        (opts back_to_root BFS true) 0%nat))
        = EvMark "R" :: tr.
Proof.
  split.
  - destruct (root_is_marked_only_breadth_first 5 (mkNode "R" ["A"])
                (opts back_to_root DFSPre true) 0%nat eq_refl)
      as (_ & Hdfs & _).
    destruct Hdfs as (_ & Htwice & _); [vm_compute; discriminate|].
    exact Htwice.
  - destruct (root_is_marked_only_breadth_first 5 (mkNode "R" ["A"])
                (opts back_to_root BFS true) 0%nat eq_refl)
      as (Hbfs & _).
    destruct Hbfs as [Hfirst _]; [reflexivity|]. exact Hfirst.
Defined.

(** * More on the engine *)

Section Engine_facts.
Context {Link W E : Type}.
Abbreviation Node' := (Node Link).
Abbreviation State' := (State Link).
Abbreviation error' := (error E).
Abbreviation event' := (event Link E).
Abbreviation store' := (store Link W E).
Abbreviation Options' := (Options Link W E).
Abbreviation outcome' := (outcome Link W E).
Implicit Types (o : Options') (σ : store') (l : Link) (n : Node')
  (s : State') (tr : list event').

(** ** Every step continues the trace *)

Lemma continues_refl σ : continues σ σ.
Proof. exists []. by rewrite app_nil_r. Qed.

Lemma continues_trans σ1 σ2 σ3 :
  continues σ1 σ2 → continues σ2 σ3 → continues σ1 σ3.
Proof.
  intros [e1 H1] [e2 H2]. exists (e1 ++ e2). by rewrite H2, H1, app_assoc.
Qed.

Lemma halts_continues {A} o (err : A → option error') σ (out : outcome' A) :
  halts o err σ out → continues σ (final out).
Proof. intros (ext & Htr & _). by exists ext. Qed.

(** ** Invariants along the three drivers

    [I] is kept by every step; [A s] is what a state needs before it is
    handed to the visitor, is granted by [getNode] to the node it returns
    and survives every later step. *)
Section Guarded.
Variable o : Options'.
Variable I : store' → Prop.
Variable A : State' → store' → Prop.
Hypothesis I_getNode : ∀ l σ, I σ → I (final (getNode o l σ)).
Hypothesis A_getNode : ∀ l σ n e σ' d,
  I σ → getNode o l σ = Val (Some n, e) σ' → A (mkState (Some n) d) σ'.
Hypothesis I_callFunc : ∀ s σ, I σ → A s σ → I (final (callFunc o s σ)).
Hypothesis I_dequeue : ∀ s σ, I σ → I (emit (EvDequeue s) σ).
Hypothesis I_shouldSkip : ∀ on σ, I σ → I (final (shouldSkip o on σ)).
Hypothesis A_continues : ∀ s σ σ', A s σ → continues σ σ' → A s σ'.

Lemma dfsDescend_links_guarded df d ls :
  (∀ s σ, I σ → A s σ → I (final (df s σ))) →
  ∀ σ, I σ → I (final (dfsDescend_links o df d ls σ)).
Proof.
  intros Hdf. induction ls as [|l ls IH]; intros σ Hσ; simpl; [done|].
  unfold bind. pose proof (I_getNode l σ Hσ) as Hg.
  pose proof (A_getNode l σ) as Ha.
  destruct (getNode o l σ) as [[node [e|]] σ1|σ1|σ1]; simpl in *; try done.
  destruct node as [n|]; [|by apply IH].
  pose proof (Hdf (mkState (Some n) (int_add d 1)) σ1 Hg
                (Ha n None σ1 _ Hσ eq_refl)) as Hn.
  destruct (df (mkState (Some n) (int_add d 1)) σ1) as [[e|] σ2|σ2|σ2];
    simpl in *; try done.
  by apply IH.
Qed.

Lemma dfsPreTraverse_guarded fuel :
  ∀ s σ, I σ → A s σ → I (final (dfsPreTraverse o fuel s σ)).
Proof.
  induction fuel as [|fuel IH]; intros s σ Hσ Hs; simpl; [done|].
  unfold bind. pose proof (I_callFunc s σ Hσ Hs) as Hc.
  destruct (callFunc o s σ) as [[e|] σ1|σ1|σ1]; simpl in *; try done.
  unfold dfsDescend. destruct (SNode s); [|done].
  by apply dfsDescend_links_guarded.
Qed.

Lemma dfsPostTraverse_guarded fuel :
  ∀ s σ, I σ → A s σ → I (final (dfsPostTraverse o fuel s σ)).
Proof.
  induction fuel as [|fuel IH]; intros s σ Hσ Hs; simpl; [done|].
  unfold bind, dfsDescend. destruct (SNode s) as [n|] eqn:Hn; [|done].
  pose proof (dfsDescend_links_guarded _ (Depth s) (Links n) IH σ Hσ) as Hd.
  pose proof (halts_continues _ _ _ _
    (dfsDescend_links_halts o _ (Depth s) (Links n)
       (dfsPostTraverse_halts o fuel) σ)) as Hext.
  destruct (dfsDescend_links o (dfsPostTraverse o fuel) (Depth s) (Links n) σ)
    as [[e|] σ1|σ1|σ1]; simpl in *; try done.
  apply I_callFunc; [done|]. by eapply A_continues.
Qed.

Lemma bfs_links_guarded d ls :
  ∀ q σ, I σ → Forall (λ s, A s σ) q →
    I (final (bfs_links o d ls q σ)) ∧
    ∀ q' e σ', bfs_links o d ls q σ = Val (q', e) σ' → Forall (λ s, A s σ') q'.
Proof.
  induction ls as [|l ls IH]; intros q σ Hσ Hq; simpl.
  - split; [done|]. unfold ret. by intros q' e σ' [= <- _ <-].
  - unfold bind. pose proof (I_getNode l σ Hσ) as Hg.
    pose proof (A_getNode l σ) as Ha.
    pose proof (halts_continues _ _ _ _ (getNode_halts o l σ)) as Hext.
    destruct (getNode o l σ) as [[node err] σ1|σ1|σ1]; simpl in *;
      try (split; [done|by intros]).
    assert (Hq1 : Forall (λ s, A s σ1) q).
    { eapply Forall_impl; [exact Hq|]. intros s Hs.
      exact (A_continues _ _ _ Hs Hext). }
    destruct err as [e|]; simpl.
    { split; [done|]. unfold ret. by intros q' e' σ' [= <- _ <-]. }
    destruct node as [n|]; apply IH; try done.
    apply Forall_app. split; [done|]. repeat constructor.
    by eapply (Ha n None σ1).
Qed.

Lemma bfs_loop_guarded fuel :
  ∀ q σ, I σ → Forall (λ s, A s σ) q → I (final (bfs_loop o fuel q σ)).
Proof.
  induction fuel as [|fuel IH]; intros [|curr q] σ Hσ Hq; simpl; try done.
  apply Forall_cons in Hq as [Hcurr Hq].
  unfold bind at 1. simpl.
  pose proof (I_dequeue curr σ Hσ) as Hσ0.
  assert (Hext0 : continues σ (emit (EvDequeue curr) σ)) by (by eexists).
  destruct (SNode curr) as [n|] eqn:Hn; [|done].
  unfold bind at 1.
  pose proof (I_callFunc curr _ Hσ0 (A_continues _ _ _ Hcurr Hext0)) as Hc.
  pose proof (halts_continues _ _ _ _
    (callFunc_halts o curr (emit (EvDequeue curr) σ))) as Hext1.
  destruct (callFunc o curr (emit (EvDequeue curr) σ)) as [[e|] σ1|σ1|σ1];
    simpl in *; try done.
  assert (Hq1 : Forall (λ s, A s σ1) q).
  { eapply Forall_impl; [exact Hq|]. intros s Hs.
    eapply A_continues; [exact Hs|]. by eapply continues_trans. }
  unfold bind.
  destruct (bfs_links_guarded (Depth curr) (Links n) q σ1 Hc Hq1) as [Hl Hq'].
  destruct (bfs_links o (Depth curr) (Links n) q σ1) as [[q' err] σ2|σ2|σ2];
    simpl in *; try done.
  destruct err as [e|]; simpl; [done|]. apply IH; [done|]. by eapply Hq'.
Qed.

Lemma bfsTraverse_guarded fuel s σ :
  I σ → A s σ → I (final (bfsTraverse o fuel s σ)).
Proof.
  intros Hσ Hs. unfold bfsTraverse, bind.
  pose proof (I_shouldSkip (SNode s) σ Hσ) as Hk.
  pose proof (halts_continues _ _ _ _ (shouldSkip_halts o (SNode s) σ)) as Hext.
  destruct (shouldSkip o (SNode s) σ) as [[skip err] σ1|σ1|σ1]; simpl in *;
    try done.
  destruct (skip || bool_decide (err ≠ None)); [done|].
  apply bfs_loop_guarded; [done|]. repeat constructor. by eapply A_continues.
Qed.

Lemma Traverse_guarded fuel (root : option Node') (w : W) :
  I (init w) → A (mkState root 0) (init w) →
  I (final (Traverse fuel root o w)).
Proof.
  intros Hi Ha. unfold Traverse. repeat case_decide;
    auto using dfsPreTraverse_guarded, dfsPostTraverse_guarded,
      bfsTraverse_guarded.
Qed.

End Guarded.

(** ** The visitor is handed the root and fetched nodes only *)

Lemma authorised_app (root : option Node') s tr ext :
  authorised root s tr → authorised root s (tr ++ ext).
Proof.
  intros [->|(l & n & Hn & Hin)]; [by left|]. right. exists l, n.
  split; [done|]. apply elem_of_app. by left.
Qed.

Lemma visits_authorised_snoc (root : option Node') tr ev :
  visits_authorised root tr →
  (∀ s r, ev = EvVisit s r → authorised root s tr) →
  visits_authorised root (tr ++ [ev]).
Proof.
  intros Htr Hev tr1 s r tr2 Heq.
  destruct tr2 as [|x tr2 _] using rev_ind.
  - apply app_inj_tail in Heq as [<- ->]. by eapply Hev.
  - rewrite app_comm_cons, app_assoc in Heq.
    apply app_inj_tail in Heq as [Heq _]. by eapply Htr.
Qed.

Lemma getNode_visits_authorised (root : option Node') o l σ :
  visits_authorised root (trace σ) →
  visits_authorised root (trace (final (getNode o l σ))).
Proof.
  intros Hσ.
  destruct (getNode_cases o l σ); simpl;
    repeat (apply visits_authorised_snoc; [|done]); done.
Qed.

Lemma getNode_authorises (root : option Node') o l σ n e σ' d :
  getNode o l σ = Val (Some n, e) σ' →
  authorised root (mkState (Some n) d) (trace σ').
Proof.
  intros Hg. right. exists l, n. split; [done|].
  destruct (getNode_cases o l σ); simplify_eq; simpl.
  - apply elem_of_app. right. by left.
  - apply elem_of_app. left. apply elem_of_app. right. by left.
Qed.

(** X4. Whatever the options, a state is handed to the visitor only if it
    is the root at depth 0 or its node was returned earlier by the node
    getter with a nil error; so with a non-nil root the visitor never
    receives the nil node. *)
Theorem visitor_sees_root_or_fetched_nodes fuel (root : option Node') o (w : W) :
  visits_authorised root (trace (final (Traverse fuel root o w))) ∧
  (is_Some root →
   Forall (λ s, SNode s ≠ None) (visits (trace (final (Traverse fuel root o w))))).
Proof.
  assert (Hall : visits_authorised root (trace (final (Traverse fuel root o w)))).
  { apply (Traverse_guarded o
             (λ σ, visits_authorised root (trace σ))
             (λ s σ, authorised root s (trace σ))).
    - intros l σ. apply getNode_visits_authorised.
    - intros l σ n e σ' d _. apply getNode_authorises.
    - intros s σ Hσ Hs. destruct (callFunc_eq o s σ) as (r & w' & _ & ->).
      simpl. apply visits_authorised_snoc; [done|]. by intros ? ? [= <- _].
    - intros s σ Hσ. simpl. by apply visits_authorised_snoc.
    - intros on σ Hσ. destruct (shouldSkip_cases o on σ); simpl; try done.
      by apply visits_authorised_snoc.
    - intros s σ σ' Hs [ext ->]. by apply authorised_app.
    - intros tr1 s r tr2 Heq. by destruct tr1.
    - by left. }
  split; [done|]. intros [n ->]. apply Forall_forall. intros s Hs.
  unfold visits in Hs. apply list_elem_of_omap in Hs as (ev & Hev & Hs').
  destruct ev; simplify_eq.
  apply list_elem_of_split in Hev as (tr1 & tr2 & Heq).
  destruct (Hall _ _ _ _ Heq) as [->|(l & n' & -> & _)]; done.
Qed.

(** ** With suppression off nothing is recorded *)

(** X3. With [SkipDuplicates] off the seen set stays empty for the whole
    traversal and no identifier is ever marked, in every order. *)
Theorem without_suppression_nothing_is_recorded fuel (root : option Node') o
    (w : W) :
  SkipDuplicates o = false →
  seen (final (Traverse fuel root o w)) = ∅ ∧
  marks (trace (final (Traverse fuel root o w))) = [].
Proof.
  intros Hskip.
  apply (Traverse_guarded o
           (λ σ, seen σ = ∅ ∧ marks (trace σ) = []) (λ _ _, True));
    try done.
  - intros l σ [Hs Hm].
    destruct (getNode_cases o l σ); simpl; try congruence;
      unfold marks in *; rewrite ?omap_app, Hm; done.
  - intros s σ [Hs Hm] _. destruct (callFunc_eq o s σ) as (r & w' & _ & ->).
    simpl. unfold marks in *. by rewrite omap_app, Hm.
  - intros s σ [Hs Hm]. simpl. unfold marks in *. by rewrite omap_app, Hm.
  - intros on σ [Hs Hm]. destruct (shouldSkip_cases o on σ); simpl;
      try done; congruence.
Qed.

(** ** When the recovery function is called *)

Lemma recovery_follows_failure_snoc o tr ev :
  recovery_follows_failure o tr →
  (∀ e r, ev ≠ EvRecover e r) →
  (ErrFunc o ≠ None → ∀ l rn e0, ev ≠ EvFetch l (rn, Some e0)) →
  recovery_follows_failure o (tr ++ [ev]).
Proof.
  intros [Hrec Hfail] Hev1 Hev2. split.
  - intros tr1 e r tr2 Heq.
    destruct tr2 as [|x tr2 _] using rev_ind.
    + apply app_inj_tail in Heq as [_ ->]. by destruct (Hev1 e r).
    + rewrite app_comm_cons, app_assoc in Heq.
      apply app_inj_tail in Heq as [Heq _]. by eapply Hrec.
  - intros Hf tr1 l rn e0 tr2 Heq.
    destruct tr2 as [|x tr2 _] using rev_ind.
    + apply app_inj_tail in Heq as [_ ->]. by destruct (Hev2 Hf l rn e0).
    + rewrite app_comm_cons, app_assoc in Heq.
      apply app_inj_tail in Heq as [Heq ->].
      destruct (Hfail Hf _ _ _ _ _ Heq) as (r & tr2' & Htr2).
      destruct tr2 as [|y tr2]; [done|]. injection Htr2 as -> ->.
      by exists r, (tr2' ++ [x]).
Qed.

Lemma recovery_follows_failure_pair o tr l rn e0 r :
  ErrFunc o ≠ None →
  recovery_follows_failure o tr →
  recovery_follows_failure o
    ((tr ++ [EvFetch l (rn, Some e0)]) ++ [EvRecover (Outside e0) r]).
Proof.
  intros Hf [Hrec Hfail]. split.
  - intros tr1 e r' tr2 Heq.
    destruct tr2 as [|x tr2 _] using rev_ind.
    + apply app_inj_tail in Heq as [<- [= <- <-]]. split; [done|].
      by exists tr, l, rn, e0.
    + rewrite app_comm_cons, app_assoc in Heq.
      apply app_inj_tail in Heq as [Heq _].
      destruct tr2 as [|y tr2 _] using rev_ind.
      * by apply app_inj_tail in Heq as [_ ?].
      * rewrite app_comm_cons, app_assoc in Heq.
        apply app_inj_tail in Heq as [Heq _]. by eapply Hrec.
  - intros _ tr1 l' rn' e0' tr2 Heq.
    destruct tr2 as [|x tr2 _] using rev_ind.
    + by apply app_inj_tail in Heq as [_ ?].
    + rewrite app_comm_cons, app_assoc in Heq.
      apply app_inj_tail in Heq as [Heq <-].
      destruct tr2 as [|y tr2 _] using rev_ind.
      * apply app_inj_tail in Heq as [_ [= <- <- <-]]. by exists r, [].
      * rewrite app_comm_cons, app_assoc in Heq.
        apply app_inj_tail in Heq as [Heq <-].
        destruct (Hfail Hf _ _ _ _ _ Heq) as (r0 & tr2' & Htr2).
        destruct tr2 as [|z tr2]; [done|]. injection Htr2 as -> ->.
        exists r0, ((tr2' ++ [EvFetch l (rn, Some e0)])
                      ++ [EvRecover (Outside e0) r]).
        by rewrite <- !app_assoc.
Qed.

(** X5. The recovery function is called right after a fetch has failed, on
    the error of that very fetch, and at no other moment; when a recovery
    function is installed every failed fetch is at once followed by its
    call. *)
Theorem recovery_called_on_failed_fetches fuel (root : option Node') o (w : W) :
  recovery_follows_failure o (trace (final (Traverse fuel root o w))).
Proof.
  apply (Traverse_guarded o
           (λ σ, recovery_follows_failure o (trace σ)) (λ _ _, True));
    try done.
  - intros l σ Hσ.
    destruct (getNode_cases o l σ) as
      [r e w' Hd Hf|r e w' f r' w'' Hd Hf Hr|r w' Hd Hs|w' Hd Hs|n w' Hd Hs Hin
      |n w' Hd Hs Hin]; simpl.
    + apply recovery_follows_failure_snoc; [done|done|]. by intros.
    + apply recovery_follows_failure_pair; [congruence|done].
    + by apply recovery_follows_failure_snoc.
    + by apply recovery_follows_failure_snoc.
    + by apply recovery_follows_failure_snoc.
    + do 2 (apply recovery_follows_failure_snoc; [|done|done]). done.
  - intros s σ Hσ _. destruct (callFunc_eq o s σ) as (r & w' & _ & ->).
    simpl. by apply recovery_follows_failure_snoc.
  - intros s σ Hσ. simpl. by apply recovery_follows_failure_snoc.
  - intros on σ Hσ. destruct (shouldSkip_cases o on σ); simpl; try done.
    by apply recovery_follows_failure_snoc.
  - split; [|intros _]; intros tr1; intros; by destruct tr1.
Qed.


(** ** What [getNode] and [shouldSkip] hand back *)

(** X1. [getNode] never returns a node together with an error, and a node
    it returns is the node the getter returned for that link with a nil
    error: a node that comes with an error is dropped. *)
Theorem getNode_returns_only_fetched_nodes o l σ n e σ' :
  getNode o l σ = Val (Some n, e) σ' →
  e = None ∧ ∃ w' : W, DAG o l (world σ) = ((Some n, None), w').
Proof.
  intros Hg. destruct (getNode_cases o l σ); simplify_eq; eauto.
Qed.

(** X2. With suppression on, [shouldSkip] never returns an error, answers
    "skip" exactly when the identifier is already in the seen set, leaves
    the identifier in the seen set, and from then on answers "skip" for
    every node with that identifier without changing the store. *)
Theorem shouldSkip_records_then_skips o n n' σ (b : bool) e σ' :
  SkipDuplicates o = true → Cid n' = Cid n →
  shouldSkip o (Some n) σ = Val (b, e) σ' →
  e = None ∧ (b = true ↔ Cid n ∈ seen σ) ∧
  seen σ' = {[Cid n]} ∪ seen σ ∧
  shouldSkip o (Some n') σ' = Val (true, None) σ'.
Proof.
  intros Hskip Hcid Hs.
  assert (Hagain : ∀ τ : store', Cid n ∈ seen τ →
            shouldSkip o (Some n') τ = Val (true, None) τ).
  { intros τ Hin. unfold shouldSkip. rewrite Hskip, Hcid.
    by rewrite decide_True. }
  destruct (shouldSkip_cases o (Some n) σ) as [?|? ?|m ? Hm Hin|m ? Hm Hin];
    try congruence; simplify_eq.
  - split; [done|]. split; [done|]. split; [set_solver|]. by apply Hagain.
  - split; [done|]. split; [by split|]. split; [done|].
    apply Hagain. simpl. set_solver.
Qed.

(** ** The root comes first, or last *)

Lemma calls_app tr1 tr2 :
  calls (tr1 ++ tr2 : list event') = calls tr1 ++ calls tr2.
Proof. unfold calls. by rewrite omap_app. Qed.

Lemma first_call_shape s (r : option E) tr0 ext c rest :
  calls tr0 = [] →
  calls ((tr0 ++ [EvVisit s r]) ++ ext : list event') = c :: rest → c.1 = s.
Proof.
  intros Hnil Hc. rewrite !calls_app, Hnil in Hc. simpl in Hc.
  by injection Hc as <- _.
Qed.

Lemma dfsPreTraverse_first_call o fuel s σ c rest :
  calls (trace σ) = [] →
  calls (trace (final (dfsPreTraverse o fuel s σ))) = c :: rest → c.1 = s.
Proof.
  intros Hnil. destruct fuel as [|fuel]; simpl; [by rewrite Hnil|].
  unfold bind. destruct (callFunc_eq o s σ) as (r & w' & _ & ->).
  destruct r as [e|]; simpl.
  - intros Hc. apply (first_call_shape s (Some e) (trace σ) [] c rest Hnil).
    by rewrite app_nil_r.
  - match goal with |- context [dfsDescend o ?df s ?σ1] =>
      destruct (halts_continues _ _ _ _
        (dfsDescend_halts o df s (dfsPreTraverse_halts o fuel) σ1))
        as [ext ->] end.
    simpl. by apply first_call_shape.
Qed.

Lemma bfs_loop_first_call o fuel curr q σ c rest :
  calls (trace σ) = [] →
  calls (trace (final (bfs_loop o fuel (curr :: q) σ))) = c :: rest →
  c.1 = curr.
Proof.
  intros Hnil. destruct fuel as [|fuel]; simpl; [by rewrite Hnil|].
  assert (Hnil0 : calls (trace σ ++ [EvDequeue curr]) = [])
    by (by rewrite calls_app, Hnil).
  unfold bind at 1. simpl. destruct (SNode curr) as [n|]; simpl;
    [|by rewrite Hnil0].
  unfold bind at 1.
  destruct (callFunc_eq o curr (emit (EvDequeue curr) σ)) as (r & w' & _ & ->).
  destruct r as [e|]; simpl.
  - intros Hc. apply (first_call_shape curr (Some e) _ [] c rest Hnil0).
    by rewrite app_nil_r.
  - match goal with |- context [bind ?m ?f ?σ1] =>
      assert (Hh : halts o id σ1 (bind m f σ1)) end.
    { apply (halts_bind o snd); [apply bfs_links_halts|].
      intros [q' [e|]] σ3 _; simpl; [by eexists|apply bfs_loop_halts]. }
    destruct (halts_continues _ _ _ _ Hh) as [ext ->]. simpl.
    by apply first_call_shape.
Qed.

(** X7. In pre-order and breadth-first the first state handed to the
    visitor is the root at depth 0; in post-order a traversal that returns
    nil has handed the root at depth 0 to the visitor as its very last
    step. *)
Theorem root_is_visited_first_or_last fuel (root : option Node') o (w : W) :
  (Order_ o ≠ DFSPost →
   ∀ c rest, calls (trace (final (Traverse fuel root o w))) = c :: rest →
     c.1 = mkState root 0) ∧
  (Order_ o = DFSPost →
   ∀ σ, Traverse fuel root o w = Val None σ →
     ∃ tr, trace σ = tr ++ [EvVisit (mkState root 0) None]).
Proof.
  split.
  - intros Hord c rest. unfold Traverse. repeat case_decide; try done;
      try (by apply dfsPreTraverse_first_call).
    unfold bfsTraverse, bind.
    destruct (shouldSkip_cases o (SNode (mkState root 0)) (init w))
      as [?|? ?|m ? ? ?|m ? ? ?]; simpl; try done;
      by apply bfs_loop_first_call.
  - intros Hord σ. unfold Traverse, DFSPre, DFSPost. rewrite Hord. simpl.
    destruct fuel as [|fuel]; [done|]. simpl. unfold bind.
    destruct (dfsDescend o (dfsPostTraverse o fuel) (mkState root 0) (init w))
      as [[e|] σ1|σ1|σ1]; try done.
    destruct (callFunc_eq o (mkState root 0) σ1) as (r & w' & _ & ->).
    destruct r; intros [= <-]. by eexists.
Qed.

(** X11. The nil root.  Breadth-first without suppression the loop dequeues
    the nil node and returns the internal error, the visitor not called;
    with suppression [shouldSkip] panics at once.  Post-order panics before
    any call.  Pre-order hands the nil node to the visitor, returns the
    visitor's error if there is one and panics otherwise. *)
Theorem nil_root fuel o (w : W) :
  (Order_ o = BFS → SkipDuplicates o = false →
   Traverse (S fuel) None o w
   = Val (Some errDequeue) (mkStore ∅ w [EvDequeue (mkState None 0)])) ∧
  (Order_ o = BFS → SkipDuplicates o = true →
   Traverse fuel None o w = Crash (init w)) ∧
  (Order_ o = DFSPost → Traverse (S fuel) None o w = Crash (init w)) ∧
  (Order_ o = DFSPre →
   ∃ r w', Func o (mkState None 0) w = (r, w') ∧
     Traverse (S fuel) None o w
     = match r with
       | Some e =>
           Val (Some (Outside e)) (mkStore ∅ w' [EvVisit (mkState None 0) r])
       | None => Crash (mkStore ∅ w' [EvVisit (mkState None 0) r])
       end).
Proof.
  unfold Traverse, DFSPre, DFSPost, BFS.
  split; [|split; [|split]]; intros Hord; rewrite Hord; simpl.
  - intros Hskip. unfold bfsTraverse, bind, shouldSkip. by rewrite Hskip.
  - intros Hskip. unfold bfsTraverse, bind, shouldSkip. by rewrite Hskip.
  - done.
  - unfold bind. destruct (callFunc_eq o (mkState None 0) (init w))
      as (r & w' & Hf & ->). exists r, w'. split; [done|]. by destruct r.
Qed.

(** ** No run-time panic *)

Section Safe.
Variable o : Options'.
Hypothesis sound : SkipDuplicates o = false ∨ answers o.

Lemma getNode_no_panic l σ : no_panic (getNode o l σ).
Proof.
  destruct (getNode_cases o l σ) as
    [r e w' Hd Hf|r e w' f r' w'' Hd Hf Hr|r w' Hd Hs|w' Hd Hs|n w' Hd Hs Hin
    |n w' Hd Hs Hin]; try done.
  destruct sound as [?|Hans]; [congruence|]. by apply Hans in Hd.
Qed.

Lemma dfsDescend_links_no_panic df d ls :
  (∀ s σ, SNode s ≠ None → no_panic (df s σ)) →
  ∀ σ, no_panic (dfsDescend_links o df d ls σ).
Proof.
  intros Hdf. induction ls as [|l ls IH]; intros σ; simpl; [done|].
  unfold bind. pose proof (getNode_no_panic l σ) as Hg.
  destruct (getNode o l σ) as [[node [e|]] σ1|σ1|σ1]; try done.
  destruct node as [n|]; [|apply IH].
  pose proof (Hdf (mkState (Some n) (int_add d 1)) σ1) as Hn.
  destruct (df (mkState (Some n) (int_add d 1)) σ1) as [[e|] σ2|σ2|σ2];
    first [done|apply IH|by apply Hn].
Qed.

Lemma callFunc_no_panic s σ : no_panic (callFunc o s σ).
Proof. by destruct (callFunc_eq o s σ) as (r & w' & _ & ->). Qed.

Lemma dfsPreTraverse_no_panic fuel :
  ∀ s σ, SNode s ≠ None → no_panic (dfsPreTraverse o fuel s σ).
Proof.
  induction fuel as [|fuel IH]; intros s σ Hs; simpl; [done|].
  unfold bind. destruct (callFunc_eq o s σ) as (r & w' & _ & ->).
  destruct r; simpl; [done|]. unfold dfsDescend.
  destruct (SNode s); [|done]. by apply dfsDescend_links_no_panic.
Qed.

Lemma dfsPostTraverse_no_panic fuel :
  ∀ s σ, SNode s ≠ None → no_panic (dfsPostTraverse o fuel s σ).
Proof.
  induction fuel as [|fuel IH]; intros s σ Hs; simpl; [done|].
  unfold bind, dfsDescend. destruct (SNode s) as [n|]; [|done].
  pose proof (dfsDescend_links_no_panic _ (Depth s) (Links n) IH σ) as Hd.
  destruct (dfsDescend_links o (dfsPostTraverse o fuel) (Depth s) (Links n) σ)
    as [[e|] σ1|σ1|σ1]; try done. apply callFunc_no_panic.
Qed.

Lemma bfs_links_no_panic d ls :
  ∀ q σ, Forall (λ s, SNode s ≠ None) q →
    no_panic (bfs_links o d ls q σ) ∧
    ∀ q' e σ', bfs_links o d ls q σ = Val (q', e) σ' →
      Forall (λ s, SNode s ≠ None) q'.
Proof.
  induction ls as [|l ls IH]; intros q σ Hq; simpl.
  - split; [done|]. unfold ret. by intros q' e σ' [= <- _ _].
  - unfold bind. pose proof (getNode_no_panic l σ) as Hg.
    destruct (getNode o l σ) as [[node [e|]] σ1|σ1|σ1]; try done.
    + split; [done|]. unfold ret. by intros q' e' σ' [= <- _ _].
    + destruct node as [n|]; apply IH; [|done].
      apply Forall_app. split; [done|]. by repeat constructor.
Qed.

Lemma bfs_loop_no_panic fuel :
  ∀ q σ, Forall (λ s, SNode s ≠ None) q → no_panic (bfs_loop o fuel q σ).
Proof.
  induction fuel as [|fuel IH]; intros [|curr q] σ Hq; simpl; try done.
  apply Forall_cons in Hq as [Hcurr Hq].
  unfold bind at 1. simpl. destruct (SNode curr) as [n|]; [|done].
  unfold bind at 1.
  destruct (callFunc_eq o curr (emit (EvDequeue curr) σ)) as (r & w' & _ & ->).
  destruct r; simpl; [done|]. unfold bind.
  match goal with |- context [bfs_links o ?d ?ls q ?σ1] =>
    destruct (bfs_links_no_panic d ls q σ1 Hq) as [Hl Hq'];
    destruct (bfs_links o d ls q σ1) as [[q' [e|]] σ2|σ2|σ2]; try done
  end.
  apply IH. by eapply Hq'.
Qed.

End Safe.

(** X12. With a non-nil root, [Traverse] ends in no run-time panic when
    suppression is off, or when the getter always returns a node or an
    error: no method is ever called on the nil node. *)
Theorem traversal_does_not_panic fuel n o (w : W) :
  SkipDuplicates o = false ∨ answers o →
  no_panic (Traverse fuel (Some n) o w).
Proof.
  intros Hsound. unfold Traverse. repeat case_decide;
    try (by apply dfsPreTraverse_no_panic);
    try (by apply dfsPostTraverse_no_panic).
  unfold bfsTraverse, bind. cbn [SNode].
  destruct (shouldSkip_cases o (Some n) (init w)) as [?|? ?|m ? ? ?|m ? ? ?];
    simpl; try done;
    (apply bfs_loop_no_panic; [done|]; constructor; [done|constructor]).
Qed.


(** ** Breadth-first: visits by depth *)

Lemma wrap64_small z : - 2 ^ 63 ≤ z < 2 ^ 63 → wrap64 z = z.
Proof. intros Hz. unfold wrap64. rewrite Z.mod_small; lia. Qed.

Lemma nondecreasing_nil : nondecreasing [].
Proof. by intros i j x y _ Hi. Qed.

Lemma nondecreasing_cons x ds :
  Forall (λ y, x ≤ y) ds → nondecreasing ds → nondecreasing (x :: ds).
Proof.
  intros Hx Hds [|i] [|j] a b Hij Ha Hb; simpl in *; simplify_eq; try lia.
  - rewrite Forall_lookup in Hx. by apply (Hx j).
  - apply (Hds i j); [lia|done|done].
Qed.

Lemma nondecreasing_app ds1 ds2 :
  nondecreasing ds1 → nondecreasing ds2 →
  (∀ x y, x ∈ ds1 → y ∈ ds2 → x ≤ y) → nondecreasing (ds1 ++ ds2).
Proof.
  intros H1 H2 H12 i j x y Hij Hi Hj.
  apply lookup_app_Some in Hi as [Hi|[Hi1 Hi]];
    apply lookup_app_Some in Hj as [Hj|[Hj1 Hj]].
  - by apply (H1 i j).
  - apply H12; by eapply list_elem_of_lookup_2.
  - apply lookup_lt_Some in Hj. lia.
  - apply (H2 (i - length ds1)%nat (j - length ds1)%nat); [lia|done|done].
Qed.

Lemma getNode_visits o l σ :
  visits (trace (final (getNode o l σ))) = visits (trace σ).
Proof.
  destruct (getNode_cases o l σ); simpl; unfold visits;
    rewrite ?omap_app; simpl; by rewrite ?app_nil_r.
Qed.

Lemma bfs_links_pushes o d ls :
  ∀ q σ,
    visits (trace (final (bfs_links o d ls q σ))) = visits (trace σ) ∧
    ∀ q' e σ', bfs_links o d ls q σ = Val (q', e) σ' →
      ∃ kids, q' = q ++ kids ∧ Forall (λ s, Depth s = int_add d 1) kids.
Proof.
  induction ls as [|l ls IH]; intros q σ; simpl.
  - split; [done|]. unfold ret. intros q' e σ' [= <- _ _]. exists [].
    by rewrite app_nil_r.
  - unfold bind. pose proof (getNode_visits o l σ) as Hg.
    destruct (getNode o l σ) as [[node [e|]] σ1|σ1|σ1]; simpl in *;
      try (split; [done|by intros]).
    + split; [done|]. unfold ret. intros q' e' σ' [= <- _ _]. exists [].
      by rewrite app_nil_r.
    + rewrite <- Hg. destruct node as [n|]; [|apply IH].
      destruct (IH (q ++ [mkState (Some n) (int_add d 1)]) σ1) as [Hv Hq].
      split; [done|]. intros q' e' σ' Heq.
      destruct (Hq q' e' σ' Heq) as (kids & -> & Hkids).
      exists (mkState (Some n) (int_add d 1) :: kids).
      split; [by rewrite <- app_assoc|]. by constructor.
Qed.

Lemma bfs_loop_by_depth o fuel :
  ∀ q σ d, two_level d q → 0 ≤ d → d + Z.of_nat fuel < 2 ^ 63 - 1 →
    ∃ ds, Depth <$> visits (trace (final (bfs_loop o fuel q σ)))
          = (Depth <$> visits (trace σ)) ++ ds ∧
      Forall (λ x, d ≤ x) ds ∧ nondecreasing ds.
Proof.
  assert (Hstop : ∀ σ d, ∃ ds,
    Depth <$> visits (trace σ) = (Depth <$> visits (trace σ)) ++ ds ∧
    Forall (λ x, d ≤ x) ds ∧ nondecreasing ds).
  { intros σ d. exists []. rewrite app_nil_r.
    split; [done|]. split; [constructor|apply nondecreasing_nil]. }
  induction fuel as [|fuel IH]; intros [|curr q] σ d Hq Hd Hfuel; simpl;
    try apply Hstop.
  assert (Hcurr : d ≤ Depth curr ≤ d + 1 ∧ two_level (Depth curr) (curr :: q)).
  { destruct Hq as (q1 & q2 & Heq & H1 & H2). destruct q1 as [|c q1].
    - simpl in Heq. subst q2. apply Forall_cons in H2 as [Hc H2].
      split; [lia|]. exists (curr :: q), []. rewrite app_nil_r.
      split; [done|]. split; [|constructor].
      constructor; [done|]. eapply Forall_impl; [exact H2|].
      intros s Hs. simpl in Hs. lia.
    - injection Heq as <- ->. apply Forall_cons in H1 as [Hc H1].
      split; [lia|]. exists (curr :: q1), q2. split; [done|].
      split; [|by rewrite Hc]. constructor; [done|].
      eapply Forall_impl; [exact H1|]. intros s Hs. simpl in Hs. lia. }
  destruct Hcurr as [Hrange Hlev]. clear Hq.
  unfold bind at 1. simpl.
  assert (Hv0 : visits (trace σ ++ [EvDequeue curr]) = visits (trace σ)).
  { unfold visits. rewrite omap_app. simpl. by rewrite app_nil_r. }
  destruct (SNode curr) as [n|] eqn:Hn; simpl.
  2:{ rewrite Hv0. apply Hstop. }
  unfold bind at 1.
  destruct (callFunc_eq o curr (emit (EvDequeue curr) σ)) as (r & w' & _ & ->).
  assert (Hv1 :
    Depth <$> visits ((trace σ ++ [EvDequeue curr]) ++ [EvVisit curr r])
    = (Depth <$> visits (trace σ)) ++ [Depth curr]).
  { unfold visits in *. rewrite omap_app, Hv0. simpl. by rewrite fmap_app. }
  assert (Hone : ∀ tr,
    Depth <$> visits tr = (Depth <$> visits (trace σ)) ++ [Depth curr] →
    ∃ ds, Depth <$> visits tr = (Depth <$> visits (trace σ)) ++ ds ∧
      Forall (λ x, d ≤ x) ds ∧ nondecreasing ds).
  { intros tr Hτ. exists [Depth curr]. split; [done|].
    split; [repeat constructor; lia|].
    apply nondecreasing_cons; [constructor|apply nondecreasing_nil]. }
  destruct r as [e|]; simpl; [by apply Hone|].
  unfold bind.
  match goal with |- context [bfs_links o ?d1 ?ls q ?σ1] =>
    destruct (bfs_links_pushes o d1 ls q σ1) as [Hvl Hpush];
    destruct (bfs_links o d1 ls q σ1) as [[q' [e|]] σ2|σ2|σ2]; simpl in *;
      try (apply Hone; by rewrite Hvl)
  end.
  destruct (Hpush q' None σ2 eq_refl) as (kids & -> & Hkids).
  unfold int_add in Hkids. rewrite wrap64_small in Hkids by lia.
  destruct (IH (q ++ kids) σ2 (Depth curr)) as (ds & Hds & Hge & Hsorted).
  - destruct Hlev as (q1 & q2 & Heq & H1 & H2). destruct q1 as [|c q1].
    + simpl in Heq. subst q2. apply Forall_cons in H2 as [Hc _]. lia.
    + injection Heq as <- ->. apply Forall_cons in H1 as [_ H1].
      exists q1, (q2 ++ kids). split; [by rewrite app_assoc|].
      split; [done|]. by apply Forall_app.
  - lia.
  - lia.
  - exists (Depth curr :: ds). rewrite Hds, Hvl, Hv1, <- app_assoc.
    split; [done|]. split.
    + constructor; [lia|]. eapply Forall_impl; [exact Hge|].
      intros x Hx. simpl in Hx. lia.
    + by apply nondecreasing_cons.
Qed.

(** X6. Breadth-first, whatever the graph, the options and the failures,
    the visitor is handed states in order of depth: the depths of the
    successive visits never decrease and start at 0 (as long as fewer than
    2^63 - 1 states are dequeued, so that [Depth + 1] does not wrap). *)
Theorem bfs_visits_in_depth_order fuel (root : option Node') o (w : W) :
  Order_ o = BFS → Z.of_nat fuel < 2 ^ 63 - 1 →
  nondecreasing (Depth <$> visits (trace (final (Traverse fuel root o w)))) ∧
  Forall (λ d, 0 ≤ d) (Depth <$> visits (trace (final (Traverse fuel root o w)))).
Proof.
  intros Hord Hfuel. unfold Traverse, DFSPre, DFSPost, BFS. rewrite Hord. simpl.
  assert (Hloop : ∀ σ : store', visits (trace σ) = [] →
    nondecreasing (Depth <$> visits (trace (final
       (bfs_loop o fuel [mkState root 0] σ)))) ∧
    Forall (λ d, 0 ≤ d) (Depth <$> visits (trace (final
       (bfs_loop o fuel [mkState root 0] σ))))).
  { intros σ Hnil.
    destruct (bfs_loop_by_depth o fuel [mkState root 0] σ 0)
      as (ds & -> & Hge & Hsorted); [|lia|lia|by rewrite Hnil].
    exists [mkState root 0], []. split; [done|].
    split; [by repeat constructor|constructor]. }
  unfold bfsTraverse, bind.
  destruct (shouldSkip_cases o (SNode (mkState root 0)) (init w))
    as [?|? ?|m ? ? ?|m ? ? ?]; simpl;
    try (split; [apply nondecreasing_nil|constructor]);
    by apply Hloop.
Qed.


(** ** On success every mark has had its visit *)

Lemma settled_refl σ : settled [] [] σ σ.
Proof. exists [], []. by rewrite !app_nil_r. Qed.

Lemma settled_trans p c c' σ1 σ2 σ3 :
  settled p c σ1 σ2 → settled c c' σ2 σ3 → settled p c' σ1 σ3.
Proof.
  intros (ms1 & vs1 & Hm1 & Hv1 & H1) (ms2 & vs2 & Hm2 & Hv2 & H2).
  exists (ms1 ++ ms2), (vs1 ++ vs2).
  rewrite Hm2, Hm1, Hv2, Hv1, !app_assoc. repeat split.
  rewrite fmap_app, <- !app_assoc. rewrite H2.
  by rewrite !app_assoc, H1.
Qed.

Lemma settled_frame p c r σ σ' :
  settled p c σ σ' → settled (p ++ r) (c ++ r) σ σ'.
Proof.
  intros (ms & vs & Hm & Hv & H). exists ms, vs. repeat split; try done.
  rewrite app_assoc, H, <- !app_assoc. f_equiv. apply Permutation_app_comm.
Qed.

Lemma settled_frame_nil r c σ σ' :
  settled [] c σ σ' → settled r (c ++ r) σ σ'.
Proof. apply (settled_frame [] c r). Qed.

Lemma settled_perm p p' c c' σ σ' :
  p ≡ₚ p' → c ≡ₚ c' → settled p c σ σ' → settled p' c' σ σ'.
Proof.
  intros Hp Hc (ms & vs & Hm & Hv & H). exists ms, vs.
  repeat split; try done. by rewrite <- Hp, <- Hc.
Qed.

Lemma settled_quiet σ ev (w : W) :
  quiet ev → settled [] [] σ (mkStore (seen σ) w (trace σ ++ [ev])).
Proof.
  intros Hq. exists [], []. unfold visit_keys, visits, marks. simpl.
  rewrite !omap_app, fmap_app.
  destruct ev; simpl in *; try done; by rewrite !app_nil_r.
Qed.

Lemma settled_mark σ k (w : W) (sn : gset string) :
  settled [] [Some k] σ (mkStore sn w (trace σ ++ [EvMark k])).
Proof.
  exists [k], []. unfold visit_keys, visits, marks. simpl.
  rewrite !omap_app, fmap_app. simpl. by rewrite !app_nil_r.
Qed.

Lemma settled_visit σ s r (w : W) :
  settled [key_of s] [] σ (mkStore (seen σ) w (trace σ ++ [EvVisit s r])).
Proof.
  exists [], [key_of s]. unfold visit_keys, visits, marks. simpl.
  rewrite !omap_app, fmap_app. simpl. by rewrite !app_nil_r.
Qed.

Lemma on_success_trans p c c' σ σ1 (out : outcome' (option error')) :
  settled p c σ σ1 → on_success (settled c c' σ1) out →
  on_success (settled p c' σ) out.
Proof.
  intros H1. destruct out as [[e|] σ2|σ2|σ2]; simpl; try done.
  by apply settled_trans.
Qed.

Section Settled.
Variable o : Options'.
Hypothesis skipping : SkipDuplicates o = true.

Lemma getNode_settled l σ :
  match getNode o l σ with
  | Val (Some n, _) σ' => settled [] [Some (Cid n)] σ σ'
  | out => settled [] [] σ (final out)
  end.
Proof.
  destruct (getNode_cases o l σ) as
    [r e w Hd Hf|r e w f r' w' Hd Hf Hr|r w Hd Hs|w Hd Hs|n w Hd Hs Hin
    |n w Hd Hs Hin]; simpl; try congruence.
  - by apply settled_quiet.
  - eapply settled_trans; [by apply (settled_quiet σ (EvFetch l (r, Some e)) w)|].
    by apply (settled_quiet
                (mkStore (seen σ) w (trace σ ++ [EvFetch l (r, Some e)]))
                (EvRecover (Outside e) r') w').
  - by apply settled_quiet.
  - by apply settled_quiet.
  - eapply settled_trans;
      [by apply (settled_quiet σ (EvFetch l (Some n, None)) w)|].
    apply (settled_mark
             (mkStore (seen σ) w (trace σ ++ [EvFetch l (Some n, None)]))).
Qed.

Lemma callFunc_settled s σ :
  settled [key_of s] [] σ (final (callFunc o s σ)).
Proof.
  destruct (callFunc_eq o s σ) as (r & w & _ & ->). apply settled_visit.
Qed.

Lemma dfsDescend_links_settled df d ls :
  (∀ s σ, on_success (settled [key_of s] [] σ) (df s σ)) →
  ∀ σ, on_success (settled [] [] σ) (dfsDescend_links o df d ls σ).
Proof.
  intros Hdf. induction ls as [|l ls IH]; intros σ; simpl.
  - apply settled_refl.
  - unfold bind. pose proof (getNode_settled l σ) as Hg.
    destruct (getNode o l σ) as [[node [e|]] σ1|σ1|σ1]; simpl in *; try done.
    destruct node as [n|].
    + pose proof (Hdf (mkState (Some n) (int_add d 1)) σ1) as Hn.
      destruct (df (mkState (Some n) (int_add d 1)) σ1) as [[e|] σ2|σ2|σ2];
        simpl in *; try done.
      eapply on_success_trans; [|apply IH].
      by eapply settled_trans.
    + eapply on_success_trans; [exact Hg|apply IH].
Qed.

Lemma dfsDescend_settled df s :
  (∀ s σ, on_success (settled [key_of s] [] σ) (df s σ)) →
  ∀ σ, on_success (settled [] [] σ) (dfsDescend o df s σ).
Proof.
  intros Hdf σ. unfold dfsDescend. destruct (SNode s); [|done].
  by apply dfsDescend_links_settled.
Qed.

Lemma dfsPreTraverse_settled fuel :
  ∀ s σ, on_success (settled [key_of s] [] σ) (dfsPreTraverse o fuel s σ).
Proof.
  induction fuel as [|fuel IH]; intros s σ; simpl; [done|].
  unfold bind. pose proof (callFunc_settled s σ) as Hc.
  destruct (callFunc o s σ) as [[e|] σ1|σ1|σ1]; simpl in *; try done.
  eapply on_success_trans; [exact Hc|]. by apply dfsDescend_settled.
Qed.

Lemma dfsPostTraverse_settled fuel :
  ∀ s σ, on_success (settled [key_of s] [] σ) (dfsPostTraverse o fuel s σ).
Proof.
  induction fuel as [|fuel IH]; intros s σ; simpl; [done|].
  unfold bind. pose proof (dfsDescend_settled _ s IH σ) as Hd.
  destruct (dfsDescend o (dfsPostTraverse o fuel) s σ) as [[e|] σ1|σ1|σ1];
    simpl in *; try done.
  pose proof (callFunc_settled s σ1) as Hc.
  destruct (callFunc o s σ1) as [[e|] σ2|σ2|σ2]; simpl in *; try done.
  eapply settled_trans; [|exact Hc]. by apply (settled_frame_nil _ []).
Qed.

Lemma bfs_links_settled d ls :
  ∀ q σ,
    match bfs_links o d ls q σ with
    | Val (q', None) σ' => settled (key_of <$> q) (key_of <$> q') σ σ'
    | _ => True
    end.
Proof.
  induction ls as [|l ls IH]; intros q σ; simpl.
  - apply (settled_frame_nil _ []), settled_refl.
  - unfold bind. pose proof (getNode_settled l σ) as Hg.
    destruct (getNode o l σ) as [[node [e|]] σ1|σ1|σ1]; simpl in *; try done.
    destruct node as [n|].
    + specialize (IH (q ++ [mkState (Some n) (int_add d 1)]) σ1).
      apply (settled_frame _ _ (key_of <$> q)) in Hg. simpl in Hg.
      destruct (bfs_links o d ls (q ++ [mkState (Some n) (int_add d 1)]) σ1)
        as [[q' [e|]] σ2|σ2|σ2]; simpl in *; try done.
      eapply settled_trans; [exact Hg|].
      eapply settled_perm; [|done|exact IH].
      rewrite fmap_app. simpl. apply Permutation_app_comm.
    + specialize (IH q σ1).
      apply (settled_frame _ _ (key_of <$> q)) in Hg. simpl in Hg.
      destruct (bfs_links o d ls q σ1) as [[q' [e|]] σ2|σ2|σ2]; simpl in *;
        try done.
      by eapply settled_trans.
Qed.

Lemma bfs_loop_settled fuel :
  ∀ q σ, on_success (settled (key_of <$> q) [] σ) (bfs_loop o fuel q σ).
Proof.
  induction fuel as [|fuel IH]; intros [|curr q] σ; simpl; try done;
    try apply settled_refl.
  unfold bind at 1. simpl.
  assert (Hq : settled [] [] σ (emit (EvDequeue curr) σ))
    by (by apply settled_quiet).
  apply (settled_frame _ _ (key_of curr :: (key_of <$> q))) in Hq.
  simpl in Hq. eapply on_success_trans; [exact Hq|]. clear Hq.
  generalize (emit (EvDequeue curr) σ). clear σ. intros σ.
  destruct (SNode curr) as [n|] eqn:Hcurr; [|done].
  unfold bind at 1. pose proof (callFunc_settled curr σ) as Hc.
  apply (settled_frame _ _ (key_of <$> q)) in Hc. simpl in Hc.
  destruct (callFunc o curr σ) as [[e|] σ1|σ1|σ1]; simpl in *; try done.
  eapply on_success_trans; [exact Hc|]. clear Hc.
  unfold bind. pose proof (bfs_links_settled (Depth curr) (Links n) q σ1) as Hl.
  destruct (bfs_links o (Depth curr) (Links n) q σ1) as [[q' [e|]] σ2|σ2|σ2];
    simpl in *; try done.
  eapply on_success_trans; [exact Hl|apply IH].
Qed.

Lemma bfsTraverse_settled fuel s σ :
  on_success (settled [] [] σ) (bfsTraverse o fuel s σ).
Proof.
  unfold bfsTraverse, bind.
  destruct (shouldSkip_cases o (SNode s) σ) as [Hs|Hs Hn|n Hs Hn Hin|n Hs Hn Hin];
    simpl; try apply settled_refl; try congruence; try done.
  eapply on_success_trans.
  - apply (settled_mark σ (Cid n) (world σ)).
  - pose proof (bfs_loop_settled fuel [s]
      (mkStore ({[Cid n]} ∪ seen σ) (world σ) (trace σ ++ [EvMark (Cid n)])))
      as Hl.
    simpl in Hl. unfold key_of in Hl. by rewrite Hn in Hl.
Qed.

End Settled.

(** X8. With duplicate suppression on, when [Traverse] returns nil every
    identifier in the seen set has had its visit: the identifiers handed to
    the visitor are, one for one, the marked identifiers, plus the root in
    the depth-first orders, and the seen set holds exactly the marked
    identifiers, each marked once. *)
Theorem on_success_visits_are_the_marks fuel (root : option Node') o (w : W) σ :
  SkipDuplicates o = true →
  Traverse fuel root o w = Val None σ →
  visit_keys (trace σ)
    ≡ₚ (if decide (Order_ o = BFS) then [] else [Cid <$> root])
         ++ (Some <$> marks (trace σ)) ∧
  seen σ = list_to_set (marks (trace σ)) ∧ NoDup (marks (trace σ)).
Proof.
  intros Hskip Hrun.
  destruct (Traverse_licensed fuel root o w Hskip) as [Hcoh _].
  rewrite Hrun in Hcoh. split; [|exact Hcoh].
  assert (Hgen : ∀ p (out : outcome' (option error')),
    on_success (settled p [] (init w : store')) out → out = Val None σ →
    visit_keys (trace σ) ≡ₚ p ++ (Some <$> marks (trace σ))).
  { intros p out Hs ->. destruct Hs as (ms & vs & Hm & Hv & Hp).
    simpl in Hm, Hv. rewrite Hm, Hv. by rewrite app_nil_r in Hp. }
  revert Hrun. unfold Traverse, DFSPre, DFSPost, BFS.
  repeat case_decide; try congruence; apply Hgen;
    first [ by apply (dfsPreTraverse_settled o Hskip fuel (mkState root 0))
          | by apply (dfsPostTraverse_settled o Hskip fuel (mkState root 0))
          | by apply bfsTraverse_settled ].
Qed.


(** ** A returned error is the error of the last event *)

Lemma caused_bind {A B} o (ea : A → option error') (eb : B → option error')
    (m : M Link W E A) (f : A → M Link W E B) σ :
  caused o ea (m σ) →
  (∀ a σ1, m σ = Val a σ1 →
     match ea a with
     | Some e => ∃ b, f a σ1 = Val b σ1 ∧ eb b = Some e
     | None => caused o eb (f a σ1)
     end) →
  caused o eb (bind m f σ).
Proof.
  intros Hm Hf. unfold bind.
  destruct (m σ) as [a σ1|σ1|σ1] eqn:Hmσ; try by intros ? ? ? [=].
  specialize (Hf a σ1 eq_refl). destruct (ea a) as [e|] eqn:Ha; [|done].
  destruct Hf as (b & -> & Hb). intros b' σ' e' [= <- <-] Hb'.
  rewrite Hb in Hb'. injection Hb' as <-. by eapply Hm.
Qed.

Lemma caused_nil {A} o (err : A → option error') (out : outcome' A) :
  (∀ a σ', out = Val a σ' → err a = None) → caused o err out.
Proof. intros Hn a σ' e Hout He. rewrite (Hn _ _ Hout) in He. done. Qed.

Lemma caused_one {A} o (err : A → option error') ev a (w : W)
    (sn : gset string) tr :
  fatal o ev = err a → caused o err (Val a (mkStore sn w (tr ++ [ev]))).
Proof.
  intros Hev a' σ' e [= <- <-] He. exists tr, ev. split; [done|]. congruence.
Qed.

Lemma getNode_caused o l σ : caused o snd (getNode o l σ).
Proof.
  destruct (getNode_cases o l σ) as
    [r e w Hd Hf|r e w f r' w' Hd Hf Hr|r w Hd Hs|w Hd Hs|n w Hd Hs Hin
    |n w Hd Hs Hin]; try (apply caused_nil; by intros ? ? [= <- _]).
  - apply caused_one. simpl. by rewrite Hf.
  - destruct r' as [e'|]; [by apply caused_one|].
    apply caused_nil. by intros ? ? [= <- _].
Qed.

Lemma callFunc_caused o s σ : caused o id (callFunc o s σ).
Proof.
  destruct (callFunc_eq o s σ) as (r & w & _ & ->).
  apply caused_one. by destruct r.
Qed.

Lemma ret_caused_nil o σ : caused o id (ret (None : option error') σ).
Proof. apply caused_nil. by intros ? ? [= <- _]. Qed.

Lemma dfsDescend_links_caused o df d ls :
  (∀ s σ, caused o id (df s σ)) →
  ∀ σ, caused o id (dfsDescend_links o df d ls σ).
Proof.
  intros Hdf. induction ls as [|l ls IH]; intros σ; simpl.
  - apply ret_caused_nil.
  - apply (caused_bind o snd); [apply getNode_caused|].
    intros [node [e|]] σ1 _; simpl; [by eexists|].
    destruct node as [n|]; [|apply IH].
    apply (caused_bind o id); [apply Hdf|].
    intros [e|] σ2 _; simpl; [by eexists|apply IH].
Qed.

Lemma dfsDescend_caused o df s :
  (∀ s σ, caused o id (df s σ)) → ∀ σ, caused o id (dfsDescend o df s σ).
Proof.
  intros Hdf σ. unfold dfsDescend. destruct (SNode s).
  - by apply dfsDescend_links_caused.
  - by intros ? ? ? [=].
Qed.

Lemma dfsPreTraverse_caused o fuel :
  ∀ s σ, caused o id (dfsPreTraverse o fuel s σ).
Proof.
  induction fuel as [|fuel IH]; intros s σ; simpl; [by intros ? ? ? [=]|].
  apply (caused_bind o id); [apply callFunc_caused|].
  intros [e|] σ1 _; simpl; [by eexists|]. by apply dfsDescend_caused.
Qed.

Lemma dfsPostTraverse_caused o fuel :
  ∀ s σ, caused o id (dfsPostTraverse o fuel s σ).
Proof.
  induction fuel as [|fuel IH]; intros s σ; simpl; [by intros ? ? ? [=]|].
  apply (caused_bind o id); [by apply dfsDescend_caused|].
  intros [e|] σ1 _; simpl; [by eexists|]. apply callFunc_caused.
Qed.

Lemma bfs_links_caused o d ls :
  ∀ q σ, caused o snd (bfs_links o d ls q σ).
Proof.
  induction ls as [|l ls IH]; intros q σ; simpl.
  - apply caused_nil. by intros ? ? [= <- _].
  - apply (caused_bind o snd); [apply getNode_caused|].
    intros [node [e|]] σ1 _; simpl; [by eexists|].
    destruct node; apply IH.
Qed.

Lemma bfs_loop_caused o fuel :
  ∀ q σ, caused o id (bfs_loop o fuel q σ).
Proof.
  induction fuel as [|fuel IH]; intros [|curr q] σ; simpl;
    try apply ret_caused_nil; try (by intros ? ? ? [=]).
  apply (caused_bind o
           (λ _, match SNode curr with None => Some errDequeue | _ => None end)).
  { unfold emit. by apply caused_one. }
  intros [] σ1 _. destruct (SNode curr) as [n|]; [|by eexists].
  apply (caused_bind o id); [apply callFunc_caused|].
  intros [e|] σ2 _; simpl; [by eexists|].
  apply (caused_bind o snd); [apply bfs_links_caused|].
  intros [q' [e|]] σ3 _; simpl; [by eexists|]. apply IH.
Qed.

Lemma bfsTraverse_caused o fuel s σ : caused o id (bfsTraverse o fuel s σ).
Proof.
  unfold bfsTraverse, bind.
  destruct (shouldSkip_cases o (SNode s) σ); simpl;
    try apply ret_caused_nil; try apply bfs_loop_caused.
  by intros ? ? ? [=].
Qed.

(** X10. [Traverse] returns an error for four reasons only, and the reason
    is the last thing that happened: the visitor returned that error, the
    recovery function returned it, a link failed to resolve with no
    recovery function installed (the retrieval error is returned), or the
    queue handed out the nil node (the internal error is returned). *)
Theorem returned_error_is_the_last_event fuel (root : option Node') o (w : W)
    e σ :
  Traverse fuel root o w = Val (Some e) σ →
  ∃ tr ev, trace σ = tr ++ [ev] ∧
    ((∃ s e0, ev = EvVisit s (Some e0) ∧ e = Outside e0) ∨
     (∃ e1, ev = EvRecover e1 (Some e)) ∨
     (ErrFunc o = None ∧ ∃ l r e0, ev = EvFetch l (r, Some e0) ∧ e = Outside e0) ∨
     (∃ s, ev = EvDequeue s ∧ SNode s = None ∧ e = errDequeue)).
Proof.
  intros Hrun.
  assert (Hc : caused o id (Traverse fuel root o w)).
  { unfold Traverse. repeat case_decide;
      auto using dfsPreTraverse_caused, dfsPostTraverse_caused,
        bfsTraverse_caused. }
  destruct (Hc _ _ e Hrun eq_refl) as (tr & ev & Htr & Hev).
  exists tr, ev. split; [done|].
  destruct ev as [l [r [e0|]]|k|e1 [e2|]|s|s [e0|]]; simpl in Hev; try done.
  - destruct (ErrFunc o) eqn:Hf; [done|]. injection Hev as <-.
    right. right. left. split; [done|]. by exists l, r, e0.
  - injection Hev as <-. right. left. by exists e1.
  - destruct (SNode s) eqn:Hs; [done|]. injection Hev as <-.
    right. right. right. by exists s.
  - injection Hev as <-. left. by exists s, e0.
Qed.


(** ** On success the links of the visited nodes have been resolved *)

Lemma resolved_refl σ : resolved [] [] σ σ.
Proof. exists [], []. by rewrite !app_nil_r. Qed.

Lemma resolved_both p1 c1 p2 c2 σ1 σ2 σ3 :
  resolved p1 c1 σ1 σ2 → resolved p2 c2 σ2 σ3 →
  resolved (p1 ++ p2) (c1 ++ c2) σ1 σ3.
Proof.
  intros (fs1 & vs1 & Hf1 & Hv1 & H1) (fs2 & vs2 & Hf2 & Hv2 & H2).
  exists (fs1 ++ fs2), (vs1 ++ vs2).
  rewrite Hf2, Hf1, Hv2, Hv1, !app_assoc. repeat split.
  rewrite flat_map_app.
  transitivity ((fs1 ++ c1) ++ (fs2 ++ c2)).
  { rewrite <- !app_assoc. f_equiv. rewrite !app_assoc. f_equiv.
    apply Permutation_app_comm. }
  rewrite H1, H2. rewrite <- !app_assoc. f_equiv. rewrite !app_assoc. f_equiv.
  apply Permutation_app_comm.
Qed.

Lemma resolved_cancel p c r σ σ' :
  resolved (p ++ r) (c ++ r) σ σ' → resolved p c σ σ'.
Proof.
  intros (fs & vs & Hf & Hv & H). exists fs, vs. repeat split; try done.
  apply (Permutation_app_inv_r r).
  rewrite <- (app_assoc fs c r), H, <- !app_assoc. f_equiv.
  apply Permutation_app_comm.
Qed.

Lemma resolved_perm p p' c c' σ σ' :
  p ≡ₚ p' → c ≡ₚ c' → resolved p c σ σ' → resolved p' c' σ σ'.
Proof.
  intros Hp Hc (fs & vs & Hf & Hv & H). exists fs, vs.
  repeat split; try done. by rewrite <- Hp, <- Hc.
Qed.

Lemma resolved_trans p c c' σ1 σ2 σ3 :
  resolved p c σ1 σ2 → resolved c c' σ2 σ3 → resolved p c' σ1 σ3.
Proof.
  intros H1 H2. apply (resolved_cancel p c' c).
  eapply resolved_perm; [| |exact (resolved_both _ _ _ _ _ _ _ H1 H2)].
  - done.
  - apply Permutation_app_comm.
Qed.

Lemma resolved_frame p c r σ σ' :
  resolved p c σ σ' → resolved (p ++ r) (c ++ r) σ σ'.
Proof.
  intros (fs & vs & Hf & Hv & H). exists fs, vs. repeat split; try done.
  rewrite app_assoc, H, <- !app_assoc. f_equiv. apply Permutation_app_comm.
Qed.

Lemma getNode_fetches o l σ :
  fetches (trace (final (getNode o l σ))) = fetches (trace σ) ++ [l] ∧
  visit_nodes (trace (final (getNode o l σ))) = visit_nodes (trace σ).
Proof.
  destruct (getNode_cases o l σ); simpl; unfold fetches, visit_nodes, visits;
    rewrite ?omap_app; simpl; by rewrite ?app_nil_r.
Qed.

Lemma getNode_resolved_link o l σ :
  resolved [l] [] σ (final (getNode o l σ)).
Proof.
  destruct (getNode_fetches o l σ) as [Hf Hv]. exists [l], [].
  by rewrite Hf, Hv, !app_nil_r.
Qed.

Lemma callFunc_resolved o s σ :
  resolved [] (links_of s) σ (final (callFunc o s σ)).
Proof.
  destruct (callFunc_eq o s σ) as (r & w & _ & ->). simpl.
  unfold links_of.
  exists [], (match SNode s with Some n => [n] | None => [] end).
  unfold fetches, visit_nodes, visits. simpl. rewrite !omap_app. simpl.
  destruct (SNode s); simpl; by rewrite ?app_nil_r.
Qed.

Lemma on_success_resolved p c c' σ σ1 (out : outcome' (option error')) :
  resolved p c σ σ1 → on_success (resolved c c' σ1) out →
  on_success (resolved p c' σ) out.
Proof.
  intros H1. destruct out as [[e|] σ2|σ2|σ2]; simpl; try done.
  by apply resolved_trans.
Qed.

Lemma dfsDescend_links_resolved o df d ls :
  (∀ s σ, on_success (resolved [] [] σ) (df s σ)) →
  ∀ σ, on_success (resolved ls [] σ) (dfsDescend_links o df d ls σ).
Proof.
  intros Hdf. induction ls as [|l ls IH]; intros σ; simpl.
  - apply resolved_refl.
  - unfold bind. pose proof (getNode_resolved_link o l σ) as Hg.
    apply (resolved_frame _ _ ls) in Hg. simpl in Hg.
    destruct (getNode o l σ) as [[node [e|]] σ1|σ1|σ1]; simpl in *; try done.
    destruct node as [n|].
    + pose proof (Hdf (mkState (Some n) (int_add d 1)) σ1) as Hn.
      destruct (df (mkState (Some n) (int_add d 1)) σ1) as [[e|] σ2|σ2|σ2];
        simpl in *; try done.
      eapply on_success_resolved; [|apply IH].
      eapply resolved_trans; [exact Hg|].
      by apply (resolved_frame [] [] ls).
    + eapply on_success_resolved; [exact Hg|apply IH].
Qed.

Lemma dfsPreTraverse_resolved o fuel :
  ∀ s σ, on_success (resolved [] [] σ) (dfsPreTraverse o fuel s σ).
Proof.
  induction fuel as [|fuel IH]; intros s σ; simpl; [done|].
  unfold bind. pose proof (callFunc_resolved o s σ) as Hc.
  destruct (callFunc o s σ) as [[e|] σ1|σ1|σ1]; simpl in *; try done.
  eapply on_success_resolved; [exact Hc|].
  unfold dfsDescend, links_of. destruct (SNode s); [|done].
  by apply dfsDescend_links_resolved.
Qed.

Lemma dfsPostTraverse_resolved o fuel :
  ∀ s σ, on_success (resolved [] [] σ) (dfsPostTraverse o fuel s σ).
Proof.
  induction fuel as [|fuel IH]; intros s σ; simpl; [done|].
  unfold bind, dfsDescend. destruct (SNode s) as [n|] eqn:Hn; [|done].
  pose proof (dfsDescend_links_resolved o _ (Depth s) (Links n) IH σ) as Hd.
  destruct (dfsDescend_links o (dfsPostTraverse o fuel) (Depth s) (Links n) σ)
    as [[e|] σ1|σ1|σ1]; simpl in *; try done.
  pose proof (callFunc_resolved o s σ1) as Hc.
  unfold links_of in Hc. rewrite Hn in Hc.
  destruct (callFunc o s σ1) as [[e|] σ2|σ2|σ2]; simpl in *; try done.
  apply (resolved_cancel [] [] (Links n)). simpl. rewrite <- (app_nil_r (Links n)) at 1.
  by apply (resolved_both (Links n) [] [] (Links n) σ σ1 σ2).
Qed.

Lemma bfs_links_in_order o d ls :
  ∀ q σ q' σ', bfs_links o d ls q σ = Val (q', None) σ' →
    fetches (trace σ') = fetches (trace σ) ++ ls ∧
    visit_nodes (trace σ') = visit_nodes (trace σ).
Proof.
  induction ls as [|l ls IH]; intros q σ q' σ'; simpl.
  - unfold ret. intros [= _ <-]. by rewrite app_nil_r.
  - unfold bind. destruct (getNode_fetches o l σ) as [Hf Hv].
    destruct (getNode o l σ) as [[node [e|]] σ1|σ1|σ1]; simpl in *; try done.
    intros Hrun.
    assert (fetches (trace σ') = fetches (trace σ1) ++ ls ∧
            visit_nodes (trace σ') = visit_nodes (trace σ1)) as [-> ->]
      by (destruct node; by eapply IH).
    by rewrite Hf, Hv, <- app_assoc.
Qed.

Lemma bfs_loop_in_order o fuel :
  ∀ q σ σ', bfs_loop o fuel q σ = Val None σ' →
    ∃ vs, visit_nodes (trace σ') = visit_nodes (trace σ) ++ vs ∧
      fetches (trace σ') = fetches (trace σ) ++ flat_map Links vs.
Proof.
  induction fuel as [|fuel IH]; intros [|curr q] σ σ'; simpl; try done;
    try (unfold ret; intros [= <-]; exists []; by rewrite !app_nil_r).
  unfold bind at 1. simpl. destruct (SNode curr) as [n|] eqn:Hn; [|done].
  unfold bind at 1.
  destruct (callFunc_eq o curr (emit (EvDequeue curr) σ)) as (r & w' & _ & ->).
  destruct r as [e|]; simpl; [done|]. unfold bind.
  match goal with |- context [bfs_links o ?d ?ls q ?σ1] =>
    pose proof (bfs_links_in_order o d ls q σ1) as Hl;
    destruct (bfs_links o d ls q σ1) as [[q' [e|]] σ2|σ2|σ2]; try done
  end.
  destruct (Hl q' σ2 eq_refl) as [Hf Hv]. intros Hrun.
  destruct (IH q' σ2 σ' Hrun) as (vs & Hvs & Hfs).
  exists (n :: vs). rewrite Hvs, Hfs, Hv, Hf. simpl.
  unfold visit_nodes, visits, fetches. rewrite !omap_app. simpl. rewrite Hn.
  simpl. by rewrite !app_nil_r, <- !app_assoc.
Qed.

(** X9. When [Traverse] returns nil, the node getter has been asked once
    for each link of each node handed to the visitor, and for no other
    link, whatever the order, with or without suppression or recovery;
    breadth-first the requests come node by node in the order of the
    visits, the links of a node in link order. *)
Theorem on_success_links_of_visited_nodes_resolved fuel (root : option Node')
    o (w : W) σ :
  Traverse fuel root o w = Val None σ →
  fetches (trace σ) ≡ₚ flat_map Links (visit_nodes (trace σ)) ∧
  (Order_ o = BFS →
   fetches (trace σ) = flat_map Links (visit_nodes (trace σ))).
Proof.
  intros Hrun.
  assert (Hbfs : Order_ o = BFS →
    fetches (trace σ) = flat_map Links (visit_nodes (trace σ))).
  { intros Hord. revert Hrun. unfold Traverse, DFSPre, DFSPost, BFS.
    rewrite Hord. simpl. unfold bfsTraverse, bind.
    destruct (shouldSkip_cases o (SNode (mkState root 0)) (init w))
      as [?|? ?|m ? ? ?|m ? ? ?]; simpl; try done;
      intros Hl; apply bfs_loop_in_order in Hl as (vs & -> & ->); done. }
  split; [|done].
  assert (Hgen : ∀ out : outcome' (option error'),
    on_success (resolved [] [] (init w : store')) out → out = Val None σ →
    fetches (trace σ) ≡ₚ flat_map Links (visit_nodes (trace σ))).
  { intros out Hs ->. destruct Hs as (fs & vs & Hf & Hv & Hp).
    simpl in Hf, Hv. rewrite Hf, Hv. by rewrite app_nil_r in Hp. }
  destruct (decide (Order_ o = BFS)) as [Hord|Hord]; [by rewrite Hbfs|].
  revert Hrun. unfold Traverse.
  repeat case_decide; try done; apply Hgen;
    first [apply dfsPreTraverse_resolved|apply dfsPostTraverse_resolved].
Qed.


End Engine_facts.

(** * More on the gateway errors *)

Module GatewayFacts.
Import Gateway.

Lemma error_induction (P : error → Prop) :
  (∀ d, P (RetryAfterE None d)) →
  (∀ e d, P e → P (RetryAfterE (Some e) d)) →
  (∀ c, P (ResponseE c None)) →
  (∀ c e, P e → P (ResponseE c (Some e))) →
  (∀ k t, P (Other k t None)) →
  (∀ k t e, P e → P (Other k t (Some e))) →
  ∀ e, P e.
Proof.
  intros H1 H2 H3 H4 H5 H6. fix IH 1.
  intros [[e|] d|c [e|]|k t [e|]];
    [apply H2, IH|apply H1|apply H4, IH|apply H3|apply H6, IH|apply H5].
Qed.

Lemma chain_head (e : error) : e ∈ chain e.
Proof. destruct e as [[?|] ?|? [?|]|? ? [?|]]; simpl; by left. Qed.

(** [Is_foreign k] finds an error of the foreign type [k] in the chain. *)
Lemma Is_foreign_spec (k : foreign) (e : error) :
  Is_foreign k e = true ↔ ∃ t i, Other k t i ∈ chain e.
Proof.
  induction e as [d|e d IH|c|c e IH|k' t|k' t e IH] using error_induction;
    simpl.
  - split; [done|]. intros (t & i & Hin). by apply list_elem_of_singleton in Hin.
  - rewrite IH. split; intros (t & i & Hin); exists t, i; [by right|].
    by apply elem_of_cons in Hin as [?|?].
  - split; [done|]. intros (t & i & Hin). by apply list_elem_of_singleton in Hin.
  - rewrite IH. split; intros (t & i & Hin); exists t, i; [by right|].
    by apply elem_of_cons in Hin as [?|?].
  - rewrite orb_false_r, bool_decide_eq_true. split.
    + intros ->. exists t, None. by left.
    + intros (t' & i & Hin). apply list_elem_of_singleton in Hin. congruence.
  - rewrite orb_true_iff, bool_decide_eq_true, IH. split.
    + intros [->|(t' & i & Hin)]; [exists t, (Some e); by left|].
      exists t', i. by right.
    + intros (t' & i & Hin). apply elem_of_cons in Hin as [Heq|Hin];
        [left; congruence|right; eauto].
Qed.

Lemma isErrNotFound_loop_spec (e : error) :
  isErrNotFound_loop e = true ↔
  ∃ k t i, Other k t i ∈ chain e ∧ (k = NoLink ∨ k = WrongKind ∨ k = NotExists).
Proof.
  induction e as [d|e d IH|c|c e IH|k' t|k' t e IH] using error_induction;
    simpl.
  - split; [done|]. intros (k & t & i & Hin & _).
    by apply list_elem_of_singleton in Hin.
  - rewrite IH. split; intros (k & t & i & Hin & Hk); exists k, t, i;
      (split; [|done]); [by right|]. by apply elem_of_cons in Hin as [?|?].
  - split; [done|]. intros (k & t & i & Hin & _).
    by apply list_elem_of_singleton in Hin.
  - rewrite IH. split; intros (k & t & i & Hin & Hk); exists k, t, i;
      (split; [|done]); [by right|]. by apply elem_of_cons in Hin as [?|?].
  - split.
    + intros Hk. exists k', t, None. split; [by left|].
      repeat case_bool_decide; auto. done.
    + intros (k & t' & i & Hin & Hk). apply list_elem_of_singleton in Hin.
      injection Hin as <- _ _. repeat case_bool_decide; try done.
      destruct Hk as [?|[?|?]]; done.
  - split.
    + intros Hk. repeat case_bool_decide;
        try (exists k', t, (Some e); split; [by left|auto]; fail).
      apply IH in Hk as (k & t' & i & Hin & Hk). exists k, t', i.
      split; [by right|done].
    + intros (k & t' & i & Hin & Hk). repeat case_bool_decide; try done.
      apply IH. apply elem_of_cons in Hin as [Heq|Hin].
      * injection Heq as <- _ _. destruct Hk as [?|[?|?]]; done.
      * by exists k, t', i.
Qed.

(** X13. [isErrNotFound] answers true exactly when some error down the
    [Unwrap] chain is an [ipld.ErrNotFound], a [resolver.ErrNoLink], a
    [datamodel.ErrWrongKind] or a [datamodel.ErrNotExists]; on the nil error
    it answers false. *)
Theorem isErrNotFound_finds_the_four_types (err : option error) :
  isErrNotFound err = true ↔
  ∃ k t i, Other k t i ∈ chain_of err ∧
    (k = IpldNotFound ∨ k = NoLink ∨ k = WrongKind ∨ k = NotExists).
Proof.
  destruct err as [e|]; simpl.
  2:{ split; [done|]. intros (k & t & i & Hin & _). by apply elem_of_nil in Hin. }
  destruct (Is_foreign IpldNotFound e) eqn:Hf.
  - split; [|done]. intros _. apply Is_foreign_spec in Hf as (t & i & Hin).
    exists IpldNotFound, t, i. auto.
  - rewrite isErrNotFound_loop_spec. split.
    + intros (k & t & i & Hin & Hk). exists k, t, i. split; [done|]. tauto.
    + intros (k & t & i & Hin & [->|Hk]); [|by exists k, t, i].
      assert (Is_foreign IpldNotFound e = true)
        by (apply Is_foreign_spec; eauto). congruence.
Qed.

(** X19. The methods [Is] look at the type of the target only: once the
    chain of [err] holds an [*ErrorResponse], [errors.Is(err, target)] is
    true for every [*ErrorResponse] target, whatever the two status codes
    and wrapped errors; the same for [*ErrorRetryAfter]. *)
Theorem errors_Is_ignores_the_fields (same : error → error → bool)
    (err : option error) :
  (∀ c e c' e', ResponseE c e ∈ chain_of err →
     errors_Is same err (ResponseE c' e') = true) ∧
  (∀ e d e' d', RetryAfterE e d ∈ chain_of err →
     errors_Is same err (RetryAfterE e' d') = true).
Proof.
  split; intros ? ? ? ? Hin; unfold errors_Is; apply existsb_exists;
    eexists; (split; [by apply list_elem_of_In|]);
    unfold answers_to; simpl; apply orb_true_r.
Qed.

Lemma As_ErrorResponse_in (e : error) c :
  As_ErrorResponse e = Some c → ∃ e', ResponseE c e' ∈ chain e.
Proof.
  induction e as [d|e d IH|c'|c' e IH|k t|k t e IH] using error_induction;
    simpl; try done.
  - intros Hc. destruct (IH Hc) as [e' Hin]. exists e'. by right.
  - intros [= ->]. exists None. by left.
  - intros [= ->]. exists (Some e). by left.
  - intros Hc. destruct (IH Hc) as [e' Hin]. exists e'. by right.
Qed.

Lemma As_ErrorRetryAfter_in (e : error) ie d :
  As_ErrorRetryAfter e = Some (ie, d) →
  RetryAfterE ie d ∈ chain e ∧ chain_of ie ⊆ chain e.
Proof.
  induction e as [d'|e d' IH|c'|c' e IH|k t|k t e IH] using error_induction;
    simpl; try done.
  - intros [= <- <-]. split; [by left|]. simpl. set_solver.
  - intros [= <- <-]. split; [by left|]. simpl. set_solver.
  - intros Hc. destruct (IH Hc) as [Hin Hsub]. split; [by right|]. set_solver.
  - intros Hc. destruct (IH Hc) as [Hin Hsub]. split; [by right|]. set_solver.
Qed.

Section Origin.
Variable Round : Z → Z → Z.
Variable String : Z → string.
Variable Seconds : Z → Z.
Variable Itoa : Z → string.

(** X16. [webError] invents no status code and no header: the status of
    the response is the default code, 429, 400, 404 or 504, or the status
    code of an [*ErrorResponse] of the chain; a [Retry-After] header is
    sent only for an [*ErrorRetryAfter] of the chain with a positive
    duration, whose value it carries. *)
Theorem status_code_and_header_origin (acceptsHTML : bool)
    (err : option error) (defaultCode : Z) (r : response) :
  webError Round String Seconds Itoa acceptsHTML err defaultCode = Some r →
  (Code r ∈ [defaultCode; StatusTooManyRequests; StatusBadRequest;
             StatusNotFound; StatusGatewayTimeout]
   ∨ ∃ e, ResponseE (Code r) e ∈ chain_of err) ∧
  (∀ h, RetryAfterHeader r = Some h →
        ∃ ie d, RetryAfterE ie d ∈ chain_of err ∧ 0 < d ∧
                h = HTTPHeaderValue Round Seconds Itoa d).
Proof.
  unfold webError.
  destruct (err ≫= As_ErrorRetryAfter) as [[eerr d]|] eqn:Has.
  - destruct err as [e|]; [simpl in Has|done].
    apply As_ErrorRetryAfter_in in Has as [Hin Hsub].
    destruct eerr as [e'|]; [|by destruct (0 <? d)].
    assert (Hcode : ∀ c0 : Z,
      c0 ∈ [defaultCode; StatusTooManyRequests] →
      (match As_ErrorResponse e' with
       | Some c => c
       | None =>
           if Is_foreign InvalidCid e' then StatusBadRequest
           else if isErrNotFound (Some e') then StatusNotFound
           else if Is_foreign DeadlineExceeded e' then StatusGatewayTimeout
           else c0
       end) ∈ [defaultCode; StatusTooManyRequests; StatusBadRequest;
               StatusNotFound; StatusGatewayTimeout]
      ∨ ∃ e0, ResponseE
                (match As_ErrorResponse e' with
                 | Some c => c
                 | None =>
                     if Is_foreign InvalidCid e' then StatusBadRequest
                     else if isErrNotFound (Some e') then StatusNotFound
                     else if Is_foreign DeadlineExceeded e'
                          then StatusGatewayTimeout
                     else c0
                 end) e0 ∈ chain e).
    { intros c0 Hc0. destruct (As_ErrorResponse e') as [c|] eqn:Hr.
      - right. apply As_ErrorResponse_in in Hr as [e0 Hr]. exists e0.
        apply Hsub. done.
      - left. repeat match goal with
                     | |- context [if ?b then _ else _] => destruct b
                     end; set_solver. }
    destruct (Z.ltb_spec 0 d) as [Hpos|Hpos]; simpl; intros [= <-]; simpl;
      (split; [|intros h [= <-]; eauto]).
    + apply Hcode. repeat case_bool_decide; simpl; set_solver.
    + apply Hcode. set_solver.
  - destruct err as [e|]; [simpl in Has|done]. simpl. intros [= <-]. simpl.
    split; [|done].
    destruct (As_ErrorResponse e) as [c|] eqn:Hr.
    + right. by apply As_ErrorResponse_in in Hr.
    + left. repeat match goal with
                   | |- context [if ?b then _ else _] => destruct b
                   end; set_solver.
Qed.

End Origin.

Section WithLibraries.
Variable StatusText : Z → string.
Variable Round : Z → Z → Z.
Variable String : Z → string.
Variable Seconds : Z → Z.
Variable Itoa : Z → string.

Abbreviation webError' := (webError Round String Seconds Itoa).
Abbreviation NewErrorRetryAfter' := (NewErrorRetryAfter StatusText).



(** X17. A plain wrapper (an error of no special type that unwraps to [e])
    changes neither the [Retry-After] header nor the status code of the
    response, and when [e] holds an [*ErrorRetryAfter] not the text
    either. *)
Theorem webError_sees_through_plain_wrappers (acceptsHTML : bool)
    (text : string) (e : error) (defaultCode : Z) :
  (λ r, (RetryAfterHeader r, HTML r, Code r))
    <$> webError' acceptsHTML (Some (Other Plain text (Some e))) defaultCode
  = (λ r, (RetryAfterHeader r, HTML r, Code r))
      <$> webError' acceptsHTML (Some e) defaultCode ∧
  (is_Some (As_ErrorRetryAfter e) →
   webError' acceptsHTML (Some (Other Plain text (Some e))) defaultCode
   = webError' acceptsHTML (Some e) defaultCode).
Proof.
  unfold webError. simpl.
  destruct (As_ErrorRetryAfter e) as [[eerr d]|] eqn:Has.
  - done.
  - split; [|by intros [? ?]]. simpl. repeat case_bool_decide; try done.
Qed.


End WithLibraries.

End GatewayFacts.

(** * The properties above on the example graphs *)

(** X1: the link to A of the example graph. *)
Lemma getNode_returns_only_fetched_nodes_witness :
  (None : option (error string)) = None ∧
  ∃ w' : nat, DAG (opts diamondless DFSPre false) "A"
                (world (init 0%nat : store string nat string))
              = ((Some nA, None), w').
Proof.
  eapply (getNode_returns_only_fetched_nodes (opts diamondless DFSPre false)
            "A" (init 0%nat) nA None).
  vm_compute. reflexivity.
Defined.

(** X2: the first and the second encounter of X. *)
Lemma shouldSkip_records_then_skips_witness :
  let o := opts twice DFSPre true in
  let σ : store string nat string := init 0%nat in
  let σ' := final (shouldSkip o (Some (mkNode "X" [])) σ) in
  (None : option (error string)) = None ∧
  (false = true ↔ "X" ∈ seen σ) ∧
  seen σ' = {["X"]} ∪ seen σ ∧
  shouldSkip o (Some (mkNode "X" [])) σ' = Val (true, None) σ'.
Proof.
  apply (shouldSkip_records_then_skips (opts twice DFSPre true)
           (mkNode "X" []) (mkNode "X" []) (init 0%nat) false None).
  - reflexivity.
  - reflexivity.
  - reflexivity.
Defined.

(** X3: the example graph, pre-order, suppression off. *)
Lemma without_suppression_nothing_is_recorded_witness :
  seen (final (Traverse 5 (Some nR) (opts diamondless DFSPre false) 0%nat)) = ∅ ∧
  marks (trace (final (Traverse 5 (Some nR) (opts diamondless DFSPre false) 0%nat)))
  = [].
Proof.
  apply (without_suppression_nothing_is_recorded 5 (Some nR)
           (opts diamondless DFSPre false) 0%nat).
  reflexivity.
Defined.

(** X6: the example graph, breadth-first. *)
Lemma bfs_visits_in_depth_order_witness :
  nondecreasing
    (Depth <$> visits (trace (final (Traverse 10 (Some nR)
                                       (opts diamondless BFS false) 0%nat)))) ∧
  Forall (λ d, 0 ≤ d)
    (Depth <$> visits (trace (final (Traverse 10 (Some nR)
                                       (opts diamondless BFS false) 0%nat)))).
Proof.
  apply (bfs_visits_in_depth_order 10 (Some nR) (opts diamondless BFS false)
           0%nat).
  - reflexivity.
  - vm_compute. reflexivity.
Defined.

(** X8: the cycle through the root, pre-order, suppression on. *)
Lemma on_success_visits_are_the_marks_witness :
  let o := opts cycle DFSPre true in
  let root := Some (mkNode "R" ["A"]) in
  let σ := final (Traverse 5 root o 0%nat) in
  visit_keys (trace σ)
    ≡ₚ (if decide (Order_ o = BFS) then [] else [Cid <$> root])
         ++ (Some <$> marks (trace σ)) ∧
  seen σ = list_to_set (marks (trace σ)) ∧ NoDup (marks (trace σ)).
Proof.
  apply (on_success_visits_are_the_marks 5 (Some (mkNode "R" ["A"]))
           (opts cycle DFSPre true) 0%nat).
  - reflexivity.
  - vm_compute. reflexivity.
Defined.

(** X9: the example graph, breadth-first. *)
Lemma on_success_links_of_visited_nodes_resolved_witness :
  let o := opts diamondless BFS false in
  let σ := final (Traverse 10 (Some nR) o 0%nat) in
  fetches (trace σ) ≡ₚ flat_map Links (visit_nodes (trace σ)) ∧
  (Order_ o = BFS →
   fetches (trace σ) = flat_map Links (visit_nodes (trace σ))).
Proof.
  apply (on_success_links_of_visited_nodes_resolved 10 (Some nR)
           (opts diamondless BFS false) 0%nat).
  vm_compute. reflexivity.
Defined.

(** X10: the visitor fails on its second call. *)
Lemma returned_error_is_the_last_event_witness :
  let o := opts_failing diamondless DFSPre 2 in
  let σ := final (Traverse 5 (Some nR) o 0%nat) in
  ∃ tr ev, trace σ = tr ++ [ev] ∧
    ((∃ s e0, ev = EvVisit s (Some e0) ∧ Outside "stop" = Outside e0) ∨
     (∃ e1, ev = EvRecover e1 (Some (Outside "stop"))) ∨
     (ErrFunc o = None ∧
      ∃ l r e0, ev = EvFetch l (r, Some e0) ∧ Outside "stop" = Outside e0) ∨
     (∃ s, ev = EvDequeue s ∧ SNode s = None ∧ Outside "stop" = errDequeue)).
Proof.
  apply (returned_error_is_the_last_event 5 (Some nR)
           (opts_failing diamondless DFSPre 2) 0%nat (Outside "stop")).
  vm_compute. reflexivity.
Defined.

(** X12: the example graph, suppression off. *)
Lemma traversal_does_not_panic_witness :
  no_panic (Traverse 5 (Some nR) (opts diamondless DFSPre false) 0%nat).
Proof.
  apply (traversal_does_not_panic 5 nR (opts diamondless DFSPre false) 0%nat).
  left. reflexivity.
Defined.

(** X4: the example graph, post-order. *)
Lemma visitor_sees_root_or_fetched_nodes_witness :
  Forall (λ s, SNode s ≠ None)
    (visits (trace (final (Traverse 5 (Some nR) (opts diamondless DFSPost false)
                             0%nat)))).
Proof.
  apply (proj2 (visitor_sees_root_or_fetched_nodes 5 (Some nR)
                  (opts diamondless DFSPost false) 0%nat)).
  by eexists.
Defined.

(** X7: the example graph, post-order: the root comes last. *)
Lemma root_is_visited_first_or_last_witness :
  ∃ tr, trace (final (Traverse 5 (Some nR) (opts diamondless DFSPost false) 0%nat))
        = tr ++ [EvVisit (mkState (Some nR) 0) None].
Proof.
  apply (proj2 (root_is_visited_first_or_last 5 (Some nR)
                  (opts diamondless DFSPost false) 0%nat)).
  - reflexivity.
  - vm_compute. reflexivity.
Defined.

(** X11: the nil root, breadth-first, suppression off. *)
Lemma nil_root_witness :
  Traverse 1 None (opts diamondless BFS false) 0%nat
  = Val (Some errDequeue) (mkStore ∅ 0%nat [EvDequeue (mkState None 0)]).
Proof.
  apply (proj1 (nil_root 0 (opts diamondless BFS false) 0%nat)); reflexivity.
Defined.


(** X17: a plain wrapper around a retry hint. *)
Lemma webError_sees_through_plain_wrappers_witness :
  let Round := λ d m : Z, d in
  let String := λ d : Z, "1s" in
  let Seconds := λ d : Z, d / Gateway.Second in
  let Itoa := λ n : Z, "1" in
  let busy := Gateway.RetryAfterE (Some (Gateway.Other Gateway.Plain "busy" None))
                Gateway.Second in
  Gateway.webError Round String Seconds Itoa false
    (Some (Gateway.Other Gateway.Plain "handler: busy" (Some busy))) 500
  = Gateway.webError Round String Seconds Itoa false (Some busy) 500.
Proof.
  apply (proj2 (GatewayFacts.webError_sees_through_plain_wrappers
                  (λ d m : Z, d) (λ d : Z, "1s")
                  (λ d : Z, d / Gateway.Second) (λ n : Z, "1") false
                  "handler: busy"
                  (Gateway.RetryAfterE
                     (Some (Gateway.Other Gateway.Plain "busy" None))
                     Gateway.Second) 500)).
  by eexists.
Defined.


(** X19: a 404 made by [NewErrorResponse] is [ErrBadGateway] for
    [errors.Is]. *)
Lemma errors_Is_ignores_the_fields_witness :
  Gateway.errors_Is (λ _ _, false)
    (Some (Gateway.NewErrorResponse
             (Some (Gateway.Other Gateway.Plain "no such file" None)) 404))
    (Gateway.ErrBadGateway (λ c : Z, "Bad Gateway")) = true.
Proof.
  apply (proj1 (GatewayFacts.errors_Is_ignores_the_fields (λ _ _, false)
                  (Some (Gateway.NewErrorResponse
                           (Some (Gateway.Other Gateway.Plain "no such file" None))
                           404)))
           404 (Some (Gateway.Other Gateway.Plain "no such file" None))).
  vm_compute. left.
Defined.

(** X16: a retry hint of one second under the default code 500. *)
Lemma status_code_and_header_origin_witness :
  let Round := λ d m : Z, d in
  let Seconds := λ d : Z, d / Gateway.Second in
  let Itoa := λ n : Z, "1" in
  let busy := Gateway.RetryAfterE (Some (Gateway.Other Gateway.Plain "busy" None))
                Gateway.Second in
  let r := Gateway.mkResponse (Some "1") false 429 "busy" in
  (Gateway.Code r ∈ [500; Gateway.StatusTooManyRequests;
                     Gateway.StatusBadRequest; Gateway.StatusNotFound;
                     Gateway.StatusGatewayTimeout]
   ∨ ∃ e, Gateway.ResponseE (Gateway.Code r) e ∈ Gateway.chain_of (Some busy)) ∧
  (∀ h, Gateway.RetryAfterHeader r = Some h →
        ∃ ie d, Gateway.RetryAfterE ie d ∈ Gateway.chain_of (Some busy) ∧ 0 < d ∧
                h = Gateway.HTTPHeaderValue Round Seconds Itoa d).
Proof.
  apply (GatewayFacts.status_code_and_header_origin
           (λ d m : Z, d) (λ d : Z, "1s") (λ d : Z, d / Gateway.Second)
           (λ n : Z, "1") false
           (Some (Gateway.RetryAfterE
                    (Some (Gateway.Other Gateway.Plain "busy" None))
                    Gateway.Second)) 500
           (Gateway.mkResponse (Some "1") false 429 "busy")).
  vm_compute. reflexivity.
Defined.
